(** * Semgrep-Parser: the triage panel and its progress files

    A shallow embedding of [src/SemgrepResultsPanel.ts] and of the command
    registered by the extension's [activate] function.  The panel keeps
    [_results], an object with the three arrays [untriaged], [issues] and
    [falsePositives]; the webview keeps a copy in its own [results]
    variable and sends the commands.  Values are the values [JSON.parse]
    builds, since that is where every result and every loaded progress
    document comes from. *)

From Stdlib Require Import ZArith String Ascii List Lia Permutation.
From stdpp Require Import base option list strings gmap.

Set Warnings "-register-all".
Set Default Proof Using "Type".

Local Open Scope string_scope.
Local Open Scope list_scope.

(** ** Numbers *)

(** A Number is a double.  [Int n] is the integer [n] ([Int 0] is +0),
    [Ratio m k] is [m / 2 ^ k] for an odd [m], [NegZero] is -0.  NaN is
    left out: no JSON text denotes it and no operation of the program makes
    one from the others. *)
Inductive number : Type :=
| Int (n : Z)
| Ratio (m : Z) (k : positive)
| NegZero
| Infinity (negative : bool).

#[global] Instance number_eq_dec : EqDecision number.
Proof. solve_decision. Defined.

Section numbers.
Local Open Scope Z_scope.

Definition signed (negative : bool) (n : Z) : Z := if negative then - n else n.

Definition zero (negative : bool) : number := if negative then NegZero else Int 0.

(** [m / 2 ^ k] in lowest terms. *)
Fixpoint lowest_terms (negative : bool) (m k : positive) : number :=
  match m, k with
  | xO m', xH => Int (signed negative (Zpos m'))
  | xO m', _ => lowest_terms negative m' (Pos.pred k)
  | _, _ => Ratio (signed negative (Zpos m)) k
  end.

(** The number [m * 2 ^ e], with the sign given apart. *)
Definition dyadic (negative : bool) (m e : Z) : number :=
  match m with
  | Zpos m' =>
      match e with
      | Zneg k => lowest_terms negative m' k
      | _ => Int (signed negative (m * 2 ^ e))
      end
  | _ => zero negative
  end.

(** The exponent of the last place of the doubles around [p / q]: 52 below
    the exponent of [p / q] itself, and never below -1074. *)
Definition last_place (p q : Z) : Z :=
  Z.max (Z.log2 (p * 2 ^ 1074 / q) - 1074 - 52) (-1074).

(** The Number value for [p / q], [0 <= p] and [0 < q]: the double nearest
    to it, the one with an even significand when two are as near; a
    quotient that rounds to [2 ^ 1024] or more is infinite. *)
Definition nearest (negative : bool) (p q : Z) : number :=
  if p =? 0 then zero negative
  else
    let e := last_place p q in
    let num := p * 2 ^ Z.max 0 (- e) in
    let den := q * 2 ^ Z.max 0 e in
    let m := num / den in
    let r := num mod den in
    let m' := if (den <? 2 * r) || ((den =? 2 * r) && Z.odd m) then m + 1 else m in
    if 2 ^ 1024 * 2 ^ Z.max 0 (- e) <=? m' * 2 ^ Z.max 0 e then Infinity negative
    else dyadic negative m' e.

(** The Number value for [s * 10 ^ e10]. *)
Definition nearest_decimal (negative : bool) (s e10 : Z) : number :=
  nearest negative (s * 10 ^ Z.max 0 e10) (10 ^ Z.max 0 (- e10)).

(** *** Decimal digits *)

Definition digit (d : Z) : ascii := ascii_of_N (Z.to_N (48 + d)).

Fixpoint digits_acc (fuel : nat) (n : Z) (acc : list ascii) : list ascii :=
  match fuel with
  | O => acc
  | S fuel' =>
      let acc' := digit (n mod 10) :: acc in
      if n <? 10 then acc' else digits_acc fuel' (n / 10) acc'
  end.

(** The decimal digits of [n], [0 <= n]; it has no more of them than bits. *)
Definition digits (n : Z) : list ascii :=
  digits_acc (S (Z.to_nat (Z.log2 n))) n [].

Definition digit_value (c : ascii) : Z := Z.of_N (N_of_ascii c) - 48.

Definition digits_value (ds : list ascii) : Z :=
  fold_left (fun acc c => 10 * acc + digit_value c) ds 0.

(** The text of an integer that is written digit by digit.  An array
    index is below [2 ^ 32], and that is its text as a property key and
    under [Number::toString] ([Number_toString_index]). *)
Definition decimal (n : Z) : string :=
  string_of_list_ascii (if n <? 0 then "-"%char :: digits (- n) else digits n).

(** *** [Number::toString] *)

(** The [n] with [10 ^ (n - 1) <= p / q < 10 ^ n]. *)
Fixpoint exponent_up (fuel : nat) (p q n : Z) : Z :=
  match fuel with
  | O => n
  | S fuel' => if p <? q * 10 ^ n then n else exponent_up fuel' p q (n + 1)
  end.

Fixpoint exponent_down (fuel : nat) (p q j : Z) : Z :=
  match fuel with
  | O => 1 - j
  | S fuel' => if q <=? p * 10 ^ j then 1 - j else exponent_down fuel' p q (j + 1)
  end.

Definition decimal_exponent (p q : Z) : Z :=
  if q <=? p then exponent_up (S (Z.to_nat (Z.log2 p))) p q 1
  else exponent_down (S (Z.to_nat (Z.log2 q))) p q 1.

(** The digits [fst c] with the exponent [snd c] denote [x]. *)
Definition reads_as (negative : bool) (x : number) (c : Z * Z) : bool :=
  (1 <=? fst c) && bool_decide (nearest_decimal negative (fst c) (snd c) = x).

(** "Let n, k and s be integers such that k >= 1, 10 ^ (k - 1) <= s <
    10 ^ k, the Number value for s * 10 ^ (n - k) is x, and k is as small
    as possible": for [k] from 1 on, the two [k]-digit decimals around
    [p / q] are tried, the nearer first.  [exact] is the full expansion of
    [p / q], which ends the search when it is reached. *)
Fixpoint shortest (fuel : nat) (negative : bool) (p q : Z) (x : number)
    (n k : Z) (exact : Z * Z) : Z * Z :=
  match fuel with
  | O => exact
  | S fuel' =>
      let e10 := n - k in
      let num := p * 10 ^ Z.max 0 (- e10) in
      let den := q * 10 ^ Z.max 0 e10 in
      let lo := (num / den, e10) in
      let hi := if num / den + 1 =? 10 ^ k then (1, n) else (num / den + 1, e10) in
      let r := num mod den in
      if reads_as negative x lo && reads_as negative x hi then
        if (2 * r <? den) || ((2 * r =? den) && Z.even (fst lo)) then lo else hi
      else if reads_as negative x lo then lo
      else if reads_as negative x hi then hi
      else shortest fuel' negative p q x n (k + 1) exact
  end.

(** The digits of [p / q], whose expansion has [j] digits after the
    point, and the power of ten they are to be multiplied by. *)
Definition shortest_digits (negative : bool) (p q j : Z) (x : number) : Z * Z :=
  let n := decimal_exponent p q in
  shortest (Z.to_nat (n + j - 1)) negative p q x n 1 (p * 10 ^ j / q, - j).

Definition exponent_text (e : Z) : list ascii :=
  "e"%char :: (if e <? 0 then "-"%char else "+"%char) :: digits (Z.abs e).

(** The text of the digits [s] times [10 ^ e10]: plain up to 21 digits
    before the point and 6 zeros after it, with an exponent beyond. *)
Definition format (s e10 : Z) : list ascii :=
  let ds := digits s in
  let k := Z.of_nat (length ds) in
  let n := e10 + k in
  if (k <=? n) && (n <=? 21) then ds ++ repeat "0"%char (Z.to_nat (n - k))
  else if (0 <? n) && (n <=? 21) then
    take (Z.to_nat n) ds ++ "."%char :: drop (Z.to_nat n) ds
  else if (-6 <? n) && (n <=? 0) then
    "0"%char :: "."%char :: repeat "0"%char (Z.to_nat (- n)) ++ ds
  else
    match ds with
    | d :: (_ :: _) as more => d :: "."%char :: more ++ exponent_text (n - 1)
    | _ => ds ++ exponent_text (n - 1)
    end.

(** The text of a finite number other than zero, from its sign, the
    quotient [p / q] it is and the length [j] of its expansion. *)
Definition finite_text (negative : bool) (p q j : Z) (x : number) : list ascii :=
  let c := shortest_digits negative p q j x in
  (if negative then ["-"%char] else []) ++ format (fst c) (snd c).

Definition Number_toString (x : number) : string :=
  match x with
  | Infinity negative => if negative then "-Infinity" else "Infinity"
  | NegZero => "0"
  | Int n =>
      if n =? 0 then "0"
      else string_of_list_ascii (finite_text (n <? 0) (Z.abs n) 1 0 x)
  | Ratio m k =>
      if m =? 0 then "0"
      else string_of_list_ascii
             (finite_text (m <? 0) (Z.abs m) (2 ^ Zpos k) (Zpos k) x)
  end.

(** *** Arithmetic the program does *)

(** [x - 1] *)
Definition minus_one (x : number) : number :=
  match x with
  | Int n => nearest (n - 1 <? 0) (Z.abs (n - 1)) 1
  | Ratio m k => nearest (m - 2 ^ Zpos k <? 0) (Z.abs (m - 2 ^ Zpos k)) (2 ^ Zpos k)
  | NegZero => Int (-1)
  | Infinity _ => x
  end.

(** [Math.max(0, x)] *)
Definition Math_max_0 (x : number) : number :=
  match x with
  | Int n => Int (Z.max 0 n)
  | Ratio m _ => if 0 <? m then x else Int 0
  | NegZero => Int 0
  | Infinity negative => if negative then Int 0 else x
  end.


(** *** The numbers a text gives back *)

(** A finite double other than -0: rounding it gives it back.  These are
    the numbers [JSON.stringify] writes so that [JSON.parse] reads them
    back; an infinite one is written [null], and -0 is written [0]. *)
Definition exact (x : number) : Prop :=
  match x with
  | Int n => nearest (n <? 0) (Z.abs n) 1 = x
  | Ratio m k => nearest (m <? 0) (Z.abs m) (2 ^ Zpos k) = x
  | NegZero | Infinity _ => False
  end.

End numbers.

(** ** Values *)

(** What [JSON.parse] returns.  A character of a string stands for one
    code unit, of those up to [00ff]; an object lists its own properties in
    property order. *)
Inductive value : Type :=
| JNull
| JBool (b : bool)
| JNum (x : number)
| JStr (s : string)
| JArr (elements : list value)
| JObj (properties : list (string * value)).

(** The exceptions the program can meet. *)
Inductive exn : Type :=
| TypeError
| SyntaxError
| FileSystemError (message : string).

(** Completion of an expression that may throw. *)
Inductive completion (A : Type) : Type :=
| Normal (a : A)
| Throw (e : exn).
Arguments Normal {A} a.
Arguments Throw {A} e.

(** Own property [k] of a property list: [None] is [undefined]. *)
Fixpoint get_own (m : list (string * value)) (k : string) : option value :=
  match m with
  | [] => None
  | (k', v) :: m' => if String.eqb k' k then Some v else get_own m' k
  end.

(** Defining the data property [k]: an existing key keeps its place and
    takes the new value, a new key goes last. *)
Fixpoint set_own (m : list (string * value)) (k : string) (v : value)
  : list (string * value) :=
  match m with
  | [] => [(k, v)]
  | (k', v') :: m' =>
      if String.eqb k' k then (k', v) :: m' else (k', v') :: set_own m' k v
  end.

(** The property read [v.k], for a name [k] that no built-in prototype
    defines (the program reads [results], [id], [untriaged], [issues] and
    [falsePositives]).  Reading from [null] throws; a primitive or an array
    has no such property. *)
Definition get (v : value) (k : string) : completion (option value) :=
  match v with
  | JNull => Throw TypeError
  | JObj m => Normal (get_own m k)
  | _ => Normal None
  end.

(** The own enumerable properties an object spread [{...r}] copies. *)
Definition spread (r : value) : list (string * value) :=
  match r with
  | JObj m => m
  | JArr l => imap (fun i x => (decimal (Z.of_nat i), x)) l
  | JStr s =>
      imap (fun i c => (decimal (Z.of_nat i), JStr (String c EmptyString)))
           (list_ascii_of_string s)
  | JNull | JBool _ | JNum _ => []
  end.

(** What holds of every value the engine builds: an object has each of its
    keys once. *)
Fixpoint well_formed (v : value) : Prop :=
  match v with
  | JArr l => fold_right (fun x acc => well_formed x /\ acc) True l
  | JObj m =>
      NoDup (fst <$> m)
      /\ fold_right (fun kv acc => well_formed (snd kv) /\ acc) True m
  | _ => True
  end.

(** Every number in [v] satisfies [P]. *)
Fixpoint every_number (P : number -> Prop) (v : value) : Prop :=
  match v with
  | JNum x => P x
  | JArr l => fold_right (fun x acc => every_number P x /\ acc) True l
  | JObj m => fold_right (fun kv acc => every_number P (snd kv) /\ acc) True m
  | _ => True
  end.

(** The doubles: the finite ones, -0 and the two infinities. *)
Definition double (x : number) : Prop :=
  match x with
  | NegZero | Infinity _ => True
  | _ => exact x
  end.

(** What is left of a double that is written by [JSON.stringify] and read
    by [JSON.parse]: [null] of an infinite one, [0] of -0, and any other
    one itself. *)
Definition written_number (x : number) : value :=
  match x with
  | Infinity _ => JNull
  | NegZero => JNum (Int 0)
  | _ => JNum x
  end.

Fixpoint written (v : value) : value :=
  match v with
  | JNum x => written_number x
  | JArr l => JArr (List.map written l)
  | JObj m => JObj (List.map (fun kv => (fst kv, written (snd kv))) m)
  | _ => v
  end.

(** ** JSON text *)

Definition dquote : ascii := "034"%char.
Definition backslash : ascii := "092"%char.
Definition LF : ascii := "010"%char.

Module JSON.
Local Open Scope char_scope.

Definition chars (s : string) : list ascii := list_ascii_of_string s.

(** *** [JSON.stringify(value, null, 2)] *)

Definition hex_digit (n : N) : ascii :=
  if (n <? 10)%N then ascii_of_N (48 + n) else ascii_of_N (87 + n).

(** One code unit of a quoted string: the two-character escapes of the
    table, [\u00xx] for the other control characters, the character itself
    otherwise. *)
Definition escape (c : ascii) : list ascii :=
  let n := N_of_ascii c in
  if (n =? 8)%N then [backslash; "b"]
  else if (n =? 9)%N then [backslash; "t"]
  else if (n =? 10)%N then [backslash; "n"]
  else if (n =? 12)%N then [backslash; "f"]
  else if (n =? 13)%N then [backslash; "r"]
  else if (n =? 34)%N then [backslash; dquote]
  else if (n =? 92)%N then [backslash; backslash]
  else if (n <? 32)%N then
    [backslash; "u"; "0"; "0"; hex_digit (n / 16); hex_digit (n mod 16)]
  else [c].

Definition QuoteJSONString (s : string) : list ascii :=
  dquote :: flat_map escape (chars s) ++ [dquote].

(** A line feed and the indentation of [indent] gaps of two spaces. *)
Definition newline (indent : nat) : list ascii :=
  LF :: repeat " " (2 * indent).

Fixpoint join (separator : list ascii) (partial : list (list ascii)) : list ascii :=
  match partial with
  | [] => []
  | [x] => x
  | x :: rest => x ++ separator ++ join separator rest
  end.

Definition wrap (open close : ascii) (indent : nat) (partial : list (list ascii))
  : list ascii :=
  match partial with
  | [] => [open; close]
  | _ => open :: newline (S indent)
           ++ join ("," :: newline (S indent)) partial
           ++ newline indent ++ [close]
  end.

Fixpoint SerializeJSONProperty (indent : nat) (v : value) : list ascii :=
  match v with
  | JNull => chars "null"
  | JBool true => chars "true"
  | JBool false => chars "false"
  | JNum (Infinity _) => chars "null"
  | JNum x => chars (Number_toString x)
  | JStr s => QuoteJSONString s
  | JArr l =>
      wrap "[" "]" indent (List.map (SerializeJSONProperty (S indent)) l)
  | JObj m =>
      wrap "{" "}" indent
           (List.map (fun kv => QuoteJSONString (fst kv) ++ ":" :: " "
                                  :: SerializeJSONProperty (S indent) (snd kv)) m)
  end.

Definition stringify (v : value) : string :=
  string_of_list_ascii (SerializeJSONProperty 0 v).

(** *** [JSON.parse(text)] *)

Definition is_ws (c : ascii) : bool :=
  let n := N_of_ascii c in
  ((n =? 9) || (n =? 10) || (n =? 13) || (n =? 32))%N.

Fixpoint skip_ws (s : list ascii) : list ascii :=
  match s with
  | c :: r => if is_ws c then skip_ws r else s
  | [] => []
  end.

Definition is_digit (c : ascii) : bool :=
  let n := N_of_ascii c in ((48 <=? n) && (n <=? 57))%N.

Fixpoint take_digits (s : list ascii) : list ascii * list ascii :=
  match s with
  | c :: r =>
      if is_digit c then let '(ds, rest) := take_digits r in (c :: ds, rest)
      else ([], s)
  | [] => ([], [])
  end.

(** The digits of an integer part: at least one, and no zero in front of
    another digit. *)
Definition parse_digits (s : list ascii) : option (list ascii * list ascii) :=
  let '(ds, rest) := take_digits s in
  match ds with
  | [] => None
  | c :: _ :: _ => if Ascii.eqb c "0" then None else Some (ds, rest)
  | _ => Some (ds, rest)
  end.

(** A fraction part, if there is one: a point and at least one digit. *)
Definition parse_fraction (s : list ascii) : option (list ascii * list ascii) :=
  match s with
  | c :: r =>
      if Ascii.eqb c "." then
        match take_digits r with
        | ([], _) => None
        | (ds, rest) => Some (ds, rest)
        end
      else Some ([], s)
  | [] => Some ([], [])
  end.

Definition parse_sign (s : list ascii) : bool * list ascii :=
  match s with
  | c :: r => if Ascii.eqb c "-" then (true, r)
              else if Ascii.eqb c "+" then (false, r) else (false, s)
  | [] => (false, [])
  end.

(** An exponent part, if there is one: [e] or [E], a sign or none, and at
    least one digit. *)
Definition parse_exponent (s : list ascii) : option (Z * list ascii) :=
  match s with
  | c :: r =>
      if Ascii.eqb c "e" || Ascii.eqb c "E" then
        let '(negative, r1) := parse_sign r in
        match take_digits r1 with
        | ([], _) => None
        | (ds, rest) => Some (signed negative (digits_value ds), rest)
        end
      else Some (0%Z, s)
  | [] => Some (0%Z, [])
  end.

(** A number token, and the Number value for the decimal it writes. *)
Definition parse_number (s : list ascii) : option (number * list ascii) :=
  let '(negative, s1) :=
    match s with
    | c :: r => if Ascii.eqb c "-" then (true, r) else (false, s)
    | [] => (false, [])
    end in
  match parse_digits s1 with
  | None => None
  | Some (di, r1) =>
      match parse_fraction r1 with
      | None => None
      | Some (df, r2) =>
          match parse_exponent r2 with
          | None => None
          | Some (e, r3) =>
              Some (nearest_decimal negative (digits_value (di ++ df))
                                    (e - Z.of_nat (length df)), r3)
          end
      end
  end.

Definition hex_value (c : ascii) : option N :=
  let n := N_of_ascii c in
  if ((48 <=? n) && (n <=? 57))%N then Some (n - 48)%N
  else if ((97 <=? n) && (n <=? 102))%N then Some (n - 87)%N
  else if ((65 <=? n) && (n <=? 70))%N then Some (n - 55)%N
  else None.

Definition hex4 (h1 h2 h3 h4 : ascii) : option N :=
  match hex_value h1, hex_value h2, hex_value h3, hex_value h4 with
  | Some a, Some b, Some c, Some d => Some (((a * 16 + b) * 16 + c) * 16 + d)%N
  | _, _, _, _ => None
  end.

(** The character a two-character escape stands for. *)
Definition unescape (e : ascii) : option ascii :=
  if Ascii.eqb e dquote then Some dquote
  else if Ascii.eqb e backslash then Some backslash
  else if Ascii.eqb e "/" then Some "/"
  else if Ascii.eqb e "b" then Some "008"
  else if Ascii.eqb e "f" then Some "012"
  else if Ascii.eqb e "n" then Some "010"
  else if Ascii.eqb e "r" then Some "013"
  else if Ascii.eqb e "t" then Some "009"
  else None.

Definition prepend (c : ascii) (p : option (string * list ascii))
  : option (string * list ascii) :=
  option_map (fun p => (String c (fst p), snd p)) p.

(** The characters of a string after its opening quote, up to and including
    the closing quote.  A [\u] escape above [00ff] names a code unit this
    embedding's characters do not reach; such a text is refused here. *)
Fixpoint parse_string_body (s : list ascii) : option (string * list ascii) :=
  match s with
  | [] => None
  | c :: r =>
      if Ascii.eqb c dquote then Some (EmptyString, r)
      else if Ascii.eqb c backslash then
        match r with
        | [] => None
        | e :: r1 =>
            if Ascii.eqb e "u" then
              match r1 with
              | h1 :: h2 :: h3 :: h4 :: r2 =>
                  match hex4 h1 h2 h3 h4 with
                  | Some code =>
                      if (code <? 256)%N
                      then prepend (ascii_of_N code) (parse_string_body r2)
                      else None
                  | None => None
                  end
              | _ => None
              end
            else
              match unescape e with
              | Some ch => prepend ch (parse_string_body r1)
              | None => None
              end
        end
      else if (N_of_ascii c <? 32)%N then None
      else prepend c (parse_string_body r)
  end.

Fixpoint strip_prefix (p s : list ascii) : option (list ascii) :=
  match p, s with
  | [], _ => Some s
  | a :: p', b :: s' => if Ascii.eqb a b then strip_prefix p' s' else None
  | _ :: _, [] => None
  end.

(** The object a member list builds, member by member: a key met again
    keeps its place and takes the later value.  (Keys that are array
    indices, which the engine lists first, stay where the text has them.) *)
Definition build_object (members : list (string * value)) : value :=
  JObj (fold_left (fun m kv => set_own m (fst kv) (snd kv)) members []).

(** The parser proper.  [fuel] bounds the nesting and the number of
    elements met; [JSON.parse] gives it more than any text needs. *)
Fixpoint parse_value (fuel : nat) (s : list ascii) : option (value * list ascii) :=
  match fuel with
  | O => None
  | S fuel' =>
      match skip_ws s with
      | [] => None
      | c :: r =>
          if Ascii.eqb c "n" then
            option_map (fun r' => (JNull, r')) (strip_prefix (chars "ull") r)
          else if Ascii.eqb c "t" then
            option_map (fun r' => (JBool true, r')) (strip_prefix (chars "rue") r)
          else if Ascii.eqb c "f" then
            option_map (fun r' => (JBool false, r')) (strip_prefix (chars "alse") r)
          else if Ascii.eqb c dquote then
            option_map (fun p => (JStr (fst p), snd p)) (parse_string_body r)
          else if Ascii.eqb c "[" then
            match skip_ws r with
            | c' :: r' =>
                if Ascii.eqb c' "]" then Some (JArr [], r')
                else option_map (fun p => (JArr (fst p), snd p))
                                (parse_elements fuel' (c' :: r'))
            | [] => None
            end
          else if Ascii.eqb c "{" then
            match skip_ws r with
            | c' :: r' =>
                if Ascii.eqb c' "}" then Some (JObj [], r')
                else option_map (fun p => (build_object (fst p), snd p))
                                (parse_members fuel' (c' :: r'))
            | [] => None
            end
          else option_map (fun p => (JNum (fst p), snd p)) (parse_number (c :: r))
      end
  end
with parse_elements (fuel : nat) (s : list ascii)
  : option (list value * list ascii) :=
  match fuel with
  | O => None
  | S fuel' =>
      match parse_value fuel' s with
      | None => None
      | Some (v, r) =>
          match skip_ws r with
          | c :: r' =>
              if Ascii.eqb c "," then
                option_map (fun p => (v :: fst p, snd p)) (parse_elements fuel' r')
              else if Ascii.eqb c "]" then Some ([v], r')
              else None
          | [] => None
          end
      end
  end
with parse_members (fuel : nat) (s : list ascii)
  : option (list (string * value) * list ascii) :=
  match fuel with
  | O => None
  | S fuel' =>
      match skip_ws s with
      | q :: r0 =>
          if Ascii.eqb q dquote then
            match parse_string_body r0 with
            | None => None
            | Some (k, r1) =>
                match skip_ws r1 with
                | colon :: r2 =>
                    if Ascii.eqb colon ":" then
                      match parse_value fuel' r2 with
                      | None => None
                      | Some (v, r) =>
                          match skip_ws r with
                          | c :: r' =>
                              if Ascii.eqb c "," then
                                option_map (fun p => ((k, v) :: fst p, snd p))
                                           (parse_members fuel' r')
                              else if Ascii.eqb c "}" then Some ([(k, v)], r')
                              else None
                          | [] => None
                          end
                      end
                    else None
                | [] => None
                end
            end
          else None
      | [] => None
      end
  end.

(** [JSON.parse(text)]: [None] is the [SyntaxError]. *)
Definition parse (text : string) : option value :=
  match parse_value (S (2 * String.length text)) (chars text) with
  | Some (v, r) => match skip_ws r with [] => Some v | _ => None end
  | None => None
  end.

(** The fuel [parse_value] needs to read the text of [v] back. *)
Fixpoint size (v : value) : nat :=
  match v with
  | JArr l => S (fold_right (fun x acc => S (size x) + acc) 0 l)
  | JObj m => S (fold_right (fun kv acc => S (size (snd kv)) + acc) 0 m)
  | _ => 1
  end.

(** *** What the round trip is stated with *)

(** The text after a digit sequence does not go on with a digit. *)
Definition no_digit (s : list ascii) : Prop :=
  match s with c :: _ => is_digit c = false | [] => True end.

(** The text after a number does not go on as a number would. *)
Definition number_end (s : list ascii) : Prop :=
  match s with
  | c :: _ =>
      (is_digit c || Ascii.eqb c "." || Ascii.eqb c "e" || Ascii.eqb c "E") = false
  | [] => True
  end.

(** The text of a value starts with a character that is neither
    whitespace nor a closing bracket. *)
Definition value_head (s : list ascii) : Prop :=
  match s with
  | c :: _ => is_ws c = false /\ Ascii.eqb c "]" = false /\ Ascii.eqb c "}" = false
  | [] => False
  end.

(** What the text of a number is read as: an infinite number was written
    [null]; a finite one is the Number value for its digits. *)
Definition reread_number (x : number) : value :=
  match x with
  | Infinity _ => JNull
  | _ =>
      match parse_number (chars (Number_toString x)) with
      | Some (y, _) => JNum y
      | None => JNull
      end
  end.

(** What the text of a value is read as. *)
Fixpoint reread (v : value) : value :=
  match v with
  | JNum x => reread_number x
  | JArr l => JArr (List.map reread l)
  | JObj m => JObj (List.map (fun kv => (fst kv, reread (snd kv))) m)
  | _ => v
  end.

(** [parse_value] reads the text of [v], whatever follows it. *)
Definition reads_back (v : value) : Prop :=
  forall fuel indent rest, size v <= fuel -> number_end rest ->
    parse_value fuel (SerializeJSONProperty indent v ++ rest) = Some (reread v, rest).

(** The text of one member of an object. *)
Definition member_text (indent : nat) (kv : string * value) : list ascii :=
  QuoteJSONString (fst kv) ++ ":" :: " " :: SerializeJSONProperty (S indent) (snd kv).

End JSON.

(** ** The panel *)

Inductive Bucket : Type := untriaged | issues | falsePositives.

Definition name (b : Bucket) : string :=
  match b with
  | untriaged => "untriaged"
  | issues => "issues"
  | falsePositives => "falsePositives"
  end.

#[global] Instance Bucket_eq_dec : EqDecision Bucket.
Proof. solve_decision. Defined.

(** What a handler does to the outside.  [showErrorMessage text e] shows
    [text] followed by [e.message] when the template has one. *)
Inductive effect : Type :=
| postMessage (command : string) (data : value)
| showInformationMessage (text : string)
| showErrorMessage (text : string) (e : option exn)
| showTextDocument (path : string) (line col : number)
| reveal
| createWebviewPanel.

(** How a synchronous handler ends: it returns, or it throws and leaves
    [_results] as it was at that point. *)
Inductive outcome : Type :=
| Returned (_results : value) (effects : list effect)
| Threw (_results : value) (e : exn).

(** The properties of [{ ...r, id: `item-${index}` }]. *)
Definition with_id_properties (index : nat) (r : value) : list (string * value) :=
  set_own (spread r) "id" (JStr ("item-" +:+ decimal (Z.of_nat index))).

(** [results.map((r, index) => ({ ...r, id: `item-${index}` }))] *)
Definition with_id (index : nat) (r : value) : value :=
  JObj (with_id_properties index r).

(** The constructor's initial [_results]. *)
Definition constructor (results : list value) : value :=
  JObj [ ("untriaged", JArr (imap with_id results));
         ("issues", JArr []);
         ("falsePositives", JArr []) ].

(** [arr.findIndex(r => r.id === id)] on whatever [this._results[from]] is:
    [Normal None] is the index -1. *)
Fixpoint findIndex_id (l : list value) (id : string) : completion (option nat) :=
  match l with
  | [] => Normal None
  | r :: l' =>
      match get r "id" with
      | Throw e => Throw e
      | Normal (Some (JStr s)) =>
          if String.eqb s id then Normal (Some 0)
          else match findIndex_id l' id with
               | Normal (Some i) => Normal (Some (S i))
               | c => c
               end
      | Normal _ =>
          match findIndex_id l' id with
          | Normal (Some i) => Normal (Some (S i))
          | c => c
          end
      end
  end.

(** The array a method is called on; anything else has no such method. *)
Definition as_array (o : option value) : completion (list value) :=
  match o with
  | Some (JArr l) => Normal l
  | _ => Throw TypeError
  end.

(** The array held under [k] after it was changed in place. *)
Definition mutated (this : value) (k : string) (l : list value) : value :=
  match this with
  | JObj m => JObj (set_own m k (JArr l))
  | _ => this
  end.

Definition bind {A B} (c : completion A) (f : A -> completion B) : completion B :=
  match c with
  | Normal a => f a
  | Throw e => Throw e
  end.

(** [_handleTriage({ id, from, to })] *)
Definition _handleTriage (this_results : value) (id : string) (from to : Bucket)
  : outcome :=
  (* const index = this._results[from].findIndex(r => r.id === id); *)
  match bind (get this_results (name from)) as_array with
  | Throw e => Threw this_results e
  | Normal l =>
      match findIndex_id l id with
      | Throw e => Threw this_results e
      | Normal None => Returned this_results []       (* if (index === -1) return; *)
      | Normal (Some index) =>
          (* const item = this._results[from].splice(index, 1)[0]; *)
          match l !! index with
          | None => Returned this_results []          (* not met: [index] is an index of [l] *)
          | Some item =>
              let this1 := mutated this_results (name from) (delete index l) in
              (* this._results[to].push(item); *)
              match bind (get this1 (name to)) as_array with
              | Throw e => Threw this1 e
              | Normal l2 =>
                  let this2 := mutated this1 (name to) (l2 ++ [item]) in
                  Returned this2 [postMessage "updateView" this2]
              end
          end
      end
  end.

(** [_sendInitialData()] *)
Definition _sendInitialData (this_results : value) : list effect :=
  [postMessage "updateView" this_results].

(** ** Files *)

(** The workspace file system: the text stored under each uri, kept as it
    was written ([Buffer.from(content)] and [toString('utf8')] undo each
    other).  [fault] is the error the next call meets, if any (permissions,
    a full disk). *)
Definition EntryNotFound : exn := FileSystemError "EntryNotFound".

Definition readFile (files : gmap string string) (fault : option exn) (uri : string)
  : completion string :=
  match fault with
  | Some e => Throw e
  | None =>
      match files !! uri with
      | Some content => Normal content
      | None => Throw EntryNotFound
      end
  end.

Definition writeFile (files : gmap string string) (fault : option exn)
    (uri content : string) : completion (gmap string string) :=
  match fault with
  | Some e => Throw e
  | None => Normal (<[uri := content]> files)
  end.

(** What the outside answers while one message is handled: the dialogs
    (a uri, nothing when dismissed), the fault of the file call, and how
    opening and showing a document end. *)
Record Environment : Type := {
  showSaveDialog : completion (option string);
  showOpenDialog : completion (option (list string));
  fault : option exn;
  openTextDocument : completion unit;
  showDocument : completion unit
}.

(** [_goToLocation({ path, line, col })] *)
Definition _goToLocation (env : Environment) (path : string) (line col : number)
  : list effect :=
  match bind (openTextDocument env) (fun _ => showDocument env) with
  | Normal _ =>
      [showTextDocument path (Math_max_0 (minus_one line)) (Math_max_0 (minus_one col))]
  | Throw _ =>
      [showErrorMessage ("Could not open file: " +:+ path +:+ ". (Is the path correct?)")
                        None]
  end.

(** [_saveProgress(data)] *)
Definition _saveProgress (env : Environment) (files : gmap string string) (data : value)
  : gmap string string * list effect :=
  match showSaveDialog env with
  | Throw e => (files, [showErrorMessage "Failed to save progress: " (Some e)])
  | Normal None => (files, [])
  | Normal (Some fileUri) =>
      let content := JSON.stringify data in
      match writeFile files (fault env) fileUri content with
      | Throw e => (files, [showErrorMessage "Failed to save progress: " (Some e)])
      | Normal files' =>
          (files', [showInformationMessage "Semgrep triage progress saved successfully!"])
      end
  end.

(** Truthiness; [None] is [undefined]. *)
Definition truthy (o : option value) : bool :=
  match o with
  | None | Some JNull => false
  | Some (JBool b) => b
  | Some (JNum (Int n)) => negb (n =? 0)%Z
  | Some (JNum NegZero) => false
  | Some (JNum _) => true
  | Some (JStr s) => negb (String.eqb s "")
  | Some (JArr _) | Some (JObj _) => true
  end.

(** [a && b] and [a || b] on conditions: the right operand is evaluated
    only when the left one does not decide. *)
Definition and_then (a : completion bool) (b : completion bool) : completion bool :=
  bind a (fun x => if x then b else Normal false).

Definition or_else (a : completion bool) (b : completion bool) : completion bool :=
  bind a (fun x => if x then Normal true else b).

Definition truthy_property (v : value) (k : string) : completion bool :=
  bind (get v k) (fun o => Normal (truthy o)).

(** [_loadProgress()] *)
Definition _loadProgress (env : Environment) (files : gmap string string)
    (this_results : value) : value * list effect :=
  match showOpenDialog env with
  | Throw e => (this_results, [showErrorMessage "Failed to load progress: " (Some e)])
  | Normal (Some (uri0 :: _)) =>
      match readFile files (fault env) uri0 with
      | Throw e => (this_results, [showErrorMessage "Failed to load progress: " (Some e)])
      | Normal content =>
          match JSON.parse content with
          | None =>
              (this_results,
               [showErrorMessage "Failed to load progress: " (Some SyntaxError)])
          | Some loadedData =>
              match or_else (Normal true)
                      (and_then (truthy_property loadedData "untriaged")
                         (and_then (truthy_property loadedData "issues")
                                   (truthy_property loadedData "falsePositives"))) with
              | Throw e =>
                  (this_results, [showErrorMessage "Failed to load progress: " (Some e)])
              | Normal true =>
                  (loadedData,
                   [postMessage "updateView" loadedData;
                    showInformationMessage "Semgrep triage progress loaded successfully!"])
              | Normal false =>
                  (this_results, [showErrorMessage "Invalid progress file structure." None])
              end
          end
      end
  | Normal _ => (this_results, [])
  end.

(** ** Messages *)

Inductive message : Type :=
| initialized
| triage (id : string) (from to : Bucket)
| goTo (path : string) (line col : number)
| save (data : value)
| load.

(** The panel with the files it reaches. *)
Record Session : Type := {
  this_results : value;
  files : gmap string string
}.

(** The listener the constructor registers with [onDidReceiveMessage]: the
    session after the message, what was done, and the exception that
    escaped the handler, if one did. *)
Definition onDidReceiveMessage (env : Environment) (s : Session) (m : message)
  : Session * list effect * option exn :=
  match m with
  | initialized => (s, _sendInitialData (this_results s), None)
  | triage id from to =>
      match _handleTriage (this_results s) id from to with
      | Returned r effects => ({| this_results := r; files := files s |}, effects, None)
      | Threw r e => ({| this_results := r; files := files s |}, [], Some e)
      end
  | goTo path line col => (s, _goToLocation env path line col, None)
  | save data =>
      let '(files', effects) := _saveProgress env (files s) data in
      ({| this_results := this_results s; files := files' |}, effects, None)
  | load =>
      let '(r, effects) := _loadProgress env (files s) (this_results s) in
      ({| this_results := r; files := files s |}, effects, None)
  end.

(** ** The webview *)

(** The script's [results] variable before the first [updateView]. *)
Definition initial_results : value :=
  JObj [ ("untriaged", JArr []); ("issues", JArr []); ("falsePositives", JArr []) ].

(** The script's message listener: [updateView] replaces [results]. *)
Definition webview_onmessage (results : value) (e : effect) : value :=
  match e with
  | postMessage command data =>
      if String.eqb command "updateView" then data else results
  | _ => results
  end.

(** What the user does in the webview; loading the script posts
    [initialized]. *)
Inductive action : Type :=
| script_loaded
| click_triage (id : string) (from to : Bucket)
| click_goTo (path : string) (line col : number)
| click_save
| click_load.

Definition message_of (results : value) (a : action) : message :=
  match a with
  | script_loaded => initialized
  | click_triage id from to => triage id from to
  | click_goTo path line col => goTo path line col
  | click_save => save results
  | click_load => load
  end.

Record System : Type := {
  session : Session;
  webview_results : value
}.

(** One action: its message is handled to completion and the messages
    posted back reach the webview in order. *)
Definition step (env : Environment) (sys : System) (a : action) : System * list effect :=
  let '(s, effects, _) :=
    onDidReceiveMessage env (session sys) (message_of (webview_results sys) a) in
  ({| session := s;
      webview_results := fold_left webview_onmessage effects (webview_results sys) |},
   effects).

Fixpoint run (sys : System) (steps : list (Environment * action)) : System :=
  match steps with
  | [] => sys
  | (env, a) :: steps' => run (fst (step env sys a)) steps'
  end.

(** A panel just constructed on [results], its script not yet loaded. *)
Definition opened (results : list value) (files : gmap string string) : System :=
  {| session := {| this_results := constructor results; files := files |};
     webview_results := initial_results |}.

(** ** The command [semgrep-triage.openResults] *)

(** The static [SemgrepResultsPanel.currentPanel], by the [_results] the
    panel holds.  (A panel replaced by [createOrShow] leaves its listener on
    the webview it shared; what follows is the current panel.) *)
Record Extension : Type := { currentPanel : option value }.

(** [SemgrepResultsPanel.createOrShow(extensionUri, results, filePath)] *)
Definition createOrShow (ext : Extension) (results : list value)
  : Extension * list effect :=
  match currentPanel ext with
  | Some _ => ({| currentPanel := Some (constructor results) |}, [reveal])
  | None => ({| currentPanel := Some (constructor results) |}, [createWebviewPanel])
  end.

Definition invalid_results_format : string :=
  "Invalid Semgrep results format: " +:+ String dquote "results"
    +:+ String dquote " array not found.".

(** The callback of the command, from the dialog's answer on.  The dialog
    is awaited outside the [try]. *)
Definition openResults (showOpenDialog : option (list string)) (fault : option exn)
    (files : gmap string string) (ext : Extension) : Extension * list effect :=
  match showOpenDialog with
  | Some (uri0 :: _) =>
      match readFile files fault uri0 with
      | Throw e => (ext, [showErrorMessage "Failed to read or parse file: " (Some e)])
      | Normal content =>
          match JSON.parse content with
          | None =>
              (ext, [showErrorMessage "Failed to read or parse file: " (Some SyntaxError)])
          | Some resultsJson =>
              if truthy (Some resultsJson) then
                match get resultsJson "results" with
                | Throw e =>
                    (ext, [showErrorMessage "Failed to read or parse file: " (Some e)])
                | Normal (Some (JArr results)) => createOrShow ext results
                | Normal _ => (ext, [showErrorMessage invalid_results_format None])
                end
              else (ext, [showErrorMessage invalid_results_format None])
          end
      end
  | _ => (ext, [])
  end.

(** The callback of the command [semgrep-triage.openEmpty]. *)
Definition openEmpty (ext : Extension) : Extension * list effect :=
  createOrShow ext [].

(** The [results] array of a document, when it has one. *)
Definition results_array (document : value) : option (list value) :=
  match document with
  | JObj m => match get_own m "results" with
              | Some (JArr results) => Some results
              | _ => None
              end
  | _ => None
  end.

(** ** Triage states *)

(** A finding is an object; the interface [SemgrepResult] names the fields
    the webview shows, and [id] is the one the panel reads. *)
Abbreviation SemgrepResult := (list (string * value)) (only parsing).

Record TriageState : Type := {
  st_untriaged : list SemgrepResult;
  st_issues : list SemgrepResult;
  st_falsePositives : list SemgrepResult
}.

Definition bucket (b : Bucket) (s : TriageState) : list SemgrepResult :=
  match b with
  | untriaged => st_untriaged s
  | issues => st_issues s
  | falsePositives => st_falsePositives s
  end.

Definition set_bucket (b : Bucket) (l : list SemgrepResult) (s : TriageState)
  : TriageState :=
  match b with
  | untriaged => {| st_untriaged := l; st_issues := st_issues s;
                    st_falsePositives := st_falsePositives s |}
  | issues => {| st_untriaged := st_untriaged s; st_issues := l;
                 st_falsePositives := st_falsePositives s |}
  | falsePositives => {| st_untriaged := st_untriaged s; st_issues := st_issues s;
                         st_falsePositives := l |}
  end.

(** The object [_results] is when it holds the state [s]. *)
Definition encode (s : TriageState) : value :=
  JObj [ ("untriaged", JArr (JObj <$> st_untriaged s));
         ("issues", JArr (JObj <$> st_issues s));
         ("falsePositives", JArr (JObj <$> st_falsePositives s)) ].

Definition all_findings (s : TriageState) : list SemgrepResult :=
  st_untriaged s ++ st_issues s ++ st_falsePositives s.

(** [f.id] *)
Definition id_of (f : SemgrepResult) : option value := get_own f "id".

Definition has_id (id : string) (f : SemgrepResult) : Prop :=
  id_of f = Some (JStr id).

(** The partition invariant: over the three buckets together no id occurs
    twice. *)
Definition partition_invariant (s : TriageState) : Prop :=
  NoDup (id_of <$> all_findings s).

(** ** The handler on triage states *)

Definition has_idb (id : string) (f : SemgrepResult) : bool :=
  match get_own f "id" with
  | Some (JStr s) => String.eqb s id
  | _ => false
  end.

(** What [_handleTriage] comes to on a triage state. *)
Definition move (s : TriageState) (id : string) (from to : Bucket) : TriageState :=
  match list_find (fun f => has_idb id f) (bucket from s) with
  | None => s
  | Some (index, item) =>
      let s1 := set_bucket from (delete index (bucket from s)) s in
      set_bucket to (bucket to s1 ++ [item]) s1
  end.

(** The panel handles the webview's triage messages one after the other; a
    handler that throws leaves [_results] as it was at the throw. *)
Fixpoint triage_all (this_results : value) (ops : list (string * Bucket * Bucket))
  : value :=
  match ops with
  | [] => this_results
  | (id, from, to) :: ops' =>
      match _handleTriage this_results id from to with
      | Returned r _ | Threw r _ => triage_all r ops'
      end
  end.

(** No id occurs in two different buckets. *)
Definition buckets_disjoint (s : TriageState) : Prop :=
  forall b1 b2 f1 f2, b1 <> b2 -> f1 ∈ bucket b1 s -> f2 ∈ bucket b2 s ->
    id_of f1 <> id_of f2.

(** The same run on triage states. *)
Fixpoint move_all (s : TriageState) (ops : list (string * Bucket * Bucket))
  : TriageState :=
  match ops with
  | [] => s
  | (id, from, to) :: ops' => move_all (move s id from to) ops'
  end.

(** The steps of a run of triage clicks, once the script has loaded. *)
Definition triage_steps (env : Environment) (ops : list (string * Bucket * Bucket))
  : list (Environment * action) :=
  (env, script_loaded)
    :: ((fun op => (env, click_triage (fst (fst op)) (snd (fst op)) (snd op))) <$> ops).

(** The findings ingested from [results], as a triage state. *)
Definition ingested (results : list value) : TriageState :=
  {| st_untriaged := imap with_id_properties results;
     st_issues := [];
     st_falsePositives := [] |}.

(** ** Sample inputs *)

Definition sample_results : list value :=
  [ JObj [("check_id", JStr "rule-a"); ("path", JStr "src/a.ts")];
    JObj [("check_id", JStr "rule-b"); ("path", JStr "src/b.ts")] ].

(** Every dialog answers with [uri]; the file call meets [fault]; opening a
    document fails when a fault is given. *)
Definition answering (uri : string) (fault : option exn) : Environment :=
  {| showSaveDialog := Normal (Some uri);
     showOpenDialog := Normal (Some [uri]);
     fault := fault;
     openTextDocument := match fault with Some e => Throw e | None => Normal tt end;
     showDocument := Normal tt |}.

Definition progress_uri : string := "/work/semgrep_triage_progress.json".

(** Results with numbers: a line, a column and a fraction. *)
Definition measured_results : list value :=
  [ JObj [("check_id", JStr "rule-a");
          ("start", JObj [("line", JNum (Int 3)); ("col", JNum (Int 1))]);
          ("score", JNum (Ratio 1 1))] ].

(** A results file with a number no double reaches, and the array
    [JSON.parse] makes of it. *)
Definition results_uri : string := "/work/results.json".

Definition overflowing_text : string :=
  "{" +:+ String dquote "results" +:+ String dquote ": [{" +:+ String dquote "n"
    +:+ String dquote ": 1e400}]}".

Definition overflowing_results : list value :=
  [ JObj [("n", JNum (Infinity false))] ].

(** A results file whose entries are no findings. *)
Definition unchecked_text : string :=
  "{" +:+ String dquote "results" +:+ String dquote ": [null, 7, "
    +:+ String dquote "x" +:+ String dquote "]}".

Definition unchecked_results : list value := [JNull; JNum (Int 7); JStr "x"].

(** * More of the panel *)

(** ** Runs in which no exception escapes a handler *)

(** The exception that escapes the listener at one action, if one does. *)
Definition escaped (env : Environment) (sys : System) (a : action) : option exn :=
  snd (onDidReceiveMessage env (session sys) (message_of (webview_results sys) a)).

Fixpoint quiet (sys : System) (steps : list (Environment * action)) : Prop :=
  match steps with
  | [] => True
  | (env, a) :: steps' => escaped env sys a = None /\ quiet (fst (step env sys a)) steps'
  end.

(** Every value posted to the webview is well formed. *)
Definition posts_well_formed (effects : list effect) : Prop :=
  Forall (fun e => match e with
                   | postMessage _ data => well_formed data
                   | _ => True
                   end) effects.

(** ** The webview's script *)

(** A property read on what may be [undefined]. *)
Definition read (o : option value) (k : string) : completion (option value) :=
  match o with
  | None => Throw TypeError
  | Some v => get v k
  end.

(** The buttons of a row, by what their click sends. *)
Inductive button : Type :=
| go_to
| to_bucket (to : Bucket).

(** [Array.prototype.join] with its default separator, over the conversion
    of the elements: a [null] element gives the empty string. *)
Definition Array_join (convert : value -> completion string)
  : list value -> completion string :=
  fix join (l : list value) : completion string :=
    match l with
    | [] => Normal ""
    | x :: l' =>
        bind (match x with JNull => Normal "" | _ => convert x end) (fun s =>
        match l' with
        | [] => Normal s
        | _ => bind (join l') (fun t => Normal (s +:+ "," +:+ t))
        end)
    end.

(** [ToString(v)], as a template literal applies it.  An object takes
    [Object.prototype.toString], unless it has an own property [toString]:
    that one is no function, and neither it nor [valueOf] yields a
    primitive, so the conversion throws.  An array is joined. *)
Fixpoint ToString (v : value) : completion string :=
  match v with
  | JNull => Normal "null"
  | JBool b => Normal (if b then "true" else "false")
  | JNum x => Normal (Number_toString x)
  | JStr s => Normal s
  | JArr l => Array_join ToString l
  | JObj m =>
      match get_own m "toString" with
      | Some _ => Throw TypeError
      | None => Normal "[object Object]"
      end
  end.

Definition ToString_of (o : option value) : completion string :=
  match o with
  | None => Normal "undefined"
  | Some v => ToString v
  end.

(** One substitution of a template literal: the expression is evaluated
    and its value converted. *)
Definition interpolate (e : completion (option value)) : completion (option value) :=
  bind e (fun o => bind (ToString_of o) (fun _ => Normal o)).

(** The conversion a DOM attribute that may be [null] applies. *)
Definition DOMString (o : option value) : completion string :=
  match o with
  | None | Some JNull => Normal ""
  | Some v => ToString v
  end.

(** [item.extra.k] *)
Definition extra_field (item : value) (k : string) : completion (option value) :=
  bind (get item "extra") (fun extra => read extra k).

(** A table row: the five values its cells interpolate ([check_id],
    [extra.message], [extra.severity], [path], [extra.lines]), the item and
    category its buttons close over, and the buttons.  (The cells are set
    through [innerHTML]; how the markup is parsed is not followed.) *)
Record row : Type := {
  cells : list (option value);
  row_item : value;
  row_category : Bucket;
  buttons : list button
}.

(** [createRow(item, currentCategory)].  Each of the first four cells
    interpolates its value twice. *)
Definition createRow (item : value) (currentCategory : Bucket) : completion row :=
  bind (interpolate (get item "check_id")) (fun _ =>
  bind (interpolate (get item "check_id")) (fun check_id =>
  bind (interpolate (extra_field item "message")) (fun _ =>
  bind (interpolate (extra_field item "message")) (fun message =>
  bind (interpolate (extra_field item "severity")) (fun _ =>
  bind (interpolate (extra_field item "severity")) (fun severity =>
  bind (interpolate (get item "path")) (fun _ =>
  bind (interpolate (get item "path")) (fun path =>
  bind (interpolate (extra_field item "lines")) (fun lines =>
  Normal {| cells := [check_id; message; severity; path; lines];
            row_item := item;
            row_category := currentCategory;
            buttons :=
              go_to
                :: (if decide (currentCategory <> issues) then [to_bucket issues] else [])
                ++ (if decide (currentCategory <> falsePositives)
                    then [to_bucket falsePositives] else [])
                ++ (if decide (currentCategory <> untriaged)
                    then [to_bucket untriaged] else []) |}))))))))).

(** What the click of a button posts: [triageItem(item.id, currentCategory,
    to)] or the [goTo] message.  [None] is a message whose fields are not
    of the kinds the panel's handlers declare (an id that is no string, a
    line that is no number). *)
Definition click (r : row) (b : button) : completion (option message) :=
  match b with
  | to_bucket to =>
      bind (get (row_item r) "id") (fun id =>
        Normal (match id with
                | Some (JStr id) => Some (triage id (row_category r) to)
                | _ => None
                end))
  | go_to =>
      bind (get (row_item r) "path") (fun path =>
      bind (bind (get (row_item r) "start") (fun start => read start "line")) (fun line =>
      bind (bind (get (row_item r) "start") (fun start => read start "col")) (fun col =>
        Normal (match path, line, col with
                | Some (JStr path), Some (JNum line), Some (JNum col) =>
                    Some (goTo path line col)
                | _, _, _ => None
                end))))
  end.

(** One table of the page: the value last assigned to the text of its
    count ([None] is [undefined]), whether its header row is there, and the
    rows of its body. *)
Record table : Type := {
  count : option value;
  header : bool;
  body : list row
}.

(** A table of the page as the script loads it: the count reads 0. *)
Definition empty_table : table :=
  {| count := Some (JNum (Int 0)); header := false; body := [] |}.

Record page : Type := {
  untriaged_table : table;
  issues_table : table;
  falsePositives_table : table
}.

Definition table_of (category : Bucket) (p : page) : table :=
  match category with
  | untriaged => untriaged_table p
  | issues => issues_table p
  | falsePositives => falsePositives_table p
  end.

Definition set_table (category : Bucket) (t : table) (p : page) : page :=
  match category with
  | untriaged => {| untriaged_table := t; issues_table := issues_table p;
                    falsePositives_table := falsePositives_table p |}
  | issues => {| untriaged_table := untriaged_table p; issues_table := t;
                 falsePositives_table := falsePositives_table p |}
  | falsePositives => {| untriaged_table := untriaged_table p;
                         issues_table := issues_table p;
                         falsePositives_table := t |}
  end.

(** [x.length]: the length of an array or a string, the own property of
    an object, [undefined] on a number or a boolean. *)
Definition length_of (o : option value) : completion (option value) :=
  match o with
  | None | Some JNull => Throw TypeError
  | Some (JArr l) => Normal (Some (JNum (Int (Z.of_nat (length l)))))
  | Some (JStr s) => Normal (Some (JNum (Int (Z.of_nat (String.length s)))))
  | Some (JObj m) => Normal (get_own m "length")
  | Some (JBool _) | Some (JNum _) => Normal None
  end.

(** [items.forEach(item => tbody.appendChild(createRow(item, category)))] *)
Fixpoint create_rows (items : list value) (category : Bucket) : completion (list row) :=
  match items with
  | [] => Normal []
  | item :: items' =>
      bind (createRow item category) (fun r =>
      bind (create_rows items' category) (fun rs => Normal (r :: rs)))
  end.

(** [renderTable(category)]: the page it leaves and the exception that
    escapes, if one does.  The table is emptied first, then the count is
    set (a text, so the value is converted), then the header row is made;
    the body is put in only once all its rows are built. *)
Definition renderTable (results : value) (category : Bucket) (p : page)
  : page * option exn :=
  let emptied := {| count := count (table_of category p); header := false; body := [] |} in
  match bind (bind (get results (name category)) length_of)
             (fun n => bind (DOMString n) (fun _ => Normal n)) with
  | Throw e => (set_table category emptied p, Some e)
  | Normal n =>
      let headed := {| count := n; header := true; body := [] |} in
      match bind (bind (get results (name category)) as_array)
                 (fun items => create_rows items category) with
      | Throw e => (set_table category headed p, Some e)
      | Normal rows =>
          (set_table category {| count := n; header := true; body := rows |} p, None)
      end
  end.

(** [renderAllTables()] *)
Definition renderAllTables (results : value) (p : page) : page * option exn :=
  match renderTable results untriaged p with
  | (p1, Some e) => (p1, Some e)
  | (p1, None) =>
      match renderTable results issues p1 with
      | (p2, Some e) => (p2, Some e)
      | (p2, None) => renderTable results falsePositives p2
      end
  end.

(** The five values the row of a finding shows. *)
Definition shown_values (f : SemgrepResult) : list (option value) :=
  let extra := get_own f "extra" in
  let field k := match extra with
                 | Some (JObj e) => get_own e k
                 | _ => None
                 end in
  [get_own f "check_id"; field "message"; field "severity"; get_own f "path";
   field "lines"].

(** The page of a triage state all of whose rows can be built. *)
Definition row_of (category : Bucket) (f : SemgrepResult) : row :=
  {| cells := shown_values f;
     row_item := JObj f;
     row_category := category;
     buttons := go_to :: ((fun to => to_bucket to)
                            <$> filter (fun to => category <> to)
                                       [issues; falsePositives; untriaged]) |}.

Definition table_for (category : Bucket) (s : TriageState) : table :=
  {| count := Some (JNum (Int (Z.of_nat (length (bucket category s)))));
     header := true;
     body := row_of category <$> bucket category s |}.

Definition page_of (s : TriageState) : page :=
  {| untriaged_table := table_for untriaged s;
     issues_table := table_for issues s;
     falsePositives_table := table_for falsePositives s |}.

(** The finding has an [extra] that is neither [undefined] nor [null]. *)
Definition has_extra (f : SemgrepResult) : Prop :=
  exists e, get_own f "extra" = Some e /\ e <> JNull.

Definition lacks_extra (f : SemgrepResult) : Prop :=
  get_own f "extra" = None \/ get_own f "extra" = Some JNull.

(** A row can be built for the finding: it has an [extra], and each value
    shown has a string conversion. *)
Definition renderable (f : SemgrepResult) : Prop :=
  has_extra f /\ Forall (fun o => exists s, ToString_of o = Normal s) (shown_values f).

Definition unrenderable (f : SemgrepResult) : Prop :=
  lacks_extra f \/ Exists (fun o => ToString_of o = Throw TypeError) (shown_values f).

(** The webview: its [results] variable and the page it shows. *)
Record Webview : Type := {
  results : value;
  shown : page
}.

(** The script's listener at an [updateView] message:
    [results = message.data; renderAllTables();] *)
Definition updateView (w : Webview) (data : value) : Webview * option exn :=
  let '(p, e) := renderAllTables data (shown w) in
  ({| results := data; shown := p |}, e).

(** The number a count shows. *)
Definition shown_count (t : table) : Z :=
  match count t with
  | Some (JNum (Int n)) => n
  | _ => 0
  end.

(** ** The nonce *)

Definition possible : string :=
  "ABCDEFGHIJKLMNOPQRSTUVWXYZabcdefghijklmnopqrstuvwxyz0123456789".

(** [s.charAt(i)]: the empty string when [i] is out of range. *)
Definition charAt (s : string) (i : nat) : string :=
  match String.get i s with
  | Some c => String c EmptyString
  | None => EmptyString
  end.

(** The loop of [getNonce], from iteration [i] on, [n] iterations to go.
    [draw i] is what [Math.floor(Math.random() * possible.length)] gives at
    iteration [i]. *)
Fixpoint getNonce_loop (draw : nat -> nat) (i n : nat) (text : string) : string :=
  match n with
  | O => text
  | S n' => getNonce_loop draw (S i) n' (text +:+ charAt possible (draw i))
  end.

(** [getNonce()] *)
Definition getNonce (draw : nat -> nat) : string := getNonce_loop draw 0 32 "".

Definition alphanumeric (c : ascii) : Prop :=
  let n := nat_of_ascii c in
  (48 <= n <= 57) \/ (65 <= n <= 90) \/ (97 <= n <= 122).

(** ** Closing the panel *)

(** What [dispose] releases. *)
Inductive release : Type :=
| panel_dispose
| disposable_dispose (d : nat).

(** [while (this._disposables.length) { const x = this._disposables.pop();
    if (x) { x.dispose(); } }]: the calls made and the array left.  An
    entry is [None] when it is not an object.  [fuel] bounds the
    iterations; [dispose] gives the length of the array. *)
Fixpoint dispose_loop (fuel : nat) (_disposables : list (option nat))
  : list release * list (option nat) :=
  match fuel with
  | O => ([], _disposables)
  | S fuel' =>
      match List.rev _disposables with
      | [] => ([], _disposables)
      | x :: popped =>
          let '(calls, remaining) := dispose_loop fuel' (List.rev popped) in
          (match x with
           | Some d => disposable_dispose d :: calls
           | None => calls
           end, remaining)
      end
  end.

(** [dispose()] *)
Definition dispose (ext : Extension) (_disposables : list (option nat))
  : Extension * list release * list (option nat) :=
  let '(calls, remaining) := dispose_loop (length _disposables) _disposables in
  ({| currentPanel := None |}, panel_dispose :: calls, remaining).

(** ** Panels that share a webview *)

(** The instances whose listener is on the panel's webview, oldest first,
    each by the [_results] it holds; the last one is [currentPanel].  The
    list is empty when there is no panel. *)
Definition createOrShow_listeners (listening : list value) (results : list value)
  : list value * list effect :=
  match listening with
  | [] => ([constructor results], [createWebviewPanel])
  | _ => (listening ++ [constructor results], [reveal])
  end.

(** A message the listeners answer at once ([initialized], [triage]),
    handled by each instance in turn. *)
Fixpoint receive_all (env : Environment) (files : gmap string string)
    (listening : list value) (m : message) : list value * list effect :=
  match listening with
  | [] => ([], [])
  | r :: listening' =>
      let '(s, effects, _) :=
        onDidReceiveMessage env {| this_results := r; files := files |} m in
      let '(rs, effects') := receive_all env files listening' m in
      (this_results s :: rs, effects ++ effects')
  end.


(** ** More sample inputs *)

(** A finding with the fields the page reads. *)
Definition sample_finding : SemgrepResult :=
  [ ("check_id", JStr "rule-a"); ("path", JStr "src/a.ts");
    ("start", JObj [("line", JNum (Int 3)); ("col", JNum (Int 1))]);
    ("extra", JObj [("message", JStr "m"); ("severity", JStr "WARNING");
                    ("lines", JStr "x")]) ].

(** The same as the constructor ingests it, first of its array. *)
Definition sample_ingested : SemgrepResult :=
  with_id_properties 0 (JObj sample_finding).

(** The page as the script loads it. *)
Definition blank_page : page :=
  {| untriaged_table := empty_table;
     issues_table := empty_table;
     falsePositives_table := empty_table |}.

Definition blank_webview : Webview :=
  {| results := initial_results; shown := blank_page |}.

(** A state whose [untriaged] holds only a number. *)
Definition odd_document : value := JArr [JNum (Int 1)].

(** A state without [issues]. *)
Definition one_bucket : list (string * value) :=
  [("untriaged", JArr [JObj [("id", JStr "a")]])].

(** A state whose [untriaged] starts with [null]. *)
Definition null_first : list (string * value) :=
  [("untriaged", JArr [JNull]); ("issues", JArr [])].

(** A finding with an [extra] whose [check_id] has no string conversion. *)
Definition unprintable_finding : SemgrepResult :=
  [ ("check_id", JObj [("toString", JNum (Int 0))]);
    ("extra", JObj [("message", JStr "m")]) ].
(** * Proofs *)

Import JSON.

(** ** Property lists *)

Lemma get_set_own_eq m k v : get_own (set_own m k v) k = Some v.
Proof.
  induction m as [|[k' v'] m IH]; cbn; [by rewrite String.eqb_refl|].
  destruct (String.eqb k' k) eqn:E; cbn; by rewrite E.
Qed.

Lemma get_set_own_ne m k k' v : k' <> k -> get_own (set_own m k v) k' = get_own m k'.
Proof.
  intros Hne. assert (Hf : String.eqb k k' = false) by by apply String.eqb_neq.
  induction m as [|[k0 v0] m IH]; cbn; [by rewrite Hf|].
  destruct (String.eqb_spec k0 k) as [->|]; cbn; [by rewrite Hf|by rewrite IH].
Qed.

Lemma set_own_fresh m k v : get_own m k = None -> set_own m k v = m ++ [(k, v)].
Proof.
  induction m as [|[k' v'] m IH]; cbn; [done|].
  destruct (String.eqb k' k); [done|]. by intros ->%IH.
Qed.

Lemma get_own_None (m : list (string * value)) k : k ∉ (fst <$> m) -> get_own m k = None.
Proof.
  induction m as [|[k' v] m IH]; [done|]. cbn.
  intros [Hne Hin]%not_elem_of_cons.
  destruct (String.eqb_spec k' k); [congruence|auto].
Qed.

Lemma set_own_keys m k v :
  fst <$> set_own m k v = if decide (k ∈ fst <$> m) then fst <$> m else (fst <$> m) ++ [k].
Proof.
  induction m as [|[k' v'] m IH]; [done|]. cbn [set_own].
  destruct (String.eqb_spec k' k) as [->|Hne]; cbn [fmap list_fmap fst].
  - rewrite decide_True by left. done.
  - fold (@fmap list _ _ _ (@fst string value)). rewrite IH.
    destruct (decide (k ∈ fst <$> m)) as [Hin|Hin].
    + rewrite decide_True by by right. done.
    + rewrite decide_False; [done|]. intros [?|?]%elem_of_cons; congruence.
Qed.

Lemma set_own_NoDup m k v : NoDup (fst <$> m) -> NoDup (fst <$> set_own m k v).
Proof.
  intros Hm. rewrite set_own_keys. case_decide; [done|].
  apply NoDup_app. split_and!; [done| |apply NoDup_singleton].
  intros x Hx ->%list_elem_of_singleton. done.
Qed.

Lemma set_own_Forall (P : value -> Prop) m k v :
  Forall (fun kv => P (snd kv)) m -> P v -> Forall (fun kv => P (snd kv)) (set_own m k v).
Proof.
  intros Hm Hv. induction Hm as [|[k' v'] m Hx Hm IH]; cbn [set_own].
  - by constructor.
  - destruct (String.eqb k' k); constructor; auto.
Qed.

(** ** Numbers *)

Section number_facts.
Local Open Scope char_scope.
Local Open Scope Z_scope.

(** *** Digits *)

Lemma digit_spec d :
  0 <= d < 10 -> digit_value (digit d) = d /\ is_digit (digit d) = true.
Proof.
  intros Hd. replace d with (Z.of_nat (Z.to_nat d)) by lia.
  assert (Hn : (Z.to_nat d < 10)%nat) by lia. revert Hn. generalize (Z.to_nat d).
  intros n Hn. do 10 (destruct n as [|n]; [by vm_compute|]). lia.
Qed.

Lemma digit_nonzero d : 1 <= d < 10 -> Ascii.eqb (digit d) "0" = false.
Proof.
  intros Hd. replace d with (Z.of_nat (Z.to_nat d)) by lia.
  assert (Hn : (1 <= Z.to_nat d < 10)%nat) by lia. revert Hn. generalize (Z.to_nat d).
  intros n Hn. destruct n as [|n]; [lia|].
  do 9 (destruct n as [|n]; [by vm_compute|]). lia.
Qed.

Lemma is_digit_value c : is_digit c = true -> 0 <= digit_value c < 10.
Proof.
  unfold is_digit, digit_value. intros [H1 H2]%andb_prop.
  apply N.leb_le in H1, H2. lia.
Qed.

Lemma digits_value_from ds acc :
  fold_left (fun acc c => 10 * acc + digit_value c) ds acc
  = acc * 10 ^ Z.of_nat (length ds) + digits_value ds.
Proof.
  unfold digits_value. revert acc. induction ds as [|c ds IH]; intros acc.
  - cbn. lia.
  - cbn [fold_left length]. rewrite IH, (IH (10 * 0 + digit_value c)).
    rewrite Nat2Z.inj_succ, Z.pow_succ_r by lia. ring.
Qed.

Lemma digits_value_app a b :
  digits_value (a ++ b) = digits_value a * 10 ^ Z.of_nat (length b) + digits_value b.
Proof. unfold digits_value at 1. by rewrite fold_left_app, digits_value_from. Qed.

Lemma digits_value_zeros n : digits_value (repeat "0" n) = 0.
Proof.
  induction n as [|n IH]; [done|].
  change (repeat "0" (S n)) with (["0"] ++ repeat "0" n).
  rewrite digits_value_app, IH. by vm_compute.
Qed.

Lemma zeros_digits n : Forall (fun c => is_digit c = true) (repeat "0" n).
Proof. induction n; by constructor. Qed.

Lemma digits_value_cons_zero ds : digits_value ("0" :: ds) = digits_value ds.
Proof. change ("0" :: ds) with (["0"] ++ ds). by rewrite digits_value_app. Qed.

Lemma digits_acc_S fuel n acc :
  digits_acc (S fuel) n acc
  = if n <? 10 then digit (n mod 10) :: acc
    else digits_acc fuel (n / 10) (digit (n mod 10) :: acc).
Proof. reflexivity. Qed.

Lemma digits_acc_spec fuel n acc :
  0 <= n < 10 ^ Z.of_nat (S fuel) ->
  exists ds,
    digits_acc (S fuel) n acc = ds ++ acc /\ Forall (fun c => is_digit c = true) ds /\
    digits_value ds = n /\
    exists c cs, ds = c :: cs /\ (1 <= n -> Ascii.eqb c "0" = false).
Proof.
  revert n acc. induction fuel as [|fuel IH]; intros n acc Hn; rewrite digits_acc_S.
  - change (10 ^ Z.of_nat 1) with 10 in Hn.
    destruct (Z.ltb_spec n 10) as [_|]; [|lia].
    rewrite Z.mod_small by lia. destruct (digit_spec n) as [Hv Hd]; [lia|].
    exists [digit n]. split_and!; [done|by constructor|..].
    + unfold digits_value. cbn. lia.
    + eexists _, _. split; [done|]. intros. apply digit_nonzero. lia.
  - destruct (Z.ltb_spec n 10) as [Hlt|Hge].
    + rewrite Z.mod_small by lia. destruct (digit_spec n) as [Hv Hd]; [lia|].
      exists [digit n]. split_and!; [done|by constructor|..].
      * unfold digits_value. cbn. lia.
      * eexists _, _. split; [done|]. intros. apply digit_nonzero. lia.
    + assert (Hq : 0 <= n / 10 < 10 ^ Z.of_nat (S fuel)).
      { split; [apply Z.div_pos; lia|]. apply Z.div_lt_upper_bound; [lia|].
        rewrite (Nat2Z.inj_succ (S fuel)), Z.pow_succ_r in Hn by lia. lia. }
      destruct (IH (n / 10) (digit (n mod 10) :: acc) Hq)
        as (ds & Heq & Hds & Hval & c & cs & -> & Hc).
      destruct (digit_spec (n mod 10)) as [Hv Hd]; [apply Z.mod_pos_bound; lia|].
      exists ((c :: cs) ++ [digit (n mod 10)]). split_and!.
      * rewrite Heq, <- app_assoc. done.
      * apply Forall_app. split; [done|by constructor].
      * rewrite digits_value_app, Hval. cbn [length]. unfold digits_value at 1. cbn.
        rewrite Hv. pose proof (Z.div_mod n 10). lia.
      * eexists _, _. split; [done|]. intros _. apply Hc.
        apply Z.div_le_lower_bound; lia.
Qed.

Lemma digits_spec n :
  0 <= n ->
  Forall (fun c => is_digit c = true) (digits n) /\ digits_value (digits n) = n /\
  exists c cs, digits n = c :: cs /\ (1 <= n -> Ascii.eqb c "0" = false).
Proof.
  intros Hn. unfold digits.
  destruct (digits_acc_spec (Z.to_nat (Z.log2 n)) n []) as (ds & -> & H).
  - split; [done|]. rewrite Nat2Z.inj_succ, Z2Nat.id by apply Z.log2_nonneg.
    destruct (Z.eq_dec n 0) as [->|Hne]; [by vm_compute|].
    pose proof (Z.log2_spec n ltac:(lia)) as [_ Hlt].
    eapply Z.lt_le_trans; [exact Hlt|].
    apply Z.pow_le_mono_l. lia.
  - by rewrite app_nil_r.
Qed.

Lemma decimal_inj : Inj (=) (=) decimal.
Proof.
  assert (Hl : forall a b, string_of_list_ascii a = string_of_list_ascii b -> a = b).
  { intros a b H. rewrite <- (list_ascii_of_string_of_list_ascii a),
      <- (list_ascii_of_string_of_list_ascii b). by rewrite H. }
  assert (Hd : forall a b, 0 <= a -> 0 <= b -> digits a = digits b -> a = b).
  { intros a b Ha Hb H. destruct (digits_spec a Ha) as (_ & <- & _).
    destruct (digits_spec b Hb) as (_ & <- & _). by rewrite H. }
  assert (Hs : forall a b, 0 <= a -> 0 <= b -> "-" :: digits a <> digits b).
  { intros a b Ha Hb H. destruct (digits_spec b Hb) as (Hall & _ & _).
    rewrite <- H in Hall. by inversion Hall. }
  intros n m H. unfold decimal in H. apply Hl in H.
  destruct (Z.ltb_spec n 0), (Z.ltb_spec m 0).
  - injection H as H. apply Hd in H; lia.
  - exfalso. by apply (Hs (- n) m); [lia..|].
  - exfalso. by apply (Hs (- m) n); [lia..|].
  - apply Hd in H; lia.
Qed.

(** *** Number tokens *)

Lemma take_digits_no_digit s : no_digit s -> take_digits s = ([], s).
Proof. destruct s as [|c s]; [done|]. cbn. by intros ->. Qed.

Lemma take_digits_app ds rest :
  Forall (fun c => is_digit c = true) ds -> no_digit rest ->
  take_digits (ds ++ rest) = (ds, rest).
Proof.
  intros Hds Hrest. induction Hds as [|c ds Hc Hds IH]; cbn [app take_digits].
  - by apply take_digits_no_digit.
  - by rewrite Hc, IH.
Qed.

Lemma parse_digits_app di rest :
  Forall (fun c => is_digit c = true) di -> di <> [] ->
  (forall c c' r, di = c :: c' :: r -> Ascii.eqb c "0" = false) ->
  no_digit rest ->
  parse_digits (di ++ rest) = Some (di, rest).
Proof.
  intros Hdi Hne Hzero Hrest. unfold parse_digits. rewrite take_digits_app by done.
  destruct di as [|c [|c' r]]; [done|done|]. by rewrite (Hzero c c' r).
Qed.

Lemma parse_fraction_some df tail :
  Forall (fun c => is_digit c = true) df -> df <> [] -> no_digit tail ->
  parse_fraction ("." :: df ++ tail) = Some (df, tail).
Proof.
  intros Hdf Hne Htail. cbn [parse_fraction]. change (Ascii.eqb "." ".") with true.
  cbv iota. rewrite take_digits_app by done. by destruct df.
Qed.

Lemma number_end_no_digit rest : number_end rest -> no_digit rest.
Proof.
  destruct rest as [|c rest]; [done|]. cbn.
  by intros [[[H _]%orb_false_elim _]%orb_false_elim _]%orb_false_elim.
Qed.

Lemma parse_fraction_none rest :
  number_end rest -> parse_fraction rest = Some ([], rest).
Proof.
  destruct rest as [|c rest]; [done|]. cbn.
  by intros [[[_ ->]%orb_false_elim _]%orb_false_elim _]%orb_false_elim.
Qed.

Lemma parse_exponent_none rest :
  number_end rest -> parse_exponent rest = Some (0, rest).
Proof.
  destruct rest as [|c rest]; [done|]. cbn.
  by intros [[_ ->]%orb_false_elim ->]%orb_false_elim.
Qed.

Lemma parse_exponent_text e rest :
  no_digit rest -> parse_exponent (exponent_text e ++ rest) = Some (e, rest).
Proof.
  intros Hrest. unfold exponent_text. cbn [app parse_exponent].
  change (Ascii.eqb "e" "e") with true. cbn [orb].
  destruct (digits_spec (Z.abs e)) as (Hds & Hval & c & cs & Heq & _); [lia|].
  destruct (Z.ltb_spec e 0); cbn [parse_sign];
    [change (Ascii.eqb "-" "-") with true|
     change (Ascii.eqb "+" "-") with false; change (Ascii.eqb "+" "+") with true];
    cbv iota; rewrite take_digits_app by done; rewrite Heq, <- Heq, Hval;
    unfold signed; do 2 f_equal; lia.
Qed.

Lemma exponent_text_head e rest :
  exists r, exponent_text e ++ rest = "e" :: r.
Proof. by eexists. Qed.

Lemma parse_number_parts (negative : bool) di r1 df r2 e rest :
  Forall (fun c => is_digit c = true) di -> di <> [] ->
  (forall c c' r, di = c :: c' :: r -> Ascii.eqb c "0" = false) ->
  no_digit r1 ->
  parse_fraction r1 = Some (df, r2) -> parse_exponent r2 = Some (e, rest) ->
  parse_number ((if negative then ["-"] else []) ++ di ++ r1)
  = Some (nearest_decimal negative (digits_value (di ++ df))
                          (e - Z.of_nat (length df)), rest).
Proof.
  intros Hdi Hne Hzero Hr1 Hf He.
  pose proof (parse_digits_app di r1 Hdi Hne Hzero Hr1) as Hd.
  unfold parse_number. destruct negative; cbn [app].
  - change (Ascii.eqb "-" "-") with true. cbv iota. by rewrite Hd, Hf, He.
  - destruct di as [|c di']; [done|]. cbn [app] in *.
    inversion Hdi as [|? ? Hc _]. subst.
    replace (Ascii.eqb c "-") with false.
    + by rewrite Hd, Hf, He.
    + destruct c as [[] [] [] [] [] [] [] []]; done.
Qed.

Lemma parse_number_head t y r :
  parse_number t = Some (y, r) ->
  exists c cs, t = c :: cs /\ (c = "-" \/ is_digit c = true).
Proof.
  unfold parse_number. destruct t as [|c t].
  - by cbn.
  - intros H. exists c, t. split; [done|].
    destruct (Ascii.eqb_spec c "-") as [->|Hne]; [by left|right].
    unfold parse_digits in H. cbn [take_digits] in H.
    destruct (is_digit c); [done|]. by cbn in H.
Qed.

(** The text [format] writes for the digits [s] and the exponent [e10] is
    a number token, and its value is the Number value for [s * 10 ^ e10]. *)
Lemma parse_number_format (negative : bool) s e10 rest :
  1 <= s -> number_end rest ->
  parse_number ((if negative then ["-"] else []) ++ format s e10 ++ rest)
  = Some (nearest_decimal negative s e10, rest).
Proof.
  intros Hs Hrest.
  destruct (digits_spec s) as (Hds & Hval & c & cs & Heq & Hc); [lia|].
  specialize (Hc Hs).
  pose proof (number_end_no_digit rest Hrest) as Hnd.
  assert (Hhead : forall (l : list ascii) c0 c' r, c :: l = c0 :: c' :: r ->
                                  Ascii.eqb c0 "0" = false).
  { intros l c0 c' r [= <- _]. exact Hc. }
  unfold format. set (k := Z.of_nat (length (digits s))). set (n := e10 + k).
  assert (Hk : 1 <= k) by (subst k; rewrite Heq; cbn [length]; lia).
  destruct ((k <=? n) && (n <=? 21)) eqn:HA.
  { apply andb_prop in HA as [HA _]. apply Z.leb_le in HA.
    rewrite <- app_assoc.
    rewrite (app_assoc (digits s)).
    rewrite (parse_number_parts negative (digits s ++ repeat "0" (Z.to_nat (n - k)))
               rest [] rest 0 rest).
    - rewrite app_nil_r, digits_value_app, digits_value_zeros, Hval, repeat_length.
      unfold nearest_decimal. cbn [length].
      replace (0 - Z.of_nat 0) with 0 by lia.
      replace (Z.max 0 0) with 0 by lia. replace (Z.max 0 (- 0)) with 0 by lia.
      replace (Z.max 0 e10) with (n - k) by lia.
      replace (Z.max 0 (- e10)) with 0 by lia.
      rewrite Z2Nat.id by lia. do 3 f_equal. change (10 ^ 0) with 1. ring.
    - apply Forall_app. split; [done|apply zeros_digits].
    - rewrite Heq. done.
    - rewrite Heq. intros c0 c' r H. cbn [app] in H. by eapply Hhead.
    - done.
    - by apply parse_fraction_none.
    - by apply parse_exponent_none. }
  destruct ((0 <? n) && (n <=? 21)) eqn:HB.
  { apply andb_prop in HB as [HB HB2]. apply Z.ltb_lt in HB. apply Z.leb_le in HB2.
    assert (Hnk : n < k).
    { apply andb_false_iff in HA as [HA|HA]; apply Z.leb_gt in HA; lia. }
    clear HA.
    rewrite <- app_assoc. cbn [app].
    assert (Hlen : (Z.to_nat n < length (digits s))%nat) by (subst k; lia).
    rewrite (parse_number_parts negative (take (Z.to_nat n) (digits s))
               ("." :: drop (Z.to_nat n) (digits s) ++ rest)
               (drop (Z.to_nat n) (digits s)) rest 0 rest).
    - rewrite take_drop, Hval, length_drop. do 3 f_equal; subst n k; lia.
    - by apply Forall_take.
    - rewrite Heq. destruct (Z.to_nat n) eqn:E; [lia|done].
    - rewrite Heq. destruct (Z.to_nat n) eqn:E; [lia|]. cbn [take].
      intros c0 c' r H. by eapply Hhead.
    - done.
    - apply parse_fraction_some; [by apply Forall_drop| |done].
      intros H. apply (f_equal length) in H. rewrite length_drop in H.
      cbn [length] in H. lia.
    - by apply parse_exponent_none. }
  destruct ((-6 <? n) && (n <=? 0)) eqn:HC.
  { apply andb_prop in HC as [_ HC]. apply Z.leb_le in HC.
    change (("0" :: "." :: repeat "0" (Z.to_nat (- n)) ++ digits s) ++ rest)
      with (["0"] ++ "." :: (repeat "0" (Z.to_nat (- n)) ++ digits s) ++ rest).
    rewrite (parse_number_parts negative ["0"]
               ("." :: (repeat "0" (Z.to_nat (- n)) ++ digits s) ++ rest)
               (repeat "0" (Z.to_nat (- n)) ++ digits s) rest 0 rest).
    - cbn [app]. rewrite digits_value_cons_zero, digits_value_app, digits_value_zeros, Hval.
      rewrite length_app, repeat_length. do 3 f_equal; subst n k; lia.
    - by repeat constructor.
    - done.
    - done.
    - done.
    - apply parse_fraction_some; [|by rewrite Heq; destruct (repeat _ _)|done].
      apply Forall_app. split; [apply zeros_digits|done].
    - by apply parse_exponent_none. }
  rewrite Heq in Hds |- *. destruct cs as [|c' cs']; cbv iota.
  - rewrite <- app_assoc.
    rewrite (parse_number_parts negative [c] (exponent_text (n - 1) ++ rest)
               [] (exponent_text (n - 1) ++ rest) (n - 1) rest).
    + rewrite app_nil_r. rewrite <- Heq, Hval. cbn [length].
      do 3 f_equal; subst n k; rewrite Heq; cbn [length]; lia.
    + done.
    + done.
    + done.
    + done.
    + done.
    + by apply parse_exponent_text.
  - replace ((c :: "." :: (c' :: cs') ++ exponent_text (n - 1)) ++ rest)
      with ([c] ++ "." :: (c' :: cs') ++ exponent_text (n - 1) ++ rest)
      by (cbn [app]; by rewrite <- app_assoc).
    rewrite (parse_number_parts negative [c]
               ("." :: (c' :: cs') ++ exponent_text (n - 1) ++ rest)
               (c' :: cs') (exponent_text (n - 1) ++ rest) (n - 1) rest).
    + cbn [app]. rewrite <- Heq, Hval. do 3 f_equal; subst n k; rewrite Heq; cbn [length]; lia.
    + by inversion Hds; constructor.
    + done.
    + done.
    + done.
    + apply parse_fraction_some; [by inversion Hds|done|done].
    + by apply parse_exponent_text.
Qed.

(** *** The Number value for a quotient *)

Lemma nearest_scale negative c p q :
  0 < c -> 0 <= p -> 0 < q ->
  nearest negative (c * p) (c * q) = nearest negative p q.
Proof.
  intros Hc Hp Hq. unfold nearest.
  destruct (Z.eqb_spec p 0) as [->|Hne].
  - by rewrite Z.mul_0_r.
  - destruct (Z.eqb_spec (c * p) 0) as [H0|_]; [nia|].
    assert (He : last_place (c * p) (c * q) = last_place p q).
    { unfold last_place. rewrite <- Z.mul_assoc, Z.div_mul_cancel_l by lia. done. }
    rewrite He. set (e := last_place p q).
    assert (HA : 0 < 2 ^ Z.max 0 e) by (apply Z.pow_pos_nonneg; lia).
    rewrite <- !(Z.mul_assoc c).
    rewrite Z.div_mul_cancel_l, Z.mul_mod_distr_l by nia.
    set (num := p * 2 ^ Z.max 0 (- e)). set (den := q * 2 ^ Z.max 0 e).
    replace (c * den <? 2 * (c * (num mod den))) with (den <? 2 * (num mod den))
      by (destruct (Z.ltb_spec den (2 * (num mod den))),
                   (Z.ltb_spec (c * den) (2 * (c * (num mod den)))); nia).
    replace (c * den =? 2 * (c * (num mod den))) with (den =? 2 * (num mod den))
      by (destruct (Z.eqb_spec den (2 * (num mod den))),
                   (Z.eqb_spec (c * den) (2 * (c * (num mod den)))); nia).
    done.
Qed.

Lemma lowest_terms_pow2 negative (m k : positive) :
  lowest_terms negative (m * 2 ^ k) k = Int (signed negative (Zpos m)).
Proof.
  induction k as [|k IH] using Pos.peano_ind.
  - change (2 ^ 1)%positive with 2%positive. rewrite Pos.mul_comm. done.
  - rewrite Pos.pow_succ_r.
    replace (m * (2 * 2 ^ k))%positive with ((m * 2 ^ k)~0)%positive by lia.
    cbn [lowest_terms]. destruct (Pos.succ k) eqn:E; try (rewrite <- E, Pos.pred_succ; exact IH).
    lia.
Qed.

(** An integer below [2 ^ 53] is a double. *)
Lemma nearest_small negative p :
  0 < p < 2 ^ 53 -> nearest negative p 1 = Int (signed negative p).
Proof.
  intros [Hp Hlt]. unfold nearest. destruct (Z.eqb_spec p 0) as [|_]; [lia|].
  assert (Hlog : 0 <= Z.log2 p <= 52).
  { split; [apply Z.log2_nonneg|]. apply Z.log2_lt_pow2 in Hlt; lia. }
  assert (He : last_place p 1 = Z.log2 p - 52).
  { unfold last_place. rewrite Z.div_1_r, Z.log2_mul_pow2 by lia. lia. }
  rewrite He. set (e := Z.log2 p - 52).
  replace (Z.max 0 e) with 0 by lia. replace (Z.max 0 (- e)) with (- e) by lia.
  change (2 ^ 0) with 1. rewrite !Z.mul_1_r, Z.div_1_r, Z.mod_1_r.
  assert (Hpow : 0 < 2 ^ (- e)) by (apply Z.pow_pos_nonneg; lia).
  change (2 * 0) with 0. change (1 <? 0) with false. change (1 =? 0) with false.
  cbn [orb andb].
  destruct (Z.leb_spec (2 ^ 1024 * 2 ^ (- e)) (p * 2 ^ (- e))) as [Hle|_].
  { assert (2 ^ 53 < 2 ^ 1024) by (apply Z.pow_lt_mono_r; lia). nia. }
  unfold dyadic. destruct p as [|p|p]; try lia.
  destruct (- e) as [|k|k] eqn:Ek; try lia.
  - assert (e = 0) as -> by lia. change (2 ^ 0) with 1. by rewrite !Z.mul_1_r.
  - assert (e = Z.neg k) as -> by lia.
    change (Z.pos p * 2 ^ Z.pos k) with (Z.pos p * Z.pow_pos 2 k).
    rewrite <- Pos2Z.inj_pow_pos. cbn [Z.mul]. apply lowest_terms_pow2.
Qed.

(** *** What [Number::toString] writes is read as a number *)

Lemma shortest_S fuel negative p q x n k exact_ :
  shortest (S fuel) negative p q x n k exact_
  = let e10 := n - k in
    let num := p * 10 ^ Z.max 0 (- e10) in
    let den := q * 10 ^ Z.max 0 e10 in
    let lo := (num / den, e10) in
    let hi := if num / den + 1 =? 10 ^ k then (1, n) else (num / den + 1, e10) in
    let r := num mod den in
    if reads_as negative x lo && reads_as negative x hi then
      if (2 * r <? den) || ((2 * r =? den) && Z.even (fst lo)) then lo else hi
    else if reads_as negative x lo then lo
    else if reads_as negative x hi then hi
    else shortest fuel negative p q x n (k + 1) exact_.
Proof. reflexivity. Qed.

Lemma shortest_spec fuel negative p q x n k exact_ :
  reads_as negative x (shortest fuel negative p q x n k exact_) = true
  \/ shortest fuel negative p q x n k exact_ = exact_.
Proof.
  revert k. induction fuel as [|fuel IH]; intros k; [by right|].
  rewrite shortest_S. cbv zeta.
  match goal with |- context [reads_as negative x ?lo && reads_as negative x ?hi] =>
    destruct (reads_as negative x lo) eqn:Hlo, (reads_as negative x hi) eqn:Hhi
  end; cbn [andb].
  - match goal with |- context [if ?b then _ else _] => destruct b end; by left.
  - by left.
  - by left.
  - apply IH.
Qed.

Lemma finite_text_parse negative p q j x :
  1 <= p * 10 ^ j / q ->
  exists y,
    (forall rest, number_end rest ->
       parse_number (finite_text negative p q j x ++ rest) = Some (y, rest)) /\
    (y = x \/ y = nearest_decimal negative (p * 10 ^ j / q) (- j)).
Proof.
  intros Hex. unfold finite_text, shortest_digits.
  set (c := shortest _ _ _ _ _ _ _ _).
  destruct (shortest_spec (Z.to_nat (decimal_exponent p q + j - 1)) negative p q x
              (decimal_exponent p q) 1 (p * 10 ^ j / q, - j)) as [Hr|He];
    [fold c in Hr|fold c in He].
  - unfold reads_as in Hr. apply andb_prop in Hr as [Hs Hx].
    apply Z.leb_le in Hs. apply bool_decide_eq_true in Hx.
    exists x. split; [|by left]. intros rest Hrest.
    rewrite <- app_assoc, parse_number_format by done. by rewrite Hx.
  - exists (nearest_decimal negative (p * 10 ^ j / q) (- j)). split; [|by right].
    intros rest Hrest. rewrite He. cbn [fst snd].
    by rewrite <- app_assoc, parse_number_format.
Qed.

Lemma zero_text_parse rest :
  number_end rest -> parse_number (chars "0" ++ rest) = Some (Int 0, rest).
Proof.
  intros Hrest.
  pose proof (parse_number_parts false ["0"] rest [] rest 0 rest) as H.
  cbn [app] in H. unfold chars. cbn [list_ascii_of_string app]. rewrite H; try done.
  - by repeat constructor.
  - by apply number_end_no_digit.
  - by apply parse_fraction_none.
  - by apply parse_exponent_none.
Qed.

(** What [Number::toString] writes for a finite number is a number token,
    whatever follows it; for a finite double other than -0 it is read as
    that double. *)
Lemma Number_toString_parse x :
  (forall negative, x <> Infinity negative) ->
  exists y,
    (forall rest, number_end rest ->
       parse_number (chars (Number_toString x) ++ rest) = Some (y, rest)) /\
    (exact x -> y = x).
Proof.
  intros Hfin. destruct x as [n|m k| |negative]; [| | |by destruct (Hfin negative)].
  - cbn [Number_toString]. destruct (Z.eqb_spec n 0) as [->|Hn].
    + exists (Int 0). split; [apply zero_text_parse|done].
    + destruct (finite_text_parse (n <? 0) (Z.abs n) 1 0 (Int n)) as (y & Hy & Hv).
      { change (10 ^ 0) with 1. rewrite Z.mul_1_r, Z.div_1_r. lia. }
      exists y. split.
      * intros rest Hrest. unfold chars.
        rewrite list_ascii_of_string_of_list_ascii. by apply Hy.
      * intros Hx. destruct Hv as [->| ->]; [done|]. cbn [exact] in Hx.
        etransitivity; [|exact Hx].
        unfold nearest_decimal. change (10 ^ 0) with 1.
        change (Z.max 0 (- 0)) with 0. change (Z.max 0 (- - 0)) with 0.
        change (10 ^ 0) with 1. by rewrite !Z.mul_1_r, Z.div_1_r.
  - cbn [Number_toString]. destruct (Z.eqb_spec m 0) as [->|Hm].
    + exists (Int 0). split; [apply zero_text_parse|]. cbn. discriminate.
    + assert (H10 : 10 ^ Z.pos k = 5 ^ Z.pos k * 2 ^ Z.pos k).
      { by rewrite <- Z.pow_mul_l. }
      assert (H5 : 0 < 5 ^ Z.pos k) by (apply Z.pow_pos_nonneg; lia).
      assert (H2 : 0 < 2 ^ Z.pos k) by (apply Z.pow_pos_nonneg; lia).
      assert (Hdiv : Z.abs m * 10 ^ Z.pos k / 2 ^ Z.pos k = 5 ^ Z.pos k * Z.abs m).
      { rewrite H10, Z.mul_assoc, Z.div_mul by lia. lia. }
      destruct (finite_text_parse (m <? 0) (Z.abs m) (2 ^ Z.pos k) (Z.pos k) (Ratio m k))
        as (y & Hy & Hv).
      { rewrite Hdiv. nia. }
      exists y. split.
      * intros rest Hrest. unfold chars.
        rewrite list_ascii_of_string_of_list_ascii. by apply Hy.
      * intros Hx. destruct Hv as [->| ->]; [done|]. cbn [exact] in Hx.
        etransitivity; [|exact Hx].
        unfold nearest_decimal. rewrite Hdiv.
        replace (Z.max 0 (- Z.pos k)) with 0 by lia.
        replace (Z.max 0 (- - Z.pos k)) with (Z.pos k) by lia.
        change (10 ^ 0) with 1. rewrite Z.mul_1_r, H10.
        apply nearest_scale; lia.
  - exists (Int 0). split; [apply zero_text_parse|done].
Qed.

Lemma reread_number_finite x y :
  (forall negative, x <> Infinity negative) ->
  (forall rest, number_end rest ->
     parse_number (chars (Number_toString x) ++ rest) = Some (y, rest)) ->
  reread_number x = JNum y.
Proof.
  intros Hfin Hy. specialize (Hy [] I). rewrite app_nil_r in Hy.
  unfold reread_number. rewrite Hy. destruct x; try done. by destruct (Hfin negative).
Qed.

Lemma reread_number_exact x : exact x -> reread_number x = JNum x.
Proof.
  intros Hx. destruct (Number_toString_parse x) as (y & Hy & Hv).
  { intros negative ->. done. }
  rewrite (reread_number_finite x y); [by rewrite Hv| |done].
  intros negative ->. done.
Qed.

(** *** The text of an array index *)

Lemma digit_value_inj c c' : digit_value c = digit_value c' -> c = c'.
Proof.
  unfold digit_value. intros H.
  assert (Hn : N_of_ascii c = N_of_ascii c') by lia.
  by rewrite <- (ascii_N_embedding c), <- (ascii_N_embedding c'), Hn.
Qed.

Lemma digits_value_cons c ds :
  digits_value (c :: ds) = digit_value c * 10 ^ Z.of_nat (length ds) + digits_value ds.
Proof.
  change (c :: ds) with ([c] ++ ds). by rewrite digits_value_app.
Qed.

Lemma digits_value_bound ds :
  Forall (fun c => is_digit c = true) ds ->
  0 <= digits_value ds < 10 ^ Z.of_nat (length ds).
Proof.
  induction 1 as [|c ds Hc Hds IH]; [by vm_compute|].
  rewrite digits_value_cons. apply is_digit_value in Hc.
  cbn [length]. rewrite Nat2Z.inj_succ, Z.pow_succ_r by lia. nia.
Qed.

(** Digits that do not start with a zero have a value of their length. *)
Lemma digits_value_magnitude c ds :
  Forall (fun c => is_digit c = true) (c :: ds) -> Ascii.eqb c "0" = false ->
  10 ^ Z.of_nat (length ds) <= digits_value (c :: ds).
Proof.
  intros [Hc Hds]%Forall_cons Hz. rewrite digits_value_cons.
  pose proof (digits_value_bound ds Hds) as Hb.
  assert (1 <= digit_value c).
  { pose proof (is_digit_value c Hc) as Hr.
    destruct (Z.eq_dec (digit_value c) 0) as [H0|]; [|lia].
    apply (digit_value_inj c "0") in H0. subst c. done. }
  nia.
Qed.

Lemma digits_value_inj_length a b :
  length a = length b ->
  Forall (fun c => is_digit c = true) a -> Forall (fun c => is_digit c = true) b ->
  digits_value a = digits_value b -> a = b.
Proof.
  intros Hlen Ha. revert b Hlen.
  induction Ha as [|c a Hc Ha IH]; intros [|c' b] Hlen Hb Hv; try done.
  apply Forall_cons in Hb as [Hc' Hb]. injection Hlen as Hlen.
  rewrite !digits_value_cons, Hlen in Hv.
  pose proof (digits_value_bound a Ha) as Hba. rewrite Hlen in Hba.
  pose proof (digits_value_bound b Hb) as Hbb.
  set (P := 10 ^ Z.of_nat (length b)) in *.
  assert (Hd : digit_value c = digit_value c').
  { destruct (Z.lt_trichotomy (digit_value c) (digit_value c')) as [Hlt|[Heq|Hgt]];
      [exfalso|done|exfalso].
    - assert ((digit_value c + 1) * P <= digit_value c' * P)
        by (apply Z.mul_le_mono_nonneg_r; lia). lia.
    - assert ((digit_value c' + 1) * P <= digit_value c * P)
        by (apply Z.mul_le_mono_nonneg_r; lia). lia. }
  rewrite Hd in Hv.
  f_equal; [by apply digit_value_inj|apply IH; [done|done|lia]].
Qed.

(** A number has one decimal text without a leading zero. *)
Lemma digits_unique n ds :
  1 <= n -> Forall (fun c => is_digit c = true) ds -> digits_value ds = n ->
  (exists c cs, ds = c :: cs /\ Ascii.eqb c "0" = false) -> ds = digits n.
Proof.
  intros Hn Hds Hv (c & cs & -> & Hc).
  destruct (digits_spec n) as (Hdn & Hvn & c' & cs' & Heq & Hc'); [lia|].
  rewrite Heq in *. specialize (Hc' Hn).
  pose proof (digits_value_magnitude c cs Hds Hc) as H1.
  pose proof (digits_value_magnitude c' cs' Hdn Hc') as H2.
  pose proof (digits_value_bound _ Hds) as H3.
  pose proof (digits_value_bound _ Hdn) as H4.
  cbn [length] in H3, H4. rewrite Nat2Z.inj_succ in H3, H4.
  apply digits_value_inj_length; [|done|done|congruence].
  cbn [length]. f_equal.
  destruct (Nat.lt_trichotomy (length cs) (length cs')) as [Hlt|[Heq'|Hgt]]; [|done|].
  - assert (10 ^ Z.succ (Z.of_nat (length cs)) <= 10 ^ Z.of_nat (length cs'))
      by (apply Z.pow_le_mono_r; lia).
    lia.
  - assert (10 ^ Z.succ (Z.of_nat (length cs')) <= 10 ^ Z.of_nat (length cs))
      by (apply Z.pow_le_mono_r; lia).
    lia.
Qed.

Lemma digits_length n : 1 <= n -> 10 ^ (Z.of_nat (length (digits n)) - 1) <= n.
Proof.
  intros Hn. destruct (digits_spec n) as (Hdn & Hvn & c & cs & Heq & Hc); [lia|].
  rewrite Heq in *. pose proof (digits_value_magnitude c cs Hdn (Hc Hn)) as H.
  cbn [length]. rewrite Nat2Z.inj_succ.
  replace (Z.succ (Z.of_nat (length cs)) - 1) with (Z.of_nat (length cs)) by lia.
  by rewrite <- Hvn.
Qed.

Lemma digits_shift s e :
  1 <= s -> 0 <= e -> digits s ++ repeat "0" (Z.to_nat e) = digits (s * 10 ^ e).
Proof.
  intros Hs He.
  assert (0 < 10 ^ e) by (apply Z.pow_pos_nonneg; lia).
  destruct (digits_spec s) as (Hds & Hvs & c & cs & Heq & Hc); [lia|].
  apply digits_unique.
  - nia.
  - apply Forall_app. split; [done|apply zeros_digits].
  - rewrite digits_value_app, Hvs, digits_value_zeros, repeat_length, Z2Nat.id by lia. lia.
  - exists c, (cs ++ repeat "0" (Z.to_nat e)). rewrite Heq. split; [done|]. apply Hc. lia.
Qed.

Lemma format_integer s e :
  1 <= s -> 0 <= e -> s * 10 ^ e < 10 ^ 21 -> format s e = digits (s * 10 ^ e).
Proof.
  intros Hs He Hn. rewrite <- digits_shift by done. unfold format.
  assert (0 < 10 ^ e) by (apply Z.pow_pos_nonneg; lia).
  pose proof (digits_length (s * 10 ^ e)) as Hlen.
  rewrite <- digits_shift, length_app, repeat_length in Hlen by done.
  assert (Hle : e + Z.of_nat (length (digits s)) <= 21).
  { destruct (Z.le_gt_cases (e + Z.of_nat (length (digits s))) 21) as [|Hgt]; [done|].
    assert (10 ^ 21 <= 10 ^ (Z.of_nat (length (digits s) + Z.to_nat e) - 1))
      by (apply Z.pow_le_mono_r; lia).
    nia. }
  replace (Z.of_nat (length (digits s)) <=? e + Z.of_nat (length (digits s))) with true
    by (symmetry; apply Z.leb_le; lia).
  replace (e + Z.of_nat (length (digits s)) <=? 21) with true
    by (symmetry; apply Z.leb_le; lia).
  cbn [andb]. do 2 f_equal. lia.
Qed.

Lemma reads_as_integer n s e :
  0 <= e -> s * 10 ^ e < 2 ^ 53 -> reads_as false (Int n) (s, e) = true ->
  1 <= s /\ s * 10 ^ e = n.
Proof.
  intros He Hlt. unfold reads_as. cbn [fst snd].
  intros [Hs Hx%bool_decide_eq_true]%andb_prop. apply Z.leb_le in Hs.
  split; [done|]. unfold nearest_decimal in Hx.
  replace (Z.max 0 e) with e in Hx by lia. replace (Z.max 0 (- e)) with 0 in Hx by lia.
  change (10 ^ 0) with 1 in Hx.
  assert (0 < 10 ^ e) by (apply Z.pow_pos_nonneg; lia).
  rewrite nearest_small in Hx by nia. cbn [signed] in Hx. by injection Hx.
Qed.

Lemma shortest_integer fuel n N k :
  1 <= n -> 10 * n < 2 ^ 53 -> 10 ^ (N - 1) <= n < 10 ^ N ->
  1 <= k -> k + Z.of_nat fuel <= N - 1 + 1 ->
  let c := shortest fuel false n 1 (Int n) N k (n, 0) in
  1 <= fst c /\ 0 <= snd c /\ fst c * 10 ^ snd c = n.
Proof.
  intros Hn Hbig HN. revert k. induction fuel as [|fuel IH]; intros k Hk Hfuel.
  { cbn [shortest fst snd]. change (10 ^ 0) with 1. lia. }
  rewrite shortest_S. cbv zeta.
  replace (Z.max 0 (- (N - k))) with 0 by lia.
  replace (Z.max 0 (N - k)) with (N - k) by lia.
  change (10 ^ 0) with 1. rewrite Z.mul_1_r, Z.mul_1_l.
  assert (H10 : 0 < 10 ^ (N - k)) by (apply Z.pow_pos_nonneg; lia).
  assert (Hpow : 10 ^ (N - k) <= 10 ^ (N - 1)) by (apply Z.pow_le_mono_r; lia).
  assert (HNpow : 10 ^ N = 10 * 10 ^ (N - 1)).
  { rewrite <- Z.pow_succ_r by lia. f_equal. lia. }
  pose proof (Z.mul_div_le n (10 ^ (N - k)) H10) as Hfloor.
  assert (Hlo : reads_as false (Int n) (n / 10 ^ (N - k), N - k) = true ->
                1 <= n / 10 ^ (N - k) /\ n / 10 ^ (N - k) * 10 ^ (N - k) = n).
  { apply reads_as_integer; [lia|]. nia. }
  set (hi := if n / 10 ^ (N - k) + 1 =? 10 ^ k then (1, N)
             else (n / 10 ^ (N - k) + 1, N - k)).
  assert (Hhi : reads_as false (Int n) hi = true ->
                1 <= fst hi /\ 0 <= snd hi /\ fst hi * 10 ^ snd hi = n).
  { subst hi. destruct (_ =? _).
    - intros [? ?]%reads_as_integer; cbn [fst snd]; lia.
    - intros [? ?]%reads_as_integer; cbn [fst snd]; [lia|lia|nia]. }
  destruct (reads_as false (Int n) (n / 10 ^ (N - k), N - k)) eqn:Elo,
           (reads_as false (Int n) hi) eqn:Ehi; cbn [andb].
  - match goal with |- context [if ?b then _ else _] => destruct b end;
      cbn [fst snd]; [destruct Hlo; [done|]; lia|by apply Hhi].
  - cbn [fst snd]. destruct Hlo; [done|]. lia.
  - by apply Hhi.
  - apply IH; lia.
Qed.

Lemma exponent_up_spec fuel p n :
  1 <= n -> 10 ^ (n - 1) <= p < 10 ^ (n + Z.of_nat fuel) ->
  10 ^ (exponent_up fuel p 1 n - 1) <= p < 10 ^ exponent_up fuel p 1 n.
Proof.
  revert n. induction fuel as [|fuel IH]; intros n Hn Hp; cbn [exponent_up].
  - by rewrite Z.add_0_r in Hp.
  - destruct (Z.ltb_spec p (1 * 10 ^ n)) as [Hlt|Hge]; [lia|].
    apply IH; [lia|]. replace (n + 1 - 1) with n by lia.
    replace (n + 1 + Z.of_nat fuel) with (n + Z.of_nat (S fuel)) by lia. lia.
Qed.

(** The text of an integer that has no more digits than an array index is
    its decimal digits. *)
Lemma Number_toString_index n :
  0 <= n < 2 ^ 32 -> Number_toString (Int n) = decimal n.
Proof.
  intros Hn. cbn [Number_toString]. unfold decimal.
  replace (n <? 0) with false by (symmetry; apply Z.ltb_ge; lia).
  destruct (Z.eqb_spec n 0) as [->|Hne]; [done|].
  f_equal. unfold finite_text, shortest_digits. cbn [app].
  replace (Z.abs n) with n by lia.
  set (N := decimal_exponent n 1).
  assert (HN : 10 ^ (N - 1) <= n < 10 ^ N).
  { subst N. unfold decimal_exponent.
    replace (1 <=? n) with true by (symmetry; apply Z.leb_le; lia).
    apply exponent_up_spec; [lia|]. change (10 ^ (1 - 1)) with 1. split; [lia|].
    pose proof (Z.log2_spec n) as Hlog. pose proof (Z.log2_nonneg n) as Hpos.
    rewrite Nat2Z.inj_succ, Z2Nat.id by done.
    assert (2 ^ Z.succ (Z.log2 n) <= 10 ^ Z.succ (Z.log2 n))
      by (apply Z.pow_le_mono_l; lia).
    assert (10 ^ Z.succ (Z.log2 n) <= 10 ^ (1 + Z.succ (Z.log2 n)))
      by (apply Z.pow_le_mono_r; lia).
    lia. }
  assert (H1N : 1 <= N).
  { destruct (Z.le_gt_cases 1 N) as [|Hlt]; [done|].
    assert (10 ^ N <= 10 ^ 0) by (apply Z.pow_le_mono_r; lia).
    change (10 ^ 0) with 1 in *. lia. }
  change (10 ^ 0) with 1. rewrite Z.mul_1_r, Z.div_1_r. change (- 0) with 0.
  destruct (shortest_integer (Z.to_nat (N + 0 - 1)) n N 1) as (Hs & He & Hv);
    [lia|lia|done|lia|lia|].
  rewrite format_integer by (rewrite ?Hv; lia). by rewrite Hv.
Qed.

End number_facts.
(** ** JSON text: what [JSON.stringify] writes, [JSON.parse] reads back *)

Lemma value_ind' (P : value -> Prop) :
  P JNull -> (forall b, P (JBool b)) -> (forall n, P (JNum n)) ->
  (forall s, P (JStr s)) ->
  (forall l, Forall P l -> P (JArr l)) ->
  (forall m, Forall (fun kv => P (snd kv)) m -> P (JObj m)) ->
  forall v, P v.
Proof.
  intros HN HB HZ HS HA HO. fix IH 1. intros [|b|n|s|l|m].
  - exact HN.
  - apply HB.
  - apply HZ.
  - apply HS.
  - apply HA. induction l as [|x l IHl]; constructor; [apply IH|exact IHl].
  - apply HO. induction m as [|[k x] m IHm]; constructor; [apply IH|exact IHm].
Qed.

Lemma well_formed_arr l : well_formed (JArr l) <-> Forall well_formed l.
Proof.
  cbn. induction l as [|x l IH]; [by split|].
  cbn. rewrite Forall_cons. by rewrite IH.
Qed.

Lemma well_formed_obj m :
  well_formed (JObj m) <-> NoDup (fst <$> m) /\ Forall (fun kv => well_formed (snd kv)) m.
Proof.
  cbn. apply and_iff_compat_l. induction m as [|x m IH]; [by split|].
  cbn. rewrite Forall_cons. by rewrite IH.
Qed.

Section json_text.
Local Open Scope char_scope.

Lemma skip_ws_newline n s : skip_ws (newline n ++ s) = skip_ws s.
Proof.
  unfold newline. cbn. induction (n + (n + 0)) as [|k IH]; [done|]. by cbn.
Qed.

Lemma parse_string_body_escape c r :
  parse_string_body (escape c ++ r) = prepend c (parse_string_body r).
Proof.
  destruct c as [[] [] [] [] [] [] [] []]; reflexivity.
Qed.

Lemma parse_string_body_quoted cs r :
  parse_string_body (flat_map escape cs ++ dquote :: r)
  = Some (string_of_list_ascii cs, r).
Proof.
  induction cs as [|c cs IH]; [done|].
  cbn [flat_map]. rewrite <- app_assoc, parse_string_body_escape, IH. done.
Qed.

Lemma QuoteJSONString_parse s r :
  exists q, QuoteJSONString s ++ r = dquote :: q /\
            parse_string_body q = Some (s, r).
Proof.
  exists (flat_map escape (chars s) ++ dquote :: r). split.
  - unfold QuoteJSONString. cbn [app]. by rewrite <- app_assoc.
  - rewrite parse_string_body_quoted. unfold chars.
    by rewrite string_of_list_ascii_of_string.
Qed.

Lemma parse_value_number_head fuel c r :
  c = "-" \/ is_digit c = true ->
  parse_value (S fuel) (c :: r)
  = option_map (fun p => (JNum (fst p), snd p)) (parse_number (c :: r)).
Proof.
  destruct c as [[] [] [] [] [] [] [] []]; intros [H|H];
    try discriminate H; reflexivity.
Qed.

(** Unfolding the parser at the character it meets *)

Lemma skip_ws_idem s : skip_ws (skip_ws s) = skip_ws s.
Proof.
  induction s as [|c s IH]; [done|]. cbn. destruct (is_ws c) eqn:Hc; [done|].
  cbn. by rewrite Hc.
Qed.

Lemma parse_value_ws fuel s : parse_value fuel s = parse_value fuel (skip_ws s).
Proof. destruct fuel; [done|]. cbn [parse_value]. by rewrite skip_ws_idem. Qed.

Lemma parse_value_newline fuel n s :
  parse_value fuel (newline n ++ s) = parse_value fuel s.
Proof. by rewrite parse_value_ws, skip_ws_newline, <- parse_value_ws. Qed.

Lemma parse_value_string fuel r :
  parse_value (S fuel) (dquote :: r)
  = option_map (fun p => (JStr (fst p), snd p)) (parse_string_body r).
Proof. reflexivity. Qed.

Lemma parse_value_array fuel r :
  parse_value (S fuel) ("[" :: r)
  = match skip_ws r with
    | c' :: r' =>
        if Ascii.eqb c' "]" then Some (JArr [], r')
        else option_map (fun p => (JArr (fst p), snd p))
                        (parse_elements fuel (c' :: r'))
    | [] => None
    end.
Proof. reflexivity. Qed.

Lemma parse_value_object fuel r :
  parse_value (S fuel) ("{" :: r)
  = match skip_ws r with
    | c' :: r' =>
        if Ascii.eqb c' "}" then Some (JObj [], r')
        else option_map (fun p => (build_object (fst p), snd p))
                        (parse_members fuel (c' :: r'))
    | [] => None
    end.
Proof. reflexivity. Qed.

Lemma parse_elements_S fuel s :
  parse_elements (S fuel) s
  = match parse_value fuel s with
    | None => None
    | Some (v, r) =>
        match skip_ws r with
        | c :: r' =>
            if Ascii.eqb c "," then
              option_map (fun p => (v :: fst p, snd p)) (parse_elements fuel r')
            else if Ascii.eqb c "]" then Some ([v], r')
            else None
        | [] => None
        end
    end.
Proof. reflexivity. Qed.

Lemma parse_elements_newline fuel n s :
  parse_elements fuel (newline n ++ s) = parse_elements fuel s.
Proof. destruct fuel; [done|]. by rewrite !parse_elements_S, parse_value_newline. Qed.

Lemma parse_members_S fuel k r0 r1 :
  parse_string_body r0 = Some (k, ":" :: " " :: r1) ->
  parse_members (S fuel) (dquote :: r0)
  = match parse_value fuel r1 with
    | None => None
    | Some (v, r) =>
        match skip_ws r with
        | c :: r' =>
            if Ascii.eqb c "," then
              option_map (fun p => ((k, v) :: fst p, snd p)) (parse_members fuel r')
            else if Ascii.eqb c "}" then Some ([(k, v)], r')
            else None
        | [] => None
        end
    end.
Proof.
  intros Hk. cbn [parse_members skip_ws]. change (is_ws dquote) with false. cbv iota.
  change (Ascii.eqb dquote dquote) with true. cbv iota. rewrite Hk.
  cbn [skip_ws]. change (is_ws ":") with false. cbv iota.
  change (Ascii.eqb ":" ":") with true. cbv iota.
  rewrite (parse_value_ws fuel (" " :: r1)).
  change (skip_ws (" " :: r1)) with (skip_ws r1). by rewrite <- parse_value_ws.
Qed.

Lemma parse_members_ws fuel s : parse_members fuel s = parse_members fuel (skip_ws s).
Proof. destruct fuel; [done|]. cbn [parse_members]. by rewrite skip_ws_idem. Qed.

Lemma parse_members_newline fuel n s :
  parse_members fuel (newline n ++ s) = parse_members fuel s.
Proof. by rewrite parse_members_ws, skip_ws_newline, <- parse_members_ws. Qed.

Lemma number_text_head x :
  exists c cs,
    SerializeJSONProperty 0 (JNum x) = c :: cs /\
    (c = "n" \/ c = "-" \/ is_digit c = true).
Proof.
  destruct (decide (exists negative, x = Infinity negative)) as [[negative ->]|Hfin].
  - eexists _, _. split; [reflexivity|by left].
  - destruct (Number_toString_parse x) as (y & Hy & _).
    { intros negative ->. apply Hfin. by eexists. }
    specialize (Hy [] I). rewrite app_nil_r in Hy.
    destruct (parse_number_head _ _ _ Hy) as (c & cs & Heq & Hc).
    exists c, cs. split; [|by right].
    destruct x; try done. exfalso. apply Hfin. by eexists.
Qed.

Lemma serialize_head indent v rest :
  value_head (SerializeJSONProperty indent v ++ rest).
Proof.
  destruct v as [|[]|x|s|l|m]; try done.
  - destruct (number_text_head x) as (c & cs & Heq & Hc).
    change (SerializeJSONProperty indent (JNum x)) with (SerializeJSONProperty 0 (JNum x)).
    rewrite Heq. cbn.
    destruct Hc as [->|[->|Hc]]; [done|done|].
    destruct c as [[] [] [] [] [] [] [] []]; try discriminate Hc; done.
  - cbn [SerializeJSONProperty]. unfold wrap. by destruct (List.map _ l).
  - cbn [SerializeJSONProperty]. unfold wrap. by destruct (List.map _ m).
Qed.

Lemma skip_ws_value_head s : value_head s -> skip_ws s = s.
Proof. destruct s as [|c s]; [done|]. cbn. by intros [-> _]. Qed.

Lemma parse_elements_join l indent rest fuel :
  Forall reads_back l -> l <> [] ->
  fold_right (fun x acc => S (size x) + acc) 0 l <= fuel ->
  parse_elements fuel
    (join ("," :: newline (S indent)) (List.map (SerializeJSONProperty (S indent)) l)
       ++ newline indent ++ "]" :: rest)
  = Some (List.map reread l, rest).
Proof.
  intros Hl. revert fuel. induction Hl as [|x l Hx Hl IH]; [done|].
  intros fuel _ Hfuel. cbn [fold_right] in Hfuel.
  destruct fuel as [|fuel]; [lia|]. rewrite parse_elements_S.
  destruct l as [|y l].
  - cbn [List.map join]. rewrite Hx by (done || cbn; lia).
    rewrite skip_ws_newline. reflexivity.
  - change (join ?sep (List.map ?f (x :: y :: l)))
      with (f x ++ sep ++ join sep (List.map f (y :: l))).
    rewrite <- !app_assoc. rewrite Hx by (done || cbn; lia).
    cbn [app skip_ws]. change (is_ws ",") with false. cbv iota.
    change (Ascii.eqb "," ",") with true. cbv iota.
    rewrite parse_elements_newline, IH by (done || cbn in *; lia). done.
Qed.

Lemma parse_members_join (m : list (string * value)) indent rest fuel :
  Forall (fun kv => reads_back (snd kv)) m -> m <> [] ->
  fold_right (fun kv acc => S (size (snd kv)) + acc) 0 m <= fuel ->
  parse_members fuel
    (join ("," :: newline (S indent)) (List.map (member_text indent) m)
       ++ newline indent ++ "}" :: rest)
  = Some (List.map (fun kv => (fst kv, reread (snd kv))) m, rest).
Proof.
  intros Hm. revert fuel. induction Hm as [|[k x] m Hx Hm IH]; [done|].
  intros fuel _ Hfuel. cbn [fold_right snd] in Hfuel. cbn [snd] in Hx.
  destruct fuel as [|fuel]; [lia|].
  destruct m as [|y m].
  - cbn [List.map join]. unfold member_text. cbn [fst snd].
    rewrite <- app_assoc. cbn [app].
    destruct (QuoteJSONString_parse k
      (":" :: " " :: SerializeJSONProperty (S indent) x ++ newline indent ++ "}" :: rest))
      as (q & -> & Hq).
    rewrite (parse_members_S _ _ _ _ Hq), Hx by (done || cbn; lia).
    rewrite skip_ws_newline. reflexivity.
  - change (join ?sep (List.map ?f ((k, x) :: y :: m)))
      with (f (k, x) ++ sep ++ join sep (List.map f (y :: m))).
    unfold member_text at 1. cbn [fst snd].
    rewrite <- !app_assoc. cbn [app]. rewrite <- ?app_assoc.
    match goal with |- context [QuoteJSONString k ++ ?r] =>
      destruct (QuoteJSONString_parse k r) as (q & -> & Hq) end.
    rewrite (parse_members_S _ _ _ _ Hq), Hx by (done || cbn; lia).
    cbn [app skip_ws]. change (is_ws ",") with false. cbv iota.
    change (Ascii.eqb "," ",") with true. cbv iota.
    rewrite parse_members_newline, IH by (done || cbn in *; lia). done.
Qed.

Lemma build_object_NoDup m : NoDup (fst <$> m) -> build_object m = JObj m.
Proof.
  unfold build_object. intros Hm. f_equal.
  assert (Hgen : forall acc, NoDup (fst <$> (acc ++ m)) ->
            fold_left (fun m kv => set_own m (fst kv) (snd kv)) m acc = acc ++ m);
    [|by apply (Hgen [])].
  clear Hm. induction m as [|[k v] m IH]; intros acc Hnd; cbn.
  - by rewrite app_nil_r.
  - rewrite set_own_fresh.
    + rewrite IH; rewrite <- app_assoc; done.
    + apply get_own_None. rewrite fmap_app in Hnd.
      apply NoDup_app in Hnd as (_ & Hdis & _). intros Hin.
      apply (Hdis _ Hin). cbn. left.
Qed.

Lemma reread_keys (m : list (string * value)) :
  fst <$> List.map (fun kv => (fst kv, reread (snd kv))) m = fst <$> m.
Proof. induction m as [|[k v] m IH]; [done|]. cbn. by f_equal. Qed.

Lemma serialize_parse v : well_formed v -> reads_back v.
Proof.
  induction v as [|b|x|s|l IH|m IH] using value_ind'; intros Hwf fuel indent rest Hfuel Hrest;
    (destruct fuel as [|fuel]; [cbn in Hfuel; lia|]).
  - reflexivity.
  - by destruct b.
  - destruct (decide (exists negative, x = Infinity negative)) as [[negative ->]|Hfin];
      [reflexivity|].
    assert (Hfin' : forall negative, x <> Infinity negative).
    { intros negative ->. apply Hfin. by eexists. }
    destruct (Number_toString_parse x Hfin') as (y & Hy & _).
    cbn [reread]. rewrite (reread_number_finite x y Hfin' Hy).
    replace (SerializeJSONProperty indent (JNum x)) with (chars (Number_toString x))
      by (destruct x; try done; by destruct (Hfin' negative)).
    pose proof (Hy rest Hrest) as Hp.
    destruct (parse_number_head _ _ _ Hp) as (c & cs & Heq & Hc).
    rewrite Heq in Hp |- *. by rewrite parse_value_number_head, Hp.
  - cbn [SerializeJSONProperty].
    destruct (QuoteJSONString_parse s rest) as (q & -> & Hq).
    by rewrite parse_value_string, Hq.
  - apply well_formed_arr in Hwf.
    assert (Hl : Forall reads_back l).
    { apply Forall_forall. intros x Hx. rewrite Forall_forall in IH, Hwf.
      apply IH; auto. }
    cbn [SerializeJSONProperty reread]. cbn [size] in Hfuel. unfold wrap.
    destruct l as [|x l]; [reflexivity|].
    remember (x :: l) as l' eqn:El.
    destruct (List.map (SerializeJSONProperty _) l') eqn:Emap; [by subst l'|].
    rewrite <- Emap. clear Emap.
    cbn [app]. rewrite parse_value_array, <- !app_assoc, skip_ws_newline.
    pose proof (parse_elements_join l' indent rest fuel Hl) as Hp.
    assert (Hhead : value_head
      (join ("," :: newline (S indent)) (List.map (SerializeJSONProperty (S indent)) l')
         ++ newline indent ++ "]" :: rest)).
    { subst l'. destruct l as [|y l]; cbn [List.map join];
        rewrite <- ?app_assoc; apply serialize_head. }
    rewrite skip_ws_value_head by done.
    cbn [app] in Hp |- *.
    destruct (join _ _ ++ _) as [|c r] eqn:Ej; [done|].
    destruct Hhead as (_ & -> & _). rewrite Hp; [done|by subst l'|lia].
  - apply well_formed_obj in Hwf as [Hnd Hwf].
    assert (Hm : Forall (fun kv => reads_back (snd kv)) m).
    { apply Forall_forall. intros x Hx. rewrite Forall_forall in IH, Hwf.
      apply IH; auto. }
    cbn [SerializeJSONProperty reread]. cbn [size] in Hfuel. unfold wrap.
    destruct m as [|x m]; [reflexivity|].
    remember (x :: m) as m' eqn:El.
    fold (member_text indent).
    destruct (List.map (member_text indent) m') eqn:Emap; [by subst m'|].
    rewrite <- Emap. clear Emap.
    cbn [app]. rewrite parse_value_object, <- !app_assoc, skip_ws_newline.
    pose proof (parse_members_join m' indent rest fuel Hm) as Hp.
    assert (Hhead : value_head
      (join ("," :: newline (S indent)) (List.map (member_text indent) m')
         ++ newline indent ++ "}" :: rest)).
    { subst m'. destruct m as [|y m]; cbn [List.map join]; done. }
    rewrite skip_ws_value_head by done.
    destruct (join _ _ ++ _) as [|c r] eqn:Ej; [done|].
    destruct Hhead as (_ & _ & ->). rewrite Hp; [|by subst m'|lia].
    cbn. rewrite build_object_NoDup; [done|]. by rewrite reread_keys.
Qed.

Lemma join_length sep (partial : list (list ascii)) :
  1 <= length sep ->
  fold_right (fun x acc => S (length x) + acc) 0 partial
  <= S (length (join sep partial)).
Proof.
  intros Hsep. induction partial as [|x [|y partial] IH]; cbn [fold_right join] in *.
  - lia.
  - lia.
  - rewrite !length_app. lia.
Qed.

Lemma wrap_length open close indent partial :
  fold_right (fun x acc => S (length x) + acc) 0 partial
  < length (wrap open close indent partial).
Proof.
  unfold wrap. destruct partial as [|x partial]; [cbn; lia|].
  pose proof (join_length ("," :: newline (S indent)) (x :: partial)) as Hj.
  cbn [length] in *. rewrite !length_app. cbn [length] in *. lia.
Qed.

Lemma size_le_length v indent : size v <= length (SerializeJSONProperty indent v).
Proof.
  revert indent.
  induction v as [|b|x|s|l IH|m IH] using value_ind'; intros indent.
  - cbn. lia.
  - destruct b; cbn; lia.
  - destruct (number_text_head x) as (c & cs & Heq & _).
    change (SerializeJSONProperty indent (JNum x)) with (SerializeJSONProperty 0 (JNum x)).
    rewrite Heq. cbn. lia.
  - cbn [SerializeJSONProperty size]. unfold QuoteJSONString. cbn. lia.
  - cbn [SerializeJSONProperty size].
    pose proof (wrap_length "[" "]" indent (List.map (SerializeJSONProperty (S indent)) l)) as Hw.
    enough (fold_right (fun x acc => S (size x) + acc) 0 l
            <= fold_right (fun x acc => S (length x) + acc) 0
                 (List.map (SerializeJSONProperty (S indent)) l)) by lia.
    clear Hw. induction IH as [|x l Hx _ IHl]; cbn [fold_right List.map]; [lia|].
    specialize (Hx (S indent)). lia.
  - cbn [SerializeJSONProperty size].
    match goal with |- _ <= length (wrap _ _ _ ?partial) =>
      pose proof (wrap_length "{" "}" indent partial) as Hw;
      enough (fold_right (fun kv acc => S (size (snd kv)) + acc) 0 m
              <= fold_right (fun x acc => S (length x) + acc) 0 partial) by lia
    end.
    clear Hw. induction IH as [|[k x] m Hx _ IHm]; cbn [fold_right List.map fst snd]; [lia|].
    specialize (Hx (S indent)). cbn [snd] in Hx. rewrite length_app. cbn [length]. lia.
Qed.

Lemma length_string_of_list_ascii l :
  String.length (string_of_list_ascii l) = length l.
Proof. induction l as [|c l IH]; cbn; congruence. Qed.

(** Whatever well-formed value [JSON.stringify] is given, [JSON.parse]
    reads its text: the same value but for the numbers, each of which is
    what its own text is read as. *)
Lemma JSON_parse_stringify v :
  well_formed v -> JSON.parse (JSON.stringify v) = Some (reread v).
Proof.
  intros Hwf. unfold JSON.parse, JSON.stringify, chars.
  rewrite list_ascii_of_string_of_list_ascii, length_string_of_list_ascii.
  pose proof (serialize_parse v Hwf (S (2 * length (SerializeJSONProperty 0 v))) 0 [])
    as Hp.
  rewrite app_nil_r in Hp. rewrite Hp; [done| |done].
  pose proof (size_le_length v 0). lia.
Qed.

Example parse_skips_whitespace :
  JSON.parse " [1 , -20 ,true, null ] "
  = Some (JArr [JNum (Int 1); JNum (Int (-20)); JBool true; JNull]).
Proof. vm_compute. reflexivity. Qed.

Example parse_refuses_trailing_comma : JSON.parse "[1,]" = None.
Proof. vm_compute. reflexivity. Qed.

Example parse_refuses_leading_zero : JSON.parse "[01]" = None.
Proof. vm_compute. reflexivity. Qed.
End json_text.

(** *** Fuel *)

Section fuel.
Local Open Scope char_scope.

Lemma skip_ws_length s : length (skip_ws s) <= length s.
Proof. induction s as [|c s IH]; cbn; [lia|]. destruct (is_ws c); cbn; lia. Qed.

Lemma skip_ws_cons s c r : skip_ws s = c :: r -> length r < length s.
Proof. intros H. pose proof (skip_ws_length s) as Hl. rewrite H in Hl. cbn in Hl. lia. Qed.

Lemma strip_prefix_length p s r : strip_prefix p s = Some r -> length r <= length s.
Proof.
  revert s. induction p as [|a p IH]; intros [|b s]; cbn; try done.
  - by intros [= <-].
  - by intros [= <-].
  - destruct (Ascii.eqb a b); [|done]. intros H%IH. lia.
Qed.

Lemma parse_string_body_length s k r :
  parse_string_body s = Some (k, r) -> length r < length s.
Proof.
  revert k. induction s as [s IH] using (induction_ltof1 _ (@length ascii)).
  unfold ltof in IH. intros k. destruct s as [|c s]; [done|]. cbn [parse_string_body].
  repeat case_match; try done; subst; unfold prepend;
    try (intros [= <- <-]; cbn; lia);
    try (destruct (parse_string_body _) as [[k' r']|] eqn:Hb; [|done];
         intros [= <- <-]; apply IH in Hb; cbn in *; lia).
Qed.

Lemma take_digits_length s ds r :
  take_digits s = (ds, r) -> length ds + length r = length s.
Proof.
  revert ds. induction s as [|c s IH]; intros ds; cbn.
  - by intros [= <- <-].
  - destruct (is_digit c); [|by intros [= <- <-]].
    destruct (take_digits s) as [ds' r'] eqn:Ht. intros [= <- <-].
    specialize (IH _ eq_refl). cbn. lia.
Qed.

Lemma parse_digits_length s ds r : parse_digits s = Some (ds, r) -> length r < length s.
Proof.
  unfold parse_digits. destruct (take_digits s) as [ds' r'] eqn:Ht.
  apply take_digits_length in Ht.
  repeat case_match; try done; intros [= <- <-]; subst; cbn in Ht; lia.
Qed.

Lemma parse_fraction_length s ds r : parse_fraction s = Some (ds, r) -> length r <= length s.
Proof.
  unfold parse_fraction. destruct s as [|c s]; [by intros [= <- <-]|].
  destruct (Ascii.eqb c "."); [|by intros [= <- <-]].
  destruct (take_digits s) as [ds' r'] eqn:Ht. apply take_digits_length in Ht.
  destruct ds'; [done|]. intros [= <- <-]. cbn in *. lia.
Qed.

Lemma parse_exponent_length s e r : parse_exponent s = Some (e, r) -> length r <= length s.
Proof.
  unfold parse_exponent. destruct s as [|c s]; [by intros [= <- <-]|].
  destruct (Ascii.eqb c "e" || Ascii.eqb c "E"); [|by intros [= <- <-]].
  assert (Hs : length (snd (parse_sign s)) <= length s).
  { unfold parse_sign. destruct s as [|c' s']; [done|].
    repeat case_match; cbn; lia. }
  destruct (parse_sign s) as [negative r1]. cbn [snd] in Hs.
  destruct (take_digits r1) as [ds' r'] eqn:Ht. apply take_digits_length in Ht.
  destruct ds'; [done|]. intros [= <- <-]. cbn in *. lia.
Qed.

Lemma parse_number_length s n r : parse_number s = Some (n, r) -> length r < length s.
Proof.
  unfold parse_number.
  assert (Hgen : forall s1, length s1 <= length s ->
            match parse_digits s1 with
            | Some (di, r1) =>
                match parse_fraction r1 with
                | Some (df, r2) =>
                    match parse_exponent r2 with
                    | Some (e, r3) => length r3 < length s
                    | None => True
                    end
                | None => True
                end
            | None => True
            end).
  { intros s1 Hs1. destruct (parse_digits s1) as [[di r1]|] eqn:Hd; [|done].
    apply parse_digits_length in Hd.
    destruct (parse_fraction r1) as [[df r2]|] eqn:Hf; [|done].
    apply parse_fraction_length in Hf.
    destruct (parse_exponent r2) as [[e r3]|] eqn:He; [|done].
    apply parse_exponent_length in He. lia. }
  destruct s as [|c s]; [done|]. destruct (Ascii.eqb c "-").
  - specialize (Hgen s ltac:(cbn; lia)).
    destruct (parse_digits s) as [[di r1]|]; [|done].
    destruct (parse_fraction r1) as [[df r2]|]; [|done].
    destruct (parse_exponent r2) as [[e r3]|]; [|done]. by intros [= <- <-].
  - specialize (Hgen (c :: s) ltac:(lia)).
    destruct (parse_digits (c :: s)) as [[di r1]|]; [|done].
    destruct (parse_fraction r1) as [[df r2]|]; [|done].
    destruct (parse_exponent r2) as [[e r3]|]; [|done]. by intros [= <- <-].
Qed.

(** Every value, element list and member list read takes characters off
    the text. *)
Lemma parse_consumes fuel :
  (forall s v r, parse_value fuel s = Some (v, r) -> length r < length s) /\
  (forall s l r, parse_elements fuel s = Some (l, r) -> length r < length s) /\
  (forall s m r, parse_members fuel s = Some (m, r) -> length r < length s).
Proof.
  induction fuel as [|fuel (IHv & IHe & IHm)]; [done|]. split_and!.
  - intros s v r. cbn [parse_value].
    destruct (skip_ws s) as [|c r0] eqn:Hs; [done|]. apply skip_ws_cons in Hs.
    repeat case_match; try done; subst;
      try (match goal with |- context [strip_prefix ?p ?t] =>
             destruct (strip_prefix p t) eqn:Hp end;
           cbn [option_map]; [intros [= <- <-]|done];
           apply strip_prefix_length in Hp; lia).
    + destruct (parse_string_body _) as [[]|] eqn:Hb; cbn [option_map fst snd]; [intros [= <- <-]|done].
      apply parse_string_body_length in Hb. lia.
    + intros [= <- <-].
      match goal with H : skip_ws _ = _ |- _ => apply skip_ws_cons in H end. lia.
    + destruct (parse_elements _ _) as [[? ?]|] eqn:He; cbn [option_map fst snd]; [intros [= <- <-]|done].
      apply IHe in He.
      match goal with H : skip_ws _ = _ |- _ => apply skip_ws_cons in H end.
      cbn in He. lia.
    + intros [= <- <-].
      match goal with H : skip_ws _ = _ |- _ => apply skip_ws_cons in H end. lia.
    + destruct (parse_members _ _) as [[? ?]|] eqn:Hm; cbn [option_map fst snd]; [intros [= <- <-]|done].
      apply IHm in Hm.
      match goal with H : skip_ws _ = _ |- _ => apply skip_ws_cons in H end.
      cbn in Hm. lia.
    + destruct (parse_number _) as [[]|] eqn:Hn; cbn [option_map fst snd]; [intros [= <- <-]|done].
      apply parse_number_length in Hn. cbn in Hn. lia.
  - intros s l r. rewrite parse_elements_S.
    destruct (parse_value fuel s) as [[v r0]|] eqn:Hv; [|done]. apply IHv in Hv.
    destruct (skip_ws r0) as [|c r'] eqn:Hs; [done|]. apply skip_ws_cons in Hs.
    repeat case_match; try done.
    + destruct (parse_elements fuel _) as [[? ?]|] eqn:He; cbn [option_map fst snd]; [intros [= <- <-]|done].
      apply IHe in He. lia.
    + intros [= <- <-]. lia.
  - intros s m r. cbn [parse_members].
    destruct (skip_ws s) as [|q r0] eqn:Hs; [done|]. apply skip_ws_cons in Hs.
    destruct (Ascii.eqb q dquote); [|done].
    destruct (parse_string_body r0) as [[k r1]|] eqn:Hk; [|done].
    apply parse_string_body_length in Hk.
    destruct (skip_ws r1) as [|colon r2] eqn:Hs1; [done|]. apply skip_ws_cons in Hs1.
    destruct (Ascii.eqb colon ":"); [|done].
    destruct (parse_value fuel r2) as [[v r3]|] eqn:Hv; [|done]. apply IHv in Hv.
    destruct (skip_ws r3) as [|c r'] eqn:Hs3; [done|]. apply skip_ws_cons in Hs3.
    repeat case_match; try done.
    + destruct (parse_members fuel _) as [[? ?]|] eqn:Hm; cbn [option_map fst snd]; [intros [= <- <-]|done].
      apply IHm in Hm. lia.
    + intros [= <- <-]. lia.
Qed.

(** More fuel than twice the length of the text changes nothing: a text
    [parse_value] refuses is refused for what it is. *)
Lemma parse_fuel fuel :
  (forall s fuel', 2 * length s < fuel -> 2 * length s < fuel' ->
     parse_value fuel s = parse_value fuel' s) /\
  (forall s fuel', 2 * length s + 1 < fuel -> 2 * length s + 1 < fuel' ->
     parse_elements fuel s = parse_elements fuel' s) /\
  (forall s fuel', 2 * length s + 1 < fuel -> 2 * length s + 1 < fuel' ->
     parse_members fuel s = parse_members fuel' s).
Proof.
  induction fuel as [|fuel (IHv & IHe & IHm)]; [split_and!; intros; lia|]. split_and!.
  - intros s [|fuel'] Hf Hf'; [lia|]. cbn [parse_value].
    destruct (skip_ws s) as [|c r0] eqn:Hs; [done|]. apply skip_ws_cons in Hs.
    repeat (case_match; try done).
    + match goal with H : skip_ws _ = _ |- _ => apply skip_ws_cons in H end.
      rewrite (IHe _ fuel'); [done|cbn; lia..].
    + match goal with H : skip_ws _ = _ |- _ => apply skip_ws_cons in H end.
      rewrite (IHm _ fuel'); [done|cbn; lia..].
  - intros s [|fuel'] Hf Hf'; [lia|]. rewrite !parse_elements_S.
    rewrite (IHv s fuel') by lia.
    destruct (parse_value fuel' s) as [[v r0]|] eqn:Hv; [|done].
    apply (proj1 (parse_consumes _)) in Hv.
    destruct (skip_ws r0) as [|c r'] eqn:Hs; [done|]. apply skip_ws_cons in Hs.
    repeat (case_match; try done). rewrite (IHe _ fuel'); [done|lia..].
  - intros s [|fuel'] Hf Hf'; [lia|]. cbn [parse_members].
    destruct (skip_ws s) as [|q r0] eqn:Hs; [done|]. apply skip_ws_cons in Hs.
    destruct (Ascii.eqb q dquote); [|done].
    destruct (parse_string_body r0) as [[k r1]|] eqn:Hk; [|done].
    apply parse_string_body_length in Hk.
    destruct (skip_ws r1) as [|colon r2] eqn:Hs1; [done|]. apply skip_ws_cons in Hs1.
    destruct (Ascii.eqb colon ":"); [|done].
    rewrite (IHv r2 fuel') by lia.
    destruct (parse_value fuel' r2) as [[v r3]|] eqn:Hv; [|done].
    apply (proj1 (parse_consumes _)) in Hv.
    destruct (skip_ws r3) as [|c r'] eqn:Hs3; [done|]. apply skip_ws_cons in Hs3.
    repeat (case_match; try done). rewrite (IHm _ fuel'); [done|lia..].
Qed.

(** [JSON.parse] with any larger fuel gives the same answer. *)
Lemma JSON_parse_fuel text fuel :
  2 * String.length text < fuel ->
  JSON.parse text
  = match parse_value fuel (chars text) with
    | Some (v, r) => match skip_ws r with [] => Some v | _ => None end
    | None => None
    end.
Proof.
  intros Hf. unfold JSON.parse.
  assert (Hl : length (chars text) = String.length text).
  { unfold chars. rewrite <- (string_of_list_ascii_of_string text) at 2.
    by rewrite length_string_of_list_ascii. }
  rewrite (proj1 (parse_fuel _) (chars text) fuel); [done|lia..].
Qed.
End fuel.

(** ** The handler on triage states *)

Lemma has_idb_true id f : has_idb id f = true <-> has_id id f.
Proof.
  unfold has_idb, has_id, id_of. destruct (get_own f "id") as [[]|]; try (split; [discriminate|congruence]).
  destruct (String.eqb_spec s id); split; intros; congruence.
Qed.

Lemma has_idb_Is_true id f : Is_true (has_idb id f) <-> has_id id f.
Proof. rewrite Is_true_true. apply has_idb_true. Qed.

Lemma get_encode s b :
  get (encode s) (name b) = Normal (Some (JArr (JObj <$> bucket b s))).
Proof. by destruct b. Qed.

Lemma mutated_encode s b l :
  mutated (encode s) (name b) (JObj <$> l) = encode (set_bucket b l s).
Proof. by destruct b. Qed.

Lemma bucket_set_bucket_eq b l s : bucket b (set_bucket b l s) = l.
Proof. by destruct b. Qed.

Lemma bucket_set_bucket_ne b b' l s : b <> b' -> bucket b' (set_bucket b l s) = bucket b' s.
Proof. by destruct b, b'. Qed.

Lemma findIndex_id_objects (l : list SemgrepResult) id :
  findIndex_id (JObj <$> l) id = Normal (fst <$> list_find (fun f => has_idb id f) l).
Proof.
  induction l as [|f l IH]; [done|].
  cbn [fmap list_fmap findIndex_id get]. fold (@fmap list _ _ _ JObj l).
  rewrite IH. cbn [list_find]. set (b := has_idb id f).
  assert (Hb : b = match get_own f "id" with
                   | Some (JStr t) => String.eqb t id
                   | _ => false
                   end) by done.
  clearbody b.
  destruct (get_own f "id") as [[|?|?|t|?|?]|]; subst b; cbn;
    try (by destruct (list_find _ l) as [[]|]).
  destruct (String.eqb t id); cbn; [done|]. by destruct (list_find _ l) as [[]|].
Qed.

Lemma findIndex_id_lookup l id index :
  findIndex_id l id = Normal (Some index) -> is_Some (l !! index).
Proof.
  revert index. induction l as [|r l IH]; intros index; [done|].
  cbn [findIndex_id]. destruct (get r "id") as [[[|b|n|s|l0|m]|]|e]; try done;
    try (destruct (findIndex_id l id) as [[i|]|]; try done; intros [= <-]; by apply IH).
  destruct (String.eqb s id); [by intros [= <-]; eexists|].
  destruct (findIndex_id l id) as [[i|]|]; try done. intros [= <-]. by apply IH.
Qed.

Lemma _handleTriage_encode s id from to :
  _handleTriage (encode s) id from to =
  Returned (encode (move s id from to))
           (match list_find (fun f => has_idb id f) (bucket from s) with
            | None => []
            | Some _ => [postMessage "updateView" (encode (move s id from to))]
            end).
Proof.
  unfold _handleTriage, move. rewrite get_encode. cbn [bind as_array].
  rewrite findIndex_id_objects.
  destruct (list_find _ (bucket from s)) as [[index item]|] eqn:Hfind;
    cbn [fmap option_fmap option_map fst]; [|done].
  apply list_find_Some in Hfind as (Hlook & _ & _).
  rewrite list_lookup_fmap, Hlook. cbn [fmap option_fmap option_map].
  rewrite <- (list_fmap_delete JObj), mutated_encode, get_encode. cbn [bind as_array].
  change [JObj item] with (JObj <$> [item]). rewrite <- fmap_app, mutated_encode. done.
Qed.

Section move_facts.
Context (s : TriageState) (id : string) (from to : Bucket).

Lemma move_absent :
  (forall f, f ∈ bucket from s -> ~ has_id id f) ->
  list_find (fun f => has_idb id f) (bucket from s) = None.
Proof.
  intros Habs. apply list_find_None, Forall_forall. intros f Hf.
  rewrite has_idb_Is_true. by apply Habs.
Qed.

Lemma move_present :
  (exists f, f ∈ bucket from s /\ has_id id f) ->
  exists pre item post,
    bucket from s = pre ++ item :: post /\ has_id id item /\
    (forall f, f ∈ pre -> ~ has_id id f) /\
    list_find (fun f => has_idb id f) (bucket from s) = Some (length pre, item) /\
    delete (length pre) (bucket from s) = pre ++ post.
Proof.
  intros (f & Hf & Hid).
  destruct (list_find_elem_of (fun f => has_idb id f) _ f Hf) as [[i item] Hfind].
  { by apply has_idb_Is_true. }
  pose proof Hfind as (Hlook & Hitem & Hleast)%list_find_Some.
  exists (take i (bucket from s)), item, (drop (S i) (bucket from s)).
  assert (Hlen : length (take i (bucket from s)) = i).
  { apply length_take_le. apply lookup_lt_Some in Hlook. lia. }
  split_and!.
  - by rewrite take_drop_middle.
  - by apply has_idb_Is_true.
  - intros g (j & Hj)%list_elem_of_lookup. rewrite <- has_idb_Is_true.
    apply lookup_take_Some in Hj as [Hj Hlt]. by eapply Hleast.
  - by rewrite Hlen.
  - rewrite Hlen. apply delete_take_drop.
Qed.

Lemma move_Permutation : all_findings (move s id from to) ≡ₚ all_findings s.
Proof.
  unfold move.
  destruct (list_find _ (bucket from s)) as [[i item]|] eqn:Hfind; [|done].
  apply list_find_Some in Hfind as (Hlook & _ & _).
  apply delete_Permutation in Hlook. revert Hlook. generalize (delete i (bucket from s)).
  intros l Hl. unfold all_findings.
  destruct from, to; cbn in *; rewrite Hl; solve_Permutation.
Qed.
End move_facts.

Lemma triage_all_encode s ops : triage_all (encode s) ops = encode (move_all s ops).
Proof.
  revert s. induction ops as [|[[id from] to] ops IH]; intros s; [done|].
  cbn [triage_all move_all]. by rewrite _handleTriage_encode, IH.
Qed.

Lemma move_all_Permutation s ops : all_findings (move_all s ops) ≡ₚ all_findings s.
Proof.
  revert s. induction ops as [|[[id from] to] ops IH]; intros s; [done|].
  cbn [move_all]. by rewrite IH, move_Permutation.
Qed.

Lemma partition_invariant_Permutation s s' :
  all_findings s' ≡ₚ all_findings s -> partition_invariant s -> partition_invariant s'.
Proof. unfold partition_invariant. by intros ->. Qed.

Lemma partition_invariant_disjoint s : partition_invariant s -> buckets_disjoint s.
Proof.
  unfold partition_invariant, all_findings. rewrite !fmap_app.
  intros (_ & Hu & (_ & Hi & _)%NoDup_app)%NoDup_app.
  intros b1 b2 f1 f2 Hne H1 H2 Heq.
  apply (list_elem_of_fmap_2 id_of) in H1, H2. rewrite Heq in H1.
  destruct b1, b2; try done; cbn in H1, H2.
  - apply (Hu _ H1), elem_of_app. by left.
  - apply (Hu _ H1), elem_of_app. by right.
  - apply (Hu _ H2), elem_of_app. by left.
  - by apply (Hi _ H1).
  - apply (Hu _ H2), elem_of_app. by right.
  - by apply (Hi _ H2).
Qed.

(** A loaded document need not be a triage state.  The handler then throws
    a [TypeError], which the listener does not catch; when only the
    destination is missing, the finding is already out of its bucket. *)
Example triage_on_null : _handleTriage JNull "item-0" untriaged issues = Threw JNull TypeError.
Proof. reflexivity. Qed.

Example triage_without_destination :
  _handleTriage (JObj [("untriaged", JArr [JObj [("id", JStr "a")]])]) "a" untriaged issues
  = Threw (JObj [("untriaged", JArr [])]) TypeError.
Proof. reflexivity. Qed.

(** ** Moves *)

(** C3. When no finding of the bucket [from] has the id, [_handleTriage]
    returns without throwing and [_results] is the state it was, whatever
    the other two buckets hold; nothing is posted to the webview. *)
Theorem move_absent_unchanged (s : TriageState) (id : string) (from to : Bucket) :
  (forall f, f ∈ bucket from s -> ~ has_id id f) ->
  _handleTriage (encode s) id from to = Returned (encode s) [].
Proof.
  intros Habs. rewrite _handleTriage_encode. unfold move.
  by rewrite (move_absent s id from Habs).
Qed.

(** C5. When the bucket [from] holds a finding with the id, the first such
    finding [item] is taken out of [from], the findings before and after it
    keep their order, and [item] becomes the last element of [to]; the
    third bucket is as before. *)
Theorem move_present_appends (s : TriageState) (id : string) (from to : Bucket) :
  (exists f, f ∈ bucket from s /\ has_id id f) ->
  exists pre item post s',
    bucket from s = pre ++ item :: post /\
    has_id id item /\ (forall f, f ∈ pre -> ~ has_id id f) /\
    _handleTriage (encode s) id from to
      = Returned (encode s') [postMessage "updateView" (encode s')] /\
    s' = (let s1 := set_bucket from (pre ++ post) s in
          set_bucket to (bucket to s1 ++ [item]) s1) /\
    (from <> to -> bucket from s' = pre ++ post /\
                   bucket to s' = bucket to s ++ [item]) /\
    (forall b, b <> from -> b <> to -> bucket b s' = bucket b s).
Proof.
  intros Hex.
  destruct (move_present s id from Hex) as (pre & item & post & Hsplit & Hid & Hpre & Hfind & Hdel).
  exists pre, item, post. eexists. split_and!; [done..| | reflexivity | |].
  - rewrite _handleTriage_encode. unfold move. rewrite Hfind, Hdel. done.
  - intros Hne. cbn zeta.
    rewrite (bucket_set_bucket_ne from to) by done.
    rewrite bucket_set_bucket_eq.
    rewrite (bucket_set_bucket_ne to from) by done.
    by rewrite bucket_set_bucket_eq.
  - intros b Hb1 Hb2. cbn zeta. by rewrite !bucket_set_bucket_ne.
Qed.

(** C9. With source and destination the same bucket [b], the first finding
    with the id goes to the end of [b]: the bucket is a permutation of what
    it was, the other two buckets are untouched, and the partition
    invariant still holds. *)
Theorem move_same_bucket (s : TriageState) (id : string) (b : Bucket) :
  partition_invariant s ->
  (exists f, f ∈ bucket b s /\ has_id id f) ->
  exists pre item post s',
    bucket b s = pre ++ item :: post /\ has_id id item /\
    _handleTriage (encode s) id b b
      = Returned (encode s') [postMessage "updateView" (encode s')] /\
    bucket b s' = pre ++ post ++ [item] /\
    bucket b s' ≡ₚ bucket b s /\
    (forall b', b' <> b -> bucket b' s' = bucket b' s) /\
    partition_invariant s'.
Proof.
  intros Hinv Hex.
  destruct (move_present s id b Hex) as (pre & item & post & Hsplit & Hid & Hpre & Hfind & Hdel).
  exists pre, item, post, (move s id b b).
  assert (Hb : bucket b (move s id b b) = pre ++ post ++ [item]).
  { unfold move. rewrite Hfind, Hdel. rewrite !bucket_set_bucket_eq. by rewrite <- app_assoc. }
  split_and!; [done..| | done | | |].
  - rewrite _handleTriage_encode, Hfind. done.
  - rewrite Hb, Hsplit. solve_Permutation.
  - intros b' Hne. unfold move. rewrite Hfind. by rewrite !bucket_set_bucket_ne.
  - eapply partition_invariant_Permutation; [apply move_Permutation | done].
Qed.

(** C10. A move changes no finding: after [_handleTriage], every finding of
    every bucket is, property for property, a finding that was in some
    bucket before. *)
Theorem move_keeps_findings (s : TriageState) (id : string) (from to : Bucket) :
  exists s' effects,
    _handleTriage (encode s) id from to = Returned (encode s') effects /\
    forall f, f ∈ all_findings s' -> f ∈ all_findings s.
Proof.
  eexists _, _. split; [apply _handleTriage_encode|].
  intros f. by rewrite move_Permutation.
Qed.

(** C1. From a state of the partition invariant, after any sequence of
    triage messages the panel holds a triage state, and one more move
    returns a state that has the same findings as the state before it (as
    multisets, so none is created or lost), still satisfies the invariant,
    and has no id in two buckets. *)
Theorem moves_preserve_partition
    (s : TriageState) (ops : list (string * Bucket * Bucket))
    (id : string) (from to : Bucket) :
  partition_invariant s ->
  exists s1 s2 effects,
    triage_all (encode s) ops = encode s1 /\
    _handleTriage (encode s1) id from to = Returned (encode s2) effects /\
    all_findings s2 ≡ₚ all_findings s1 /\
    all_findings s2 ≡ₚ all_findings s /\
    partition_invariant s2 /\
    buckets_disjoint s2.
Proof.
  intros Hinv. exists (move_all s ops), (move (move_all s ops) id from to). eexists.
  assert (Hp : all_findings (move (move_all s ops) id from to) ≡ₚ all_findings s).
  { by rewrite move_Permutation, move_all_Permutation. }
  split_and!.
  - apply triage_all_encode.
  - apply _handleTriage_encode.
  - apply move_Permutation.
  - done.
  - by eapply partition_invariant_Permutation.
  - by eapply partition_invariant_disjoint, partition_invariant_Permutation.
Qed.

(** ** Ingestion *)

Lemma item_id_inj :
  Inj (=) (=) (fun index : nat => Some (JStr ("item-" +:+ decimal (Z.of_nat index)))).
Proof. intros i j [= H]. by apply decimal_inj, Nat2Z.inj in H. Qed.

Lemma constructor_encode results : constructor results = encode (ingested results).
Proof. unfold constructor, encode, ingested. cbn. by rewrite fmap_imap. Qed.

Lemma ingested_ids_NoDup results : NoDup (id_of <$> st_untriaged (ingested results)).
Proof.
  cbn [ingested st_untriaged]. rewrite fmap_imap.
  rewrite (imap_ext _ (fun index _ => Some (JStr ("item-" +:+ decimal (Z.of_nat index))))).
  - rewrite imap_seq_0. apply (NoDup_fmap_2 _ (Inj0 := item_id_inj)), NoDup_seq.
  - intros i x _. apply get_set_own_eq.
Qed.

Lemma ingested_partition_invariant results : partition_invariant (ingested results).
Proof.
  unfold partition_invariant, all_findings. cbn [st_issues st_falsePositives ingested].
  rewrite !app_nil_r. apply ingested_ids_NoDup.
Qed.

(** C4. The constructor puts every element of the input array, in order,
    into [untriaged] as an object that has the element's own properties and
    the id [item-<index>] (added last when the element has no [id], in
    place of it otherwise); the ids of the batch are pairwise distinct;
    [issues] and [falsePositives] are empty. *)
Theorem ingest_all_untriaged (results : list value) :
  exists us : list SemgrepResult,
    constructor results
      = encode {| st_untriaged := us; st_issues := []; st_falsePositives := [] |} /\
    length us = length results /\
    (forall index r, results !! index = Some r ->
       exists f, us !! index = Some f /\
         id_of f = Some (JStr ("item-" +:+ decimal (Z.of_nat index))) /\
         (forall k, k <> "id" -> get_own f k = get_own (spread r) k) /\
         (forall m, r = JObj m -> get_own m "id" = None ->
            f = m ++ [("id", JStr ("item-" +:+ decimal (Z.of_nat index)))])) /\
    NoDup (id_of <$> us).
Proof.
  eexists. split; [apply constructor_encode|]. split_and!.
  - apply length_imap.
  - intros index r Hr. eexists. rewrite list_lookup_imap, Hr. split; [done|].
    split_and!.
    + apply get_set_own_eq.
    + intros k Hk. by apply get_set_own_ne.
    + intros m -> Hm. by apply set_own_fresh.
  - apply ingested_ids_NoDup.
Qed.

Example ingest_three :
  constructor [JObj [("check_id", JStr "a")]; JObj [("check_id", JStr "b")];
               JObj [("check_id", JStr "c")]]
  = JObj [ ("untriaged",
            JArr [JObj [("check_id", JStr "a"); ("id", JStr "item-0")];
                  JObj [("check_id", JStr "b"); ("id", JStr "item-1")];
                  JObj [("check_id", JStr "c"); ("id", JStr "item-2")]]);
           ("issues", JArr []); ("falsePositives", JArr []) ].
Proof. vm_compute. reflexivity. Qed.

Example move_item_0 :
  _handleTriage
    (constructor [JObj [("check_id", JStr "a")]; JObj [("check_id", JStr "b")]])
    "item-0" untriaged issues
  = let r := JObj [ ("untriaged", JArr [JObj [("check_id", JStr "b"); ("id", JStr "item-1")]]);
                    ("issues", JArr [JObj [("check_id", JStr "a"); ("id", JStr "item-0")]]);
                    ("falsePositives", JArr []) ] in
    Returned r [postMessage "updateView" r].
Proof. vm_compute. reflexivity. Qed.

(** ** Well-formed states *)

Lemma index_keys_NoDup {A B} (g : nat -> A -> B) (l : list A) :
  NoDup (fst <$> imap (fun i x => (decimal (Z.of_nat i), g i x)) l).
Proof.
  rewrite fmap_imap.
  rewrite (imap_ext _ (fun i _ => decimal (Z.of_nat i))) by done.
  rewrite imap_seq_0. apply NoDup_fmap_2, NoDup_seq.
  intros i j H. by apply decimal_inj, Nat2Z.inj in H.
Qed.

Lemma well_formed_spread r :
  well_formed r ->
  NoDup (fst <$> spread r) /\ Forall (fun kv => well_formed (snd kv)) (spread r).
Proof.
  destruct r as [|b|n|s|l|m]; cbn [spread]; intros Hwf;
    try (split; [apply NoDup_nil_2|constructor]).
  - split; [apply (index_keys_NoDup (fun _ c => JStr (String c EmptyString)))|].
    apply Forall_forall. by intros kv (i & c & -> & _)%elem_of_lookup_imap.
  - apply well_formed_arr in Hwf.
    split; [apply (index_keys_NoDup (fun _ x => x))|].
    apply Forall_forall. intros kv (i & x & -> & Hx)%elem_of_lookup_imap.
    cbn. rewrite Forall_forall in Hwf. apply Hwf. by eapply list_elem_of_lookup_2.
  - by apply well_formed_obj in Hwf.
Qed.

Lemma well_formed_with_id index r : well_formed r -> well_formed (with_id index r).
Proof.
  intros [Hnd Hall]%well_formed_spread. unfold with_id.
  apply well_formed_obj. split; [by apply set_own_NoDup|by apply set_own_Forall].
Qed.

Lemma well_formed_encode s :
  well_formed (encode s) <-> Forall (fun f => well_formed (JObj f)) (all_findings s).
Proof.
  unfold encode, all_findings. rewrite well_formed_obj, !Forall_app.
  cbn [fmap list_fmap fst]. rewrite !Forall_cons. cbn [snd].
  rewrite !well_formed_arr, !Forall_fmap.
  split; [by intros (_ & Hu & Hi & Hf & _)|].
  intros (Hu & Hi & Hf). split; [|by rewrite Forall_nil].
  by apply (bool_decide_unpack _).
Qed.

Lemma well_formed_constructor results :
  Forall well_formed results -> well_formed (constructor results).
Proof.
  intros Hr. unfold constructor. apply well_formed_obj. split.
  - by apply (bool_decide_unpack _).
  - repeat constructor. cbn [snd]. apply well_formed_arr, Forall_forall.
    intros x (i & r & -> & Hx)%elem_of_lookup_imap.
    apply well_formed_with_id. rewrite Forall_forall in Hr. apply Hr.
    by eapply list_elem_of_lookup_2.
Qed.

Lemma well_formed_move_all s ops :
  well_formed (encode s) -> well_formed (encode (move_all s ops)).
Proof. rewrite !well_formed_encode. by rewrite move_all_Permutation. Qed.

(** What [JSON.parse] returns is well formed, and so is every results
    array the command ingests. *)
Lemma build_object_well_formed members :
  Forall (fun kv => well_formed (snd kv)) members -> well_formed (build_object members).
Proof.
  intros Hm. unfold build_object. apply well_formed_obj.
  assert (Hgen : forall acc : list (string * value),
            NoDup (fst <$> acc) -> Forall (fun kv => well_formed (snd kv)) acc ->
            let m := fold_left (fun m kv => set_own m (fst kv) (snd kv)) members acc in
            NoDup (fst <$> m) /\ Forall (fun kv => well_formed (snd kv)) m).
  { induction Hm as [|[k v] members Hv Hm IH]; intros acc Hnd Hacc; [done|].
    cbn [fold_left fst snd]. apply IH; [by apply set_own_NoDup|by apply set_own_Forall]. }
  apply (Hgen []); [apply NoDup_nil_2|constructor].
Qed.

Lemma parse_well_formed fuel :
  (forall s v r, parse_value fuel s = Some (v, r) -> well_formed v) /\
  (forall s l r, parse_elements fuel s = Some (l, r) -> Forall well_formed l) /\
  (forall s m r, parse_members fuel s = Some (m, r) ->
     Forall (fun kv => well_formed (snd kv)) m).
Proof.
  induction fuel as [|fuel (IHv & IHe & IHm)]; [done|]. split_and!.
  - intros s v r. cbn [parse_value].
    repeat case_match; try done;
      try (destruct (strip_prefix _ _); intros ?; simplify_eq/=; done).
    + destruct (parse_string_body _) as [[]|]; intros ?; simplify_eq/=; done.
    + intros ?; simplify_eq/=; done.
    + destruct (parse_elements _ _) as [[? ?]|] eqn:He; intros ?; simplify_eq/=.
      apply well_formed_arr. by eapply IHe.
    + intros ?; simplify_eq/=. split; [apply NoDup_nil_2|done].
    + destruct (parse_members _ _) as [[? ?]|] eqn:Hm; intros ?; simplify_eq/=.
      apply build_object_well_formed. by eapply IHm.
    + destruct (parse_number _) as [[]|]; intros ?; simplify_eq/=; done.
  - intros s l r. rewrite parse_elements_S.
    destruct (parse_value fuel s) as [[v r0]|] eqn:Hv; [|done].
    repeat case_match; try done.
    + destruct (parse_elements fuel _) as [[? ?]|] eqn:He; intros ?; simplify_eq/=.
      constructor; [by eapply IHv|by eapply IHe].
    + intros ?; simplify_eq/=. constructor; [by eapply IHv|constructor].
  - intros s m r. cbn [parse_members].
    repeat case_match; try done; subst.
    + destruct (parse_members fuel _) as [[? ?]|] eqn:Hm; intros ?; simplify_eq/=.
      constructor; [by eapply IHv|by eapply IHm].
    + intros ?; simplify_eq/=. constructor; [by eapply IHv|constructor].
Qed.

Lemma JSON_parse_well_formed text v : JSON.parse text = Some v -> well_formed v.
Proof.
  unfold JSON.parse. destruct (parse_value _ _) as [[v' r]|] eqn:Hp; [|done].
  destruct (skip_ws r); [|done]. intros [= <-].
  by eapply (proj1 (parse_well_formed _)).
Qed.

Lemma results_array_well_formed document results :
  well_formed document -> results_array document = Some results ->
  Forall well_formed results.
Proof.
  destruct document as [| | | | |m]; try done. cbn [results_array].
  intros [_ Hm]%well_formed_obj. induction Hm as [|[k v] m Hv Hm IH]; [done|].
  cbn [get_own]. destruct (String.eqb k "results"); [|done].
  destruct v; try done. intros [= <-]. by apply well_formed_arr.
Qed.

Lemma document_results_well_formed content document results :
  JSON.parse content = Some document -> results_array document = Some results ->
  Forall well_formed results.
Proof.
  intros Hp Hr. eapply results_array_well_formed; [|done]. by eapply JSON_parse_well_formed.
Qed.

(** ** The numbers of a state *)

Lemma every_number_arr P l : every_number P (JArr l) <-> Forall (every_number P) l.
Proof.
  cbn. induction l as [|x l IH]; [by split|].
  cbn. rewrite Forall_cons. by rewrite IH.
Qed.

Lemma every_number_obj P (m : list (string * value)) :
  every_number P (JObj m) <-> Forall (fun kv => every_number P (snd kv)) m.
Proof.
  cbn. induction m as [|x m IH]; [by split|].
  cbn. rewrite Forall_cons. by rewrite IH.
Qed.

(** A value whose numbers are finite doubles other than -0 is read back
    from its text as it is. *)
Lemma reread_exact v : every_number exact v -> reread v = v.
Proof.
  induction v as [|b|x|s|l IH|m IH] using value_ind'; intros Hv; try done.
  - by apply reread_number_exact.
  - apply every_number_arr in Hv. cbn [reread]. f_equal.
    induction IH as [|x l Hx _ IHl]; [done|]. inversion Hv; subst.
    cbn [List.map]. f_equal; auto.
  - apply every_number_obj in Hv. cbn [reread]. f_equal.
    induction IH as [|[k x] m Hx _ IHm]; [done|]. inversion Hv; subst.
    cbn [List.map fst snd] in *. f_equal; [f_equal|]; auto.
Qed.

(** A value of doubles is read back from its text with [null] for its
    infinite numbers and [0] for -0. *)
Lemma reread_double v : every_number double v -> reread v = written v.
Proof.
  induction v as [|b|x|s|l IH|m IH] using value_ind'; intros Hv; try done.
  - destruct x as [n|k e| |negative]; [by apply reread_number_exact..| |done].
    by vm_compute.
  - apply every_number_arr in Hv. cbn [reread written]. f_equal.
    induction IH as [|x l Hx _ IHl]; [done|]. inversion Hv; subst.
    cbn [List.map]. f_equal; auto.
  - apply every_number_obj in Hv. cbn [reread written]. f_equal.
    induction IH as [|[k x] m Hx _ IHm]; [done|]. inversion Hv; subst.
    cbn [List.map fst snd] in *. f_equal; [f_equal|]; auto.
Qed.

Lemma every_number_spread P r :
  every_number P r -> Forall (fun kv => every_number P (snd kv)) (spread r).
Proof.
  destruct r as [|b|x|s|l|m]; cbn [spread]; intros Hr; try constructor.
  - apply Forall_forall. by intros kv (i & c & -> & _)%elem_of_lookup_imap.
  - apply every_number_arr in Hr.
    apply Forall_forall. intros kv (i & x & -> & Hx)%elem_of_lookup_imap.
    cbn. rewrite Forall_forall in Hr. apply Hr. by eapply list_elem_of_lookup_2.
  - by apply every_number_obj in Hr.
Qed.

Lemma every_number_with_id P index r :
  every_number P r -> every_number P (with_id index r).
Proof.
  intros Hr%every_number_spread. unfold with_id, with_id_properties.
  apply every_number_obj. by apply set_own_Forall.
Qed.

Lemma every_number_encode P s :
  every_number P (encode s)
  <-> Forall (fun f => every_number P (JObj f)) (all_findings s).
Proof.
  unfold encode, all_findings. rewrite every_number_obj, !Forall_app.
  rewrite !Forall_cons. cbn [snd].
  rewrite !every_number_arr, !Forall_fmap.
  split; [by intros (Hu & Hi & Hf & _)|].
  intros (Hu & Hi & Hf). by rewrite Forall_nil.
Qed.

Lemma every_number_constructor P results :
  Forall (every_number P) results -> every_number P (constructor results).
Proof.
  intros Hr. unfold constructor. apply every_number_obj.
  repeat constructor. cbn [snd]. apply every_number_arr, Forall_forall.
  intros x (i & r & -> & Hx)%elem_of_lookup_imap.
  apply every_number_with_id. rewrite Forall_forall in Hr. apply Hr.
  by eapply list_elem_of_lookup_2.
Qed.

Lemma every_number_move_all P s ops :
  every_number P (encode s) -> every_number P (encode (move_all s ops)).
Proof. rewrite !every_number_encode. by rewrite move_all_Permutation. Qed.

(** ** Saving and loading *)

Example sample_text_read_back :
  JSON.parse (JSON.stringify (constructor measured_results))
  = Some (constructor measured_results).
Proof. vm_compute. reflexivity. Qed.

Example large_integer_text :
  JSON.stringify (JArr [JNum (Int (2 ^ 60)); JNum (Int (10 ^ 21)); JNum (Ratio 1 1074)])
  = string_of_list_ascii
      ("[" :: LF :: chars "  1152921504606847000," ++ LF :: chars "  1e+21,"
           ++ LF :: chars "  5e-324" ++ [LF; "]"])%char.
Proof. vm_compute. reflexivity. Qed.

Example literals_read :
  JSON.parse "[9007199254740993, 0.1, 1e400, -0, 25e-1]"
  = Some (JArr [JNum (Int 9007199254740992); JNum (Ratio 3602879701896397 55);
                JNum (Infinity false); JNum NegZero; JNum (Ratio 5 1)]).
Proof. vm_compute. reflexivity. Qed.

Example zero_loses_sign :
  JSON.parse (JSON.stringify (JArr [JNum NegZero; JNum (Infinity true)]))
  = Some (JArr [JNum (Int 0); JNull]).
Proof. vm_compute. reflexivity. Qed.

Lemma run_triage_clicks env s fs ops :
  run {| session := {| this_results := encode s; files := fs |};
         webview_results := encode s |}
      ((fun op => (env, click_triage (fst (fst op)) (snd (fst op)) (snd op))) <$> ops)
  = {| session := {| this_results := encode (move_all s ops); files := fs |};
       webview_results := encode (move_all s ops) |}.
Proof.
  revert s. induction ops as [|[[id from] to] ops IH]; intros s; [done|].
  cbn [fmap list_fmap run fst snd move_all].
  fold (@fmap list _ _ _
          (fun op : string * Bucket * Bucket =>
             (env, click_triage (fst (fst op)) (snd (fst op)) (snd op))) ops).
  unfold step at 1. cbn [message_of session webview_results onDidReceiveMessage this_results files].
  rewrite _handleTriage_encode. cbn [fst].
  replace (fold_left webview_onmessage _ (encode s)) with (encode (move s id from to)).
  - apply IH.
  - unfold move. by destruct (list_find _ (bucket from s)) as [[]|].
Qed.

Lemma run_triage_steps env results fs ops :
  run (opened results fs) (triage_steps env ops)
  = let s := move_all (ingested results) ops in
    {| session := {| this_results := encode s; files := fs |};
       webview_results := encode s |}.
Proof.
  unfold triage_steps, opened. cbn [run]. unfold step at 1.
  cbn [message_of session webview_results onDidReceiveMessage this_results files
       _sendInitialData fold_left webview_onmessage fst].
  change (String.eqb "updateView" "updateView") with true. cbv iota.
  rewrite constructor_encode. apply run_triage_clicks.
Qed.

(** C2 (amended).  After a results array is ingested whose values are well
    formed (as those of every parsed document are:
    [document_results_well_formed]) and whose numbers are all finite
    doubles other than -0, and any sequence of triage clicks is handled,
    the panel holds a triage state [s1] and the webview holds the same.
    Saving writes the text [JSON.stringify] gives for it; [JSON.parse]
    reads that text back as [s1]; and loading the file, at once or in any
    panel that finds the file as written, makes [_results] (and the
    webview's copy) that same state: the same three buckets with the same
    findings, property for property, in the same order. *)
Theorem save_load_round_trip
    (results : list value) (ops : list (string * Bucket * Bucket))
    (files0 : gmap string string) (env0 env_save env_load : Environment)
    (uri : string) :
  Forall well_formed results -> Forall (every_number exact) results ->
  showSaveDialog env_save = Normal (Some uri) -> fault env_save = None ->
  showOpenDialog env_load = Normal (Some [uri]) -> fault env_load = None ->
  let sys1 := run (opened results files0) (triage_steps env0 ops) in
  let sys2 := fst (step env_save sys1 click_save) in
  let sys3 := fst (step env_load sys2 click_load) in
  exists s1 : TriageState,
    this_results (session sys1) = encode s1 /\
    files (session sys2) !! uri = Some (JSON.stringify (encode s1)) /\
    JSON.parse (JSON.stringify (encode s1)) = Some (encode s1) /\
    this_results (session sys3) = encode s1 /\
    webview_results sys3 = encode s1 /\
    (forall sys' : System,
       files (session sys') !! uri = files (session sys2) !! uri ->
       this_results (session (fst (step env_load sys' click_load))) = encode s1).
Proof.
  intros Hwf Hex Hsave Hsf Hload Hlf sys1 sys2 sys3.
  exists (move_all (ingested results) ops).
  assert (Hs1 : sys1 = let s := move_all (ingested results) ops in
                       {| session := {| this_results := encode s; files := files0 |};
                          webview_results := encode s |}) by apply run_triage_steps.
  cbn zeta in Hs1.
  assert (Hrt : JSON.parse (JSON.stringify (encode (move_all (ingested results) ops)))
                = Some (encode (move_all (ingested results) ops))).
  { rewrite JSON_parse_stringify.
    - rewrite reread_exact; [done|]. apply every_number_move_all.
      rewrite <- constructor_encode. by apply every_number_constructor.
    - apply well_formed_move_all.
      rewrite <- constructor_encode. by apply well_formed_constructor. }
  assert (Hfile : files (session sys2) !! uri
                  = Some (JSON.stringify (encode (move_all (ingested results) ops)))).
  { subst sys2. rewrite Hs1. unfold step.
    cbn [message_of session webview_results onDidReceiveMessage this_results files].
    unfold _saveProgress, writeFile. rewrite Hsave, Hsf. cbn [fst session files].
    apply lookup_insert_eq. }
  assert (Hgen : forall sys' : System,
            files (session sys') !! uri = files (session sys2) !! uri ->
            fst (step env_load sys' click_load)
            = {| session := {| this_results := encode (move_all (ingested results) ops);
                               files := files (session sys') |};
                 webview_results := encode (move_all (ingested results) ops) |}).
  { intros sys' Hsame. rewrite Hfile in Hsame. unfold step.
    cbn [message_of onDidReceiveMessage]. unfold _loadProgress, readFile.
    rewrite Hload, Hlf, Hsame, Hrt. cbn [or_else bind fst fold_left webview_onmessage].
    change (String.eqb "updateView" "updateView") with true. done. }
  split_and!.
  - by rewrite Hs1.
  - done.
  - done.
  - subst sys3. by rewrite Hgen.
  - subst sys3. by rewrite Hgen.
  - intros sys' Hsame. by rewrite Hgen.
Qed.

(** C2 as the spec states it, for every reachable state, fails.  A results
    file with the number [1e400] is ingested with [Infinity] in its
    finding; [JSON.stringify] writes [null] for it, so the file a save
    writes is read as a state with [null] there, and a load makes
    [_results] a state other than the one saved. *)
Lemma save_load_round_trip_counterexample :
  let env := answering progress_uri None in
  openResults (Some [results_uri]) None {[ results_uri := overflowing_text ]}
              {| currentPanel := None |}
  = ({| currentPanel := Some (encode (ingested overflowing_results)) |},
     [createWebviewPanel]) /\
  let sys1 := run (opened overflowing_results ∅) (triage_steps env []) in
  let sys2 := fst (step env sys1 click_save) in
  let sys3 := fst (step env sys2 click_load) in
  this_results (session sys1) = encode (ingested overflowing_results) /\
  JSON.parse (JSON.stringify (encode (ingested overflowing_results)))
  <> Some (encode (ingested overflowing_results)) /\
  this_results (session sys3)
  = encode {| st_untriaged := [[("n", JNull); ("id", JStr "item-0")]];
              st_issues := []; st_falsePositives := [] |} /\
  this_results (session sys3) <> this_results (session sys1).
Proof.
  intros env. split.
  { unfold openResults, readFile. rewrite lookup_singleton_eq. by vm_compute. }
  intros sys1 sys2 sys3.
  assert (H3 : this_results (session sys3)
               = encode {| st_untriaged := [[("n", JNull); ("id", JStr "item-0")]];
                           st_issues := []; st_falsePositives := [] |}).
  { subst sys1 sys2 sys3 env. by vm_compute. }
  assert (H1 : this_results (session sys1) = encode (ingested overflowing_results)).
  { subst sys1 env. by vm_compute. }
  split_and!; [done|by vm_compute|done|]. rewrite H3, H1. by vm_compute.
Qed.

(** C7. Whatever value [JSON.parse] returns for the file's text, the load
    makes it [_results], posts it to the webview and reports success; this
    holds with no condition on the value (a number, [null], an object
    without the three keys).  No run of [_loadProgress] shows the error
    of the structure check. *)
Theorem load_replaces_state
    (env : Environment) (fs : gmap string string) (this_results0 : value)
    (uri : string) (rest : list string) (content : string) (loadedData : value) :
  showOpenDialog env = Normal (Some (uri :: rest)) ->
  readFile fs (fault env) uri = Normal content ->
  JSON.parse content = Some loadedData ->
  _loadProgress env fs this_results0
  = (loadedData,
     [postMessage "updateView" loadedData;
      showInformationMessage "Semgrep triage progress loaded successfully!"])
  /\ forall env' fs' r,
       showErrorMessage "Invalid progress file structure." None
         ∉ snd (_loadProgress env' fs' r).
Proof.
  intros Hdialog Hread Hparse. split.
  - unfold _loadProgress. by rewrite Hdialog, Hread, Hparse.
  - intros env' fs' r. unfold _loadProgress.
    destruct (showOpenDialog env') as [[[|u l]|]|e]; cbn [snd];
      try (rewrite list_elem_of_In; cbn; intros [[=]|[]]; fail);
      try apply not_elem_of_nil.
    destruct (readFile fs' (fault env') u) as [c|e];
      [destruct (JSON.parse c) as [v|]|]; cbn;
      rewrite list_elem_of_In; cbn; intros [[=]|[[=]|[]]] || intros [[=]|[]].
Qed.

(** C6. When the parsed document has no [results] array, the command shows
    the format error and [currentPanel], with the state it holds, is what
    it was.  When it has one, no entry is looked at: the current panel
    becomes one whose [untriaged] has, at each index of the array, the
    entry's own properties and the id of that index (an entry that is no
    object has none of its own but those of an array or a string), whose
    [issues] and [falsePositives] are empty, and the only effect is that the
    panel is shown. *)
Theorem ingest_needs_results_array
    (ext : Extension) (fs : gmap string string) (uri : string) (rest : list string)
    (content : string) (document : value) :
  readFile fs None uri = Normal content ->
  JSON.parse content = Some document ->
  match results_array document with
  | None =>
      openResults (Some (uri :: rest)) None fs ext
      = (ext, [showErrorMessage invalid_results_format None])
  | Some results =>
      exists ingested_ : list value,
        openResults (Some (uri :: rest)) None fs ext
        = ({| currentPanel :=
                Some (JObj [ ("untriaged", JArr ingested_); ("issues", JArr []);
                             ("falsePositives", JArr []) ]) |},
           [match currentPanel ext with
            | Some _ => reveal
            | None => createWebviewPanel
            end]) /\
        length ingested_ = length results /\
        forall index r, results !! index = Some r ->
          ingested_ !! index
          = Some (JObj (set_own (spread r) "id"
                                (JStr ("item-" +:+ decimal (Z.of_nat index)))))
  end.
Proof.
  intros Hread Hparse. unfold openResults. rewrite Hread, Hparse.
  destruct document as [|[]|x|s|l|m]; cbn [results_array truthy get]; try done.
  - by destruct x as [n| | |]; [destruct (negb _)|..].
  - by destruct (negb _).
  - destruct (get_own m "results") as [[]|]; try done.
    exists (imap with_id elements). split_and!.
    + unfold createOrShow, constructor. by destruct (currentPanel ext).
    + apply length_imap.
    + intros index r Hr. by rewrite list_lookup_imap, Hr.
Qed.

(** C8. A save whose dialog or write fails, a load whose dialog or read
    fails or whose text does not parse, a navigation whose document cannot
    be opened or shown: each handler catches the failure, shows an error
    message, and leaves the session (the state and the files) as it was.
    An ingestion whose read fails or whose text does not parse shows an
    error message and leaves the current panel as it was. *)
Theorem failures_leave_state
    (env : Environment) (s : Session) (ext : Extension) (e : exn) :
  (forall data,
     showSaveDialog env = Throw e \/
     (exists uri, showSaveDialog env = Normal (Some uri) /\ fault env = Some e) ->
     onDidReceiveMessage env s (save data)
     = (s, [showErrorMessage "Failed to save progress: " (Some e)], None)) /\
  (showOpenDialog env = Throw e \/
   (exists uri rest, showOpenDialog env = Normal (Some (uri :: rest)) /\
      (readFile (files s) (fault env) uri = Throw e \/
       exists content, readFile (files s) (fault env) uri = Normal content /\
                       JSON.parse content = None /\ e = SyntaxError)) ->
   onDidReceiveMessage env s load
   = (s, [showErrorMessage "Failed to load progress: " (Some e)], None)) /\
  (forall path line col,
     openTextDocument env = Throw e \/
     (openTextDocument env = Normal tt /\ showDocument env = Throw e) ->
     onDidReceiveMessage env s (goTo path line col)
     = (s, [showErrorMessage
              ("Could not open file: " +:+ path +:+ ". (Is the path correct?)") None],
        None)) /\
  (forall fs uri rest,
     readFile fs (fault env) uri = Throw e \/
     (exists content, readFile fs (fault env) uri = Normal content /\
                      JSON.parse content = None /\ e = SyntaxError) ->
     openResults (Some (uri :: rest)) (fault env) fs ext
     = (ext, [showErrorMessage "Failed to read or parse file: " (Some e)])).
Proof.
  destruct s as [r fs0]. split_and!.
  - intros data [H|(uri & H & Hf)]; cbn [onDidReceiveMessage files this_results];
      unfold _saveProgress, writeFile; rewrite H; [done|by rewrite Hf].
  - intros [H|(uri & rest & H & [Hr|(content & Hr & Hp & ->)])];
      cbn [onDidReceiveMessage files this_results] in *;
      unfold _loadProgress; rewrite H; [done| |]; rewrite Hr; [done|by rewrite Hp].
  - intros path line col [H|[H1 H2]]; cbn [onDidReceiveMessage];
      unfold _goToLocation; [by rewrite H|by rewrite H1, H2].
  - intros fs uri rest [Hr|(content & Hr & Hp & ->)]; unfold openResults; rewrite Hr;
      [done|by rewrite Hp].
Qed.

(** ** The theorems at sample inputs *)

Lemma sample_results_well_formed : Forall well_formed sample_results.
Proof.
  repeat constructor; cbn; by apply (bool_decide_unpack _).
Defined.

Lemma moves_preserve_partition_witness :
  partition_invariant (ingested sample_results) /\
  exists s1 s2 effects,
    triage_all (encode (ingested sample_results)) [("item-0", untriaged, issues)]
      = encode s1 /\
    _handleTriage (encode s1) "item-1" untriaged falsePositives
      = Returned (encode s2) effects /\
    all_findings s2 ≡ₚ all_findings s1 /\
    all_findings s2 ≡ₚ all_findings (ingested sample_results) /\
    partition_invariant s2 /\
    buckets_disjoint s2.
Proof.
  split; [apply ingested_partition_invariant|].
  apply moves_preserve_partition, ingested_partition_invariant.
Defined.

Lemma move_absent_unchanged_witness :
  (forall f, f ∈ bucket untriaged (ingested (take 1 sample_results)) ->
             ~ has_id "item-99" f) /\
  _handleTriage (encode (ingested (take 1 sample_results))) "item-99" untriaged issues
  = Returned (encode (ingested (take 1 sample_results))) [].
Proof.
  assert (H : forall f, f ∈ bucket untriaged (ingested (take 1 sample_results)) ->
                        ~ has_id "item-99" f).
  { intros f Hf Hid. vm_compute in Hf. apply list_elem_of_singleton in Hf. subst f.
    vm_compute in Hid. discriminate Hid. }
  split; [exact H|]. apply move_absent_unchanged, H.
Defined.

Lemma sample_has_item_0 :
  exists f, f ∈ bucket untriaged (ingested sample_results) /\ has_id "item-0" f.
Proof. eexists. split; [left|reflexivity]. Defined.

Lemma move_present_appends_witness :
  (exists f, f ∈ bucket untriaged (ingested sample_results) /\ has_id "item-0" f) /\
  exists pre item post s',
    bucket untriaged (ingested sample_results) = pre ++ item :: post /\
    has_id "item-0" item /\ (forall f, f ∈ pre -> ~ has_id "item-0" f) /\
    _handleTriage (encode (ingested sample_results)) "item-0" untriaged issues
      = Returned (encode s') [postMessage "updateView" (encode s')] /\
    s' = (let s1 := set_bucket untriaged (pre ++ post) (ingested sample_results) in
          set_bucket issues (bucket issues s1 ++ [item]) s1) /\
    (untriaged <> issues ->
       bucket untriaged s' = pre ++ post /\
       bucket issues s' = bucket issues (ingested sample_results) ++ [item]) /\
    (forall b, b <> untriaged -> b <> issues ->
       bucket b s' = bucket b (ingested sample_results)).
Proof.
  split; [apply sample_has_item_0|].
  apply move_present_appends, sample_has_item_0.
Defined.

Lemma move_same_bucket_witness :
  partition_invariant (ingested sample_results) /\
  (exists f, f ∈ bucket untriaged (ingested sample_results) /\ has_id "item-0" f) /\
  exists pre item post s',
    bucket untriaged (ingested sample_results) = pre ++ item :: post /\
    has_id "item-0" item /\
    _handleTriage (encode (ingested sample_results)) "item-0" untriaged untriaged
      = Returned (encode s') [postMessage "updateView" (encode s')] /\
    bucket untriaged s' = pre ++ post ++ [item] /\
    bucket untriaged s' ≡ₚ bucket untriaged (ingested sample_results) /\
    (forall b', b' <> untriaged -> bucket b' s' = bucket b' (ingested sample_results)) /\
    partition_invariant s'.
Proof.
  split_and!; [apply ingested_partition_invariant|apply sample_has_item_0|].
  apply move_same_bucket; [apply ingested_partition_invariant|apply sample_has_item_0].
Defined.

Lemma measured_results_well_formed : Forall well_formed measured_results.
Proof.
  repeat constructor; cbn; try by apply (bool_decide_unpack _).
Qed.

Lemma measured_results_exact : Forall (every_number exact) measured_results.
Proof. repeat constructor; by vm_compute. Qed.

Lemma save_load_round_trip_witness :
  Forall well_formed measured_results /\
  Forall (every_number exact) measured_results /\
  let sys1 := run (opened measured_results ∅)
                  (triage_steps (answering progress_uri None)
                                [("item-0", untriaged, issues)]) in
  let sys2 := fst (step (answering progress_uri None) sys1 click_save) in
  let sys3 := fst (step (answering progress_uri None) sys2 click_load) in
  exists s1 : TriageState,
    this_results (session sys1) = encode s1 /\
    files (session sys2) !! progress_uri = Some (JSON.stringify (encode s1)) /\
    JSON.parse (JSON.stringify (encode s1)) = Some (encode s1) /\
    this_results (session sys3) = encode s1 /\
    webview_results sys3 = encode s1 /\
    (forall sys' : System,
       files (session sys') !! progress_uri = files (session sys2) !! progress_uri ->
       this_results (session (fst (step (answering progress_uri None) sys' click_load)))
       = encode s1).
Proof.
  split_and!; [apply measured_results_well_formed|apply measured_results_exact|].
  apply (save_load_round_trip measured_results [("item-0", untriaged, issues)] ∅
           (answering progress_uri None) (answering progress_uri None)
           (answering progress_uri None) progress_uri);
    [apply measured_results_well_formed|apply measured_results_exact|reflexivity..].
Defined.

Lemma load_replaces_state_witness :
  showOpenDialog (answering progress_uri None) = Normal (Some [progress_uri]) /\
  readFile {[ progress_uri := "null" ]} (fault (answering progress_uri None)) progress_uri
    = Normal "null" /\
  JSON.parse "null" = Some JNull /\
  _loadProgress (answering progress_uri None) {[ progress_uri := "null" ]}
                (constructor sample_results)
  = (JNull,
     [postMessage "updateView" JNull;
      showInformationMessage "Semgrep triage progress loaded successfully!"]).
Proof.
  assert (Hread : readFile {[ progress_uri := "null" ]}
                    (fault (answering progress_uri None)) progress_uri = Normal "null").
  { unfold readFile. cbn [fault answering]. by rewrite lookup_singleton_eq. }
  split_and!; [reflexivity|exact Hread|reflexivity|].
  apply (load_replaces_state (answering progress_uri None) {[ progress_uri := "null" ]}
           (constructor sample_results) progress_uri [] "null" JNull);
    [reflexivity|exact Hread|reflexivity].
Defined.

Lemma ingest_needs_results_array_witness :
  readFile {[ progress_uri := "[1]" ]} None progress_uri = Normal "[1]" /\
  JSON.parse "[1]" = Some (JArr [JNum (Int 1)]) /\
  openResults (Some [progress_uri]) None {[ progress_uri := "[1]" ]}
              {| currentPanel := Some (constructor sample_results) |}
  = ({| currentPanel := Some (constructor sample_results) |},
     [showErrorMessage invalid_results_format None]) /\
  readFile {[ results_uri := unchecked_text ]} None results_uri = Normal unchecked_text /\
  JSON.parse unchecked_text = Some (JObj [("results", JArr unchecked_results)]) /\
  exists ingested_ : list value,
    openResults (Some [results_uri]) None {[ results_uri := unchecked_text ]}
                {| currentPanel := Some (constructor sample_results) |}
    = ({| currentPanel :=
            Some (JObj [ ("untriaged", JArr ingested_); ("issues", JArr []);
                         ("falsePositives", JArr []) ]) |},
       [reveal]) /\
    length ingested_ = length unchecked_results /\
    forall index r, unchecked_results !! index = Some r ->
      ingested_ !! index
      = Some (JObj (set_own (spread r) "id"
                            (JStr ("item-" +:+ decimal (Z.of_nat index))))).
Proof.
  assert (Hread : readFile {[ progress_uri := "[1]" ]} None progress_uri = Normal "[1]").
  { unfold readFile. by rewrite lookup_singleton_eq. }
  assert (Hread' : readFile {[ results_uri := unchecked_text ]} None results_uri
                   = Normal unchecked_text).
  { unfold readFile. by rewrite lookup_singleton_eq. }
  assert (Hparse' : JSON.parse unchecked_text
                    = Some (JObj [("results", JArr unchecked_results)])).
  { by vm_compute. }
  split_and!; [exact Hread|reflexivity| |exact Hread'|exact Hparse'|].
  - apply (ingest_needs_results_array
             {| currentPanel := Some (constructor sample_results) |}
             {[ progress_uri := "[1]" ]} progress_uri [] "[1]" (JArr [JNum (Int 1)]));
      [exact Hread|reflexivity].
  - apply (ingest_needs_results_array
             {| currentPanel := Some (constructor sample_results) |}
             {[ results_uri := unchecked_text ]} results_uri [] unchecked_text
             (JObj [("results", JArr unchecked_results)]));
      [exact Hread'|exact Hparse'].
Defined.

Lemma failures_leave_state_witness :
  let env := answering progress_uri (Some (FileSystemError "EACCES")) in
  let s := {| this_results := constructor sample_results; files := ∅ |} in
  let ext := {| currentPanel := Some (constructor sample_results) |} in
  onDidReceiveMessage env s (save (constructor sample_results))
  = (s, [showErrorMessage "Failed to save progress: "
                          (Some (FileSystemError "EACCES"))], None) /\
  onDidReceiveMessage env s load
  = (s, [showErrorMessage "Failed to load progress: "
                          (Some (FileSystemError "EACCES"))], None) /\
  onDidReceiveMessage env s (goTo "src/a.ts" (Int 3) (Int 1))
  = (s, [showErrorMessage "Could not open file: src/a.ts. (Is the path correct?)" None],
     None) /\
  openResults (Some [progress_uri]) (fault env) ∅ ext
  = (ext, [showErrorMessage "Failed to read or parse file: "
                            (Some (FileSystemError "EACCES"))]).
Proof.
  intros env s ext.
  destruct (failures_leave_state env s ext (FileSystemError "EACCES"))
    as (Hsave & Hload & Hgo & Hopen).
  split_and!.
  - apply Hsave. right. by exists progress_uri.
  - apply Hload. right. exists progress_uri, []. split; [reflexivity|by left].
  - apply (Hgo "src/a.ts" (Int 3) (Int 1)). by left.
  - apply Hopen. by left.
Defined.

(** * More of the panel *)

(** ** Where [_handleTriage] throws *)

Lemma name_inj : Inj (=) (=) name.
Proof. by intros [] [] H. Qed.

Lemma findIndex_id_skip (g : SemgrepResult) (l : list value) id :
  ~ has_id id g ->
  findIndex_id (JObj g :: l) id
  = match findIndex_id l id with
    | Normal (Some i) => Normal (Some (S i))
    | c => c
    end.
Proof.
  unfold has_id, id_of. intros Hg. cbn [findIndex_id get].
  destruct (get_own g "id") as [[| | |s| |]|]; try done.
  destruct (String.eqb_spec s id); [congruence|done].
Qed.

Lemma findIndex_id_first (pre : list SemgrepResult) (f : SemgrepResult) (post : list value) id :
  (forall g, g ∈ pre -> ~ has_id id g) -> has_id id f ->
  findIndex_id ((JObj <$> pre) ++ JObj f :: post) id = Normal (Some (length pre)).
Proof.
  intros Hpre Hf. induction pre as [|g pre IH].
  - cbn [fmap list_fmap app length findIndex_id get]. unfold has_id, id_of in Hf.
    by rewrite Hf, String.eqb_refl.
  - cbn [fmap list_fmap app length]. fold (@fmap list _ _ _ JObj pre).
    rewrite findIndex_id_skip by (apply Hpre; left).
    by rewrite IH by (intros; apply Hpre; by right).
Qed.

Lemma findIndex_id_null (pre : list SemgrepResult) (post : list value) id :
  (forall g, g ∈ pre -> ~ has_id id g) ->
  findIndex_id ((JObj <$> pre) ++ JNull :: post) id = Throw TypeError.
Proof.
  intros Hpre. induction pre as [|g pre IH]; [done|].
  cbn [fmap list_fmap app]. fold (@fmap list _ _ _ JObj pre).
  rewrite findIndex_id_skip by (apply Hpre; left).
  by rewrite IH by (intros; apply Hpre; by right).
Qed.

Lemma as_array_other (o : option value) :
  (forall l, o <> Some (JArr l)) -> as_array o = Throw TypeError.
Proof. destruct o as [[| | | |l|]|]; try done. intros H. by destruct (H l). Qed.

Lemma lookup_middle (pre : list SemgrepResult) (x : value) (post : list value) :
  ((JObj <$> pre) ++ x :: post) !! length pre = Some x
  /\ delete (length pre) ((JObj <$> pre) ++ x :: post) = (JObj <$> pre) ++ post.
Proof.
  split.
  - rewrite lookup_app_r by (rewrite length_fmap; lia).
    by rewrite length_fmap, Nat.sub_diag.
  - rewrite <- (length_fmap JObj pre). by rewrite delete_middle.
Qed.

(** X1. When the state has no array under [from] (no such key, a value of
    another kind, or a state that is [null]), the handler throws a
    [TypeError] before it changes anything.  This is what follows a load of
    such a document: the load itself succeeds, and every later triage of
    that bucket ends in an exception that no handler catches, with no
    message to the user and the state as loaded. *)
Theorem load_without_bucket_breaks_triage
    (env env' : Environment) (fs : gmap string string) (r : value)
    (uri : string) (rest : list string) (content : string) (d : value)
    (id : string) (from to : Bucket) :
  showOpenDialog env = Normal (Some (uri :: rest)) ->
  readFile fs (fault env) uri = Normal content ->
  JSON.parse content = Some d ->
  (forall l, get d (name from) <> Normal (Some (JArr l))) ->
  let s1 := fst (fst (onDidReceiveMessage env {| this_results := r; files := fs |} load)) in
  this_results s1 = d /\
  _handleTriage d id from to = Threw d TypeError /\
  onDidReceiveMessage env' s1 (triage id from to) = (s1, [], Some TypeError).
Proof.
  intros Hdialog Hread Hparse Hnone s1.
  assert (Hs1 : s1 = {| this_results := d; files := fs |}).
  { subst s1. cbn [onDidReceiveMessage this_results files]. unfold _loadProgress.
    by rewrite Hdialog, Hread, Hparse. }
  assert (Hthrow : _handleTriage d id from to = Threw d TypeError).
  { unfold _handleTriage. destruct (get d (name from)) as [o|e] eqn:Hget.
    - cbn [bind]. rewrite as_array_other; [done|]. intros l ->. by apply (Hnone l).
    - destruct d; try done. by injection Hget as <-. }
  split_and!; [by rewrite Hs1|done|].
  rewrite Hs1. cbn [onDidReceiveMessage this_results files]. by rewrite Hthrow.
Qed.

(** X2. When the finding is found in [from] but the state has no array
    under [to], the handler has already taken the finding out of [from]
    when [push] throws: the exception leaves a state in which the finding
    is in no bucket, and nothing is posted to the webview. *)
Theorem triage_without_destination_loses_finding
    (m : list (string * value)) (pre : list SemgrepResult) (f : SemgrepResult)
    (post : list value) (id : string) (from to : Bucket) :
  get_own m (name from) = Some (JArr ((JObj <$> pre) ++ JObj f :: post)) ->
  (forall g, g ∈ pre -> ~ has_id id g) -> has_id id f ->
  (forall l2, get_own m (name to) <> Some (JArr l2)) ->
  exists m',
    _handleTriage (JObj m) id from to = Threw (JObj m') TypeError /\
    get_own m' (name from) = Some (JArr ((JObj <$> pre) ++ post)) /\
    (forall k, k <> name from -> get_own m' k = get_own m k).
Proof.
  intros Hfrom Hpre Hf Hto.
  exists (set_own m (name from) (JArr ((JObj <$> pre) ++ post))).
  assert (Hne : name to <> name from).
  { intros Heq. rewrite Heq in Hto. by eapply Hto. }
  split_and!.
  - unfold _handleTriage. cbn [get bind]. rewrite Hfrom. cbn [as_array].
    rewrite findIndex_id_first by done.
    destruct (lookup_middle pre (JObj f) post) as [-> ->].
    cbn [mutated get bind]. rewrite get_set_own_ne by done.
    by rewrite as_array_other.
  - apply get_set_own_eq.
  - intros k Hk. by apply get_set_own_ne.
Qed.

(** X3. The search stops at the first finding with the id.  A [null]
    entry ahead of it makes the handler throw with the state unchanged;
    whatever comes after it (entries of any kind, [null] too) is not looked
    at, and the other keys of the state stay as they are. *)
Theorem triage_scans_to_first_match
    (m : list (string * value)) (pre : list SemgrepResult) (post : list value)
    (id : string) (from to : Bucket) :
  (forall g, g ∈ pre -> ~ has_id id g) ->
  (get_own m (name from) = Some (JArr ((JObj <$> pre) ++ JNull :: post)) ->
   _handleTriage (JObj m) id from to = Threw (JObj m) TypeError) /\
  (forall (f : SemgrepResult) l2,
     get_own m (name from) = Some (JArr ((JObj <$> pre) ++ JObj f :: post)) ->
     has_id id f -> from <> to ->
     get_own m (name to) = Some (JArr l2) ->
     exists m',
       _handleTriage (JObj m) id from to
         = Returned (JObj m') [postMessage "updateView" (JObj m')] /\
       get_own m' (name from) = Some (JArr ((JObj <$> pre) ++ post)) /\
       get_own m' (name to) = Some (JArr (l2 ++ [JObj f])) /\
       (forall k, k <> name from -> k <> name to -> get_own m' k = get_own m k)).
Proof.
  intros Hpre. split.
  - intros Hfrom. unfold _handleTriage. cbn [get bind]. rewrite Hfrom. cbn [as_array].
    by rewrite findIndex_id_null.
  - intros f l2 Hfrom Hf Hne Hto.
    assert (Hn : name to <> name from) by (intros H%name_inj; congruence).
    eexists. split_and!.
    + unfold _handleTriage. cbn [get bind]. rewrite Hfrom. cbn [as_array].
      rewrite findIndex_id_first by done.
      destruct (lookup_middle pre (JObj f) post) as [-> ->].
      cbn [mutated get bind]. rewrite get_set_own_ne by done. rewrite Hto.
      cbn [as_array]. reflexivity.
    + rewrite get_set_own_ne by (intros H; by apply Hn). apply get_set_own_eq.
    + apply get_set_own_eq.
    + intros k Hk1 Hk2. by rewrite !get_set_own_ne.
Qed.

(** ** What every run keeps *)

Lemma get_own_well_formed m k v :
  well_formed (JObj m) -> get_own m k = Some v -> well_formed v.
Proof.
  intros [_ Hm]%well_formed_obj. induction Hm as [|[k' v'] m Hv Hm IH]; [done|].
  cbn [get_own]. destruct (String.eqb k' k); [by intros [= <-]|done].
Qed.

Lemma mutated_well_formed this k l :
  well_formed this -> Forall well_formed l -> well_formed (mutated this k l).
Proof.
  destruct this as [| | | | |m]; try done. intros [Hnd Hm]%well_formed_obj Hl.
  cbn [mutated]. apply well_formed_obj. split; [by apply set_own_NoDup|].
  apply set_own_Forall; [done|]. by apply well_formed_arr.
Qed.

Lemma as_array_well_formed this k l :
  well_formed this -> bind (get this k) as_array = Normal l -> Forall well_formed l.
Proof.
  destruct this as [| | | | |m]; try done. intros Hwf. cbn [get bind].
  destruct (get_own m k) as [[| | | |l'|]|] eqn:Hget; try done. intros [= <-].
  by apply well_formed_arr, (get_own_well_formed m k).
Qed.

Lemma as_array_throws v k e : bind (get v k) as_array = Throw e -> e = TypeError.
Proof.
  destruct v as [| | | | |m]; cbn; try (by intros [= <-]).
  destruct (get_own m k) as [[]|]; cbn; by intros [= <-].
Qed.

Lemma findIndex_id_throws l id e : findIndex_id l id = Throw e -> e = TypeError.
Proof.
  revert e. induction l as [|x l IH]; intros e; [done|]. cbn [findIndex_id].
  destruct (get x "id") as [o|e'] eqn:Hg.
  - destruct o as [[| | |t| |]|]; try destruct (String.eqb t id); try done;
      destruct (findIndex_id l id) as [[]|]; try done; intros [= <-]; by apply IH.
  - intros [= <-]. destruct x; cbn in Hg; congruence.
Qed.

Lemma _handleTriage_cases this id from to :
  match _handleTriage this id from to with
  | Returned r effects =>
      (r = this /\ effects = []) \/ effects = [postMessage "updateView" r]
  | Threw _ e => e = TypeError
  end.
Proof.
  unfold _handleTriage.
  destruct (bind (get this (name from)) as_array) as [l|e] eqn:Hl;
    [|by eapply as_array_throws].
  destruct (findIndex_id l id) as [[index|]|e] eqn:Hi;
    [|by left|by eapply findIndex_id_throws].
  destruct (l !! index); [|by left].
  destruct (bind (get _ (name to)) as_array) as [l2|e] eqn:Hl2; [by right|].
  by eapply as_array_throws.
Qed.

Lemma _handleTriage_well_formed this id from to :
  well_formed this ->
  match _handleTriage this id from to with
  | Returned r effects => well_formed r /\ posts_well_formed effects
  | Threw r _ => well_formed r
  end.
Proof.
  intros Hwf. unfold _handleTriage.
  destruct (bind (get this (name from)) as_array) as [l|e] eqn:Hl; [|done].
  apply as_array_well_formed in Hl; [|done].
  destruct (findIndex_id l id) as [[index|]|e]; [|by split; [|constructor]|done].
  destruct (l !! index) as [item|] eqn:Hitem; [|by split; [|constructor]].
  assert (H1 : well_formed (mutated this (name from) (delete index l))).
  { apply mutated_well_formed; [done|]. by apply Forall_delete. }
  destruct (bind (get _ (name to)) as_array) as [l2|e] eqn:Hl2; [|done].
  apply as_array_well_formed in Hl2; [|done].
  assert (H2 : well_formed (mutated (mutated this (name from) (delete index l))
                                    (name to) (l2 ++ [item]))).
  { apply mutated_well_formed; [done|]. apply Forall_app. split; [done|].
    constructor; [|done]. rewrite Forall_forall in Hl. apply Hl.
    by eapply list_elem_of_lookup_2. }
  split; [done|]. by repeat constructor.
Qed.

Lemma onDidReceiveMessage_well_formed env s m :
  well_formed (this_results s) ->
  let '(s', effects, _) := onDidReceiveMessage env s m in
  well_formed (this_results s') /\ posts_well_formed effects.
Proof.
  intros Hwf. destruct m as [|id from to|path line col|data|]; cbn [onDidReceiveMessage].
  - split; [done|]. by repeat constructor.
  - pose proof (_handleTriage_well_formed (this_results s) id from to Hwf) as H.
    destruct (_handleTriage _ id from to); [done|]. split; [done|constructor].
  - split; [done|]. unfold _goToLocation. destruct (bind _ _); by repeat constructor.
  - unfold _saveProgress. destruct (showSaveDialog env) as [[uri|]|e]; cbn.
    + destruct (writeFile _ _ _ _); cbn; split; try done; by repeat constructor.
    + split; [done|constructor].
    + split; [done|]. by repeat constructor.
  - unfold _loadProgress. destruct (showOpenDialog env) as [[[|uri l]|]|e]; cbn;
      try (split; [done|]; by repeat constructor).
    destruct (readFile _ _ uri) as [content|e]; cbn;
      [|split; [done|]; by repeat constructor].
    destruct (JSON.parse content) as [v|] eqn:Hp; cbn;
      [|split; [done|]; by repeat constructor].
    apply JSON_parse_well_formed in Hp. split; [done|]. by repeat constructor.
Qed.

Lemma fold_webview_well_formed effects w :
  posts_well_formed effects -> well_formed w ->
  well_formed (fold_left webview_onmessage effects w).
Proof.
  intros He. revert w. induction He as [|e effects H He IH]; intros w Hw; [done|].
  cbn [fold_left]. apply IH. destruct e; try done. cbn [webview_onmessage].
  by destruct (String.eqb command "updateView").
Qed.

Lemma step_well_formed env sys a :
  well_formed (this_results (session sys)) -> well_formed (webview_results sys) ->
  well_formed (this_results (session (fst (step env sys a))))
  /\ well_formed (webview_results (fst (step env sys a))).
Proof.
  intros Hs Hw. unfold step.
  pose proof (onDidReceiveMessage_well_formed env (session sys)
                (message_of (webview_results sys) a) Hs) as H.
  destruct (onDidReceiveMessage _ _ _) as [[s' effects] e]. destruct H as [H1 H2].
  cbn [fst session webview_results]. split; [done|].
  by apply fold_webview_well_formed.
Qed.

Lemma run_well_formed sys steps :
  well_formed (this_results (session sys)) -> well_formed (webview_results sys) ->
  well_formed (this_results (session (run sys steps)))
  /\ well_formed (webview_results (run sys steps)).
Proof.
  revert sys. induction steps as [|[env a] steps IH]; intros sys Hs Hw; [done|].
  cbn [run]. destruct (step_well_formed env sys a Hs Hw). by apply IH.
Qed.

(** X4. Saving writes what the webview holds, and a load reads it.  After
    any run of the panel (triage clicks, loads of other files, saves,
    failures, in any order), a save followed by a load of the saved file,
    at once or in any panel that finds the file as written, makes
    [_results] what the text of the value the webview held is read as.
    For a value of doubles that is the value with [null] in place of every
    infinite number and [0] in place of -0; it is the value itself when
    its numbers are finite doubles other than -0. *)
Theorem save_then_load_restores_view
    (results : list value) (steps : list (Environment * action))
    (files0 : gmap string string) (env_save env_load : Environment) (uri : string) :
  Forall well_formed results ->
  showSaveDialog env_save = Normal (Some uri) -> fault env_save = None ->
  showOpenDialog env_load = Normal (Some [uri]) -> fault env_load = None ->
  let sys := run (opened results files0) steps in
  let sys2 := fst (step env_save sys click_save) in
  this_results (session sys2) = this_results (session sys) /\
  files (session sys2) !! uri = Some (JSON.stringify (webview_results sys)) /\
  (forall sys' : System,
     files (session sys') !! uri = files (session sys2) !! uri ->
     this_results (session (fst (step env_load sys' click_load)))
     = reread (webview_results sys)) /\
  (every_number double (webview_results sys) ->
   reread (webview_results sys) = written (webview_results sys)) /\
  (every_number exact (webview_results sys) ->
   reread (webview_results sys) = webview_results sys).
Proof.
  intros Hwf Hsave Hsf Hload Hlf sys sys2.
  assert (Hw : well_formed (webview_results sys)).
  { apply run_well_formed; [by apply well_formed_constructor|].
    apply (well_formed_constructor []). constructor. }
  assert (Hfile : files (session sys2) !! uri = Some (JSON.stringify (webview_results sys))).
  { subst sys2. unfold step.
    cbn [message_of onDidReceiveMessage]. unfold _saveProgress, writeFile.
    rewrite Hsave, Hsf. cbn [fst session files]. apply lookup_insert_eq. }
  split_and!; [|done| |apply reread_double|apply reread_exact].
  - subst sys2. unfold step. cbn [message_of onDidReceiveMessage].
    by destruct (_saveProgress _ _ _).
  - intros sys' Hsame. rewrite Hfile in Hsame. unfold step.
    cbn [message_of onDidReceiveMessage]. unfold _loadProgress, readFile.
    rewrite Hload, Hlf, Hsame, JSON_parse_stringify by done. done.
Qed.

(** ** The webview follows the panel *)

(** X5. As long as no exception escapes a handler, the webview's copy is
    the panel's [_results] after every action: the first [initialized]
    brings it there, and every handler that changes [_results] posts the
    new value. *)
Theorem quiet_run_in_sync
    (results : list value) (files0 : gmap string string) (env0 : Environment)
    (steps : list (Environment * action)) :
  quiet (opened results files0) ((env0, script_loaded) :: steps) ->
  let sys := run (opened results files0) ((env0, script_loaded) :: steps) in
  webview_results sys = this_results (session sys).
Proof.
  assert (Hstep : forall env sys a,
            (a = script_loaded \/ webview_results sys = this_results (session sys)) ->
            escaped env sys a = None ->
            webview_results (fst (step env sys a))
            = this_results (session (fst (step env sys a)))).
  { intros env sys a Hsync. unfold escaped, step.
    destruct a as [|id from to|path line col| |]; cbn [message_of onDidReceiveMessage].
    - cbn. done.
    - destruct Hsync as [|Hsync]; [done|].
      pose proof (_handleTriage_cases (this_results (session sys)) id from to) as Hc.
      destruct (_handleTriage _ id from to) as [r effects|r e]; [|done].
      intros _. cbn [fst session webview_results this_results].
      destruct Hc as [[-> ->]| ->]; [done|]. cbn.
      by change (String.eqb "updateView" "updateView") with true.
    - destruct Hsync as [|Hsync]; [done|]. intros _. cbn [fst session webview_results].
      unfold _goToLocation. by destruct (bind _ _).
    - destruct Hsync as [|Hsync]; [done|]. intros _. unfold _saveProgress.
      destruct (showSaveDialog env) as [[u|]|e]; [destruct (writeFile _ _ _ _)|..];
        done.
    - destruct Hsync as [|Hsync]; [done|]. intros _. unfold _loadProgress.
      destruct (showOpenDialog env) as [[[|u l]|]|e]; try done.
      destruct (readFile _ _ u) as [c|e]; [|done].
      destruct (JSON.parse c) as [v|]; [|done]. cbn.
      by change (String.eqb "updateView" "updateView") with true. }
  assert (Hrun : forall steps sys,
            webview_results sys = this_results (session sys) -> quiet sys steps ->
            webview_results (run sys steps) = this_results (session (run sys steps))).
  { clear steps. intros steps. induction steps as [|[env a] steps IH]; intros sys Hs Hq; [done|].
    cbn [run quiet] in *. destruct Hq as [He Hq]. apply IH; [|done].
    apply Hstep; [by right|done]. }
  intros [He Hq] sys. subst sys. cbn [run]. apply Hrun; [|done].
  apply Hstep; [by left|done].
Qed.

(** ** Moves that undo each other *)

Lemma invariant_unique_id s id a b f g :
  partition_invariant s -> a <> b -> f ∈ bucket a s -> has_id id f ->
  g ∈ bucket b s -> ~ has_id id g.
Proof.
  intros Hinv Hne Hf Hid Hg Hgid.
  apply (partition_invariant_disjoint s Hinv a b f g Hne Hf Hg).
  unfold has_id in *. congruence.
Qed.

Lemma TriageState_ext (s s' : TriageState) :
  (forall c, bucket c s = bucket c s') -> s = s'.
Proof.
  intros H. destruct s, s'.
  pose proof (H untriaged) as Hu. pose proof (H issues) as Hi.
  pose proof (H falsePositives) as Hf. cbn in Hu, Hi, Hf. by subst.
Qed.

Lemma bucket_ids_NoDup s c : partition_invariant s -> NoDup (id_of <$> bucket c s).
Proof.
  unfold partition_invariant, all_findings. rewrite !fmap_app.
  intros (Hu & _ & (Hi & _ & Hf)%NoDup_app)%NoDup_app. by destruct c.
Qed.

(** X6. Under the partition invariant, moving a finding to another bucket
    and back leaves the other buckets exactly as before and makes the
    finding the last of its own bucket.  So the state is the one before
    exactly when the finding was already the last of its bucket; in every
    other case the finding has changed its place. *)
Theorem move_there_and_back (s : TriageState) (id : string) (a b : Bucket) :
  partition_invariant s -> a <> b ->
  (exists f, f ∈ bucket a s /\ has_id id f) ->
  exists pre item post s2,
    bucket a s = pre ++ item :: post /\ has_id id item /\
    triage_all (encode s) [(id, a, b); (id, b, a)] = encode s2 /\
    bucket a s2 = pre ++ post ++ [item] /\
    (forall c, c <> a -> bucket c s2 = bucket c s) /\
    (s2 = s <-> post = []).
Proof.
  intros Hinv Hne Hex.
  destruct (move_present s id a Hex) as (pre & item & post & Hsplit & Hid & Hpre & Hfind & Hdel).
  set (s1 := move s id a b).
  assert (Hs1 : s1 = set_bucket b (bucket b s ++ [item]) (set_bucket a (pre ++ post) s)).
  { subst s1. unfold move. rewrite Hfind, Hdel. cbn zeta.
    by rewrite (bucket_set_bucket_ne a b) by done. }
  assert (Hb1 : bucket b s1 = bucket b s ++ [item]).
  { rewrite Hs1. apply bucket_set_bucket_eq. }
  assert (Ha1 : bucket a s1 = pre ++ post).
  { rewrite Hs1. rewrite (bucket_set_bucket_ne b a) by done. apply bucket_set_bucket_eq. }
  assert (Hnone : list_find (fun f => has_idb id f) (bucket b s) = None).
  { apply move_absent. intros g Hg. eapply (invariant_unique_id s id a b item); try done.
    rewrite Hsplit. apply elem_of_app. right. left. }
  assert (Hfind2 : list_find (fun f => has_idb id f) (bucket b s1)
                   = Some (length (bucket b s), item)).
  { rewrite Hb1, list_find_app_r by done. cbn [list_find].
    rewrite decide_True by by apply has_idb_Is_true. cbn. done. }
  assert (Hs2 : move s1 id b a
                = set_bucket a ((pre ++ post) ++ [item]) (set_bucket b (bucket b s) s1)).
  { unfold move. rewrite Hfind2, Hb1. rewrite delete_middle, app_nil_r. cbn zeta.
    rewrite (bucket_set_bucket_ne b a) by done. by rewrite Ha1. }
  assert (Ha2 : bucket a (move s1 id b a) = pre ++ post ++ [item]).
  { rewrite Hs2, bucket_set_bucket_eq. by rewrite <- app_assoc. }
  assert (Hothers : forall c, c <> a -> bucket c (move s1 id b a) = bucket c s).
  { intros c Hc. rewrite Hs2. rewrite (bucket_set_bucket_ne a c) by done.
    destruct (decide (c = b)) as [->|Hcb]; [by rewrite bucket_set_bucket_eq|].
    rewrite (bucket_set_bucket_ne b c) by done. rewrite Hs1.
    rewrite (bucket_set_bucket_ne b c) by done.
    by rewrite (bucket_set_bucket_ne a c) by done. }
  exists pre, item, post, (move s1 id b a).
  split_and!; [done|done|apply triage_all_encode|done|done|]. split.
  - intros Heq. rewrite Heq, Hsplit in Ha2. apply app_inv_head in Ha2.
    destruct post as [|x post']; [done|]. exfalso.
    injection Ha2 as -> _.
    pose proof (bucket_ids_NoDup s a Hinv) as Hnd.
    rewrite Hsplit, fmap_app in Hnd. apply NoDup_app in Hnd as (_ & _ & Hnd).
    cbn [fmap list_fmap] in Hnd. apply NoDup_cons in Hnd as [Hnot _]. apply Hnot. left.
  - intros ->. apply TriageState_ext. intros c.
    destruct (decide (c = a)) as [->|Hc]; [by rewrite Ha2, Hsplit|by apply Hothers].
Qed.

(** ** A progress file is not a results file *)

(** X7. The text a save writes for a triage state has no [results] array:
    the command that opens a results file answers it with the format error
    and keeps the current panel.  (A saved session is resumed with the
    empty view and Load.) *)
Theorem progress_file_is_no_results_file
    (ext : Extension) (fs : gmap string string) (uri : string) (rest : list string)
    (s : TriageState) :
  well_formed (encode s) ->
  readFile fs None uri = Normal (JSON.stringify (encode s)) ->
  openResults (Some (uri :: rest)) None fs ext
  = (ext, [showErrorMessage invalid_results_format None]).
Proof.
  intros Hwf Hread. unfold openResults.
  by rewrite Hread, JSON_parse_stringify.
Qed.

(** ** The webview's script *)

Lemma createRow_buttons (c : Bucket) :
  (if decide (c <> issues) then [to_bucket issues] else [])
    ++ (if decide (c <> falsePositives) then [to_bucket falsePositives] else [])
    ++ (if decide (c <> untriaged) then [to_bucket untriaged] else [])
  = (fun to => to_bucket to) <$> filter (fun to => c <> to) [issues; falsePositives; untriaged].
Proof. by destruct c. Qed.

Lemma join_throws convert l e :
  Forall (fun v => forall e, convert v = Throw e -> e = TypeError) l ->
  Array_join convert l = Throw e -> e = TypeError.
Proof.
  intros Hl. revert e. induction Hl as [|v l Hv Hl IH]; intros e; [done|].
  cbn [Array_join]. fold (Array_join convert).
  destruct (match v with JNull => Normal "" | _ => convert v end) as [t|e'] eqn:Hhead;
    cbn [bind].
  - destruct l as [|v' l']; [done|].
    destruct (Array_join convert (v' :: l')) as [t'|e'] eqn:Htail; [done|].
    cbn [bind]. intros [= <-]. by apply IH.
  - intros [= <-]. destruct v; try done; by apply Hv.
Qed.

Lemma ToString_throws v e : ToString v = Throw e -> e = TypeError.
Proof.
  revert e. induction v as [|b|x|s|l IH|m IH] using value_ind'; intros e; try done.
  - cbn [ToString]. by apply join_throws.
  - cbn [ToString]. by destruct (get_own m "toString"); [intros [= <-]|].
Qed.

Lemma ToString_of_throws o e : ToString_of o = Throw e -> e = TypeError.
Proof. destruct o; [apply ToString_throws|done]. Qed.

Example conversions :
  ToString (JArr [JNum (Int 1); JNull; JArr [JStr "a"; JBool true]]) = Normal "1,,a,true" /\
  ToString (JNum (Ratio 1 1)) = Normal "0.5" /\
  ToString (JObj [("a", JNull)]) = Normal "[object Object]" /\
  ToString (JObj [("toString", JNum (Int 0))]) = Throw TypeError /\
  ToString (JArr [JObj [("toString", JNull)]]) = Throw TypeError.
Proof. by vm_compute. Qed.

Lemma interpolate_Normal c o :
  interpolate c = Normal o <-> c = Normal o /\ exists s, ToString_of o = Normal s.
Proof.
  unfold interpolate. destruct c as [o'|e]; cbn [bind]; [|by split; [|intros []]].
  destruct (ToString_of o') as [s|e] eqn:Hs; cbn [bind].
  - split; [intros [= <-]; eauto|by intros [[= <-] _]].
  - split; [done|]. intros [[= <-] [s Hs']]. congruence.
Qed.

Lemma interpolate_throws c e :
  (forall e', c = Throw e' -> e' = TypeError) -> interpolate c = Throw e -> e = TypeError.
Proof.
  unfold interpolate. intros Hc. destruct c as [o|e']; cbn [bind].
  - destruct (ToString_of o) eqn:Hs; [done|]. intros [= <-]. by eapply ToString_of_throws.
  - intros [= <-]. by apply Hc.
Qed.

Lemma get_throws v k e : get v k = Throw e -> e = TypeError.
Proof. destruct v; try done. by intros [= <-]. Qed.

Lemma extra_field_throws item k e : extra_field item k = Throw e -> e = TypeError.
Proof.
  unfold extra_field. destruct (get item "extra") as [[x|]|e'] eqn:Hx; cbn [bind read].
  - apply get_throws.
  - by intros [= <-].
  - intros [= <-]. by eapply get_throws.
Qed.

(** The field of [extra] a row shows. *)
Lemma extra_field_obj (f : SemgrepResult) (k : string) o :
  extra_field (JObj f) k = Normal o <->
  has_extra f /\ o = match get_own f "extra" with
                     | Some (JObj e) => get_own e k
                     | _ => None
                     end.
Proof.
  unfold extra_field, has_extra. cbn [get bind read].
  destruct (get_own f "extra") as [[| | | | |m]|]; cbn [get]; split;
    try (intros [= <-]; split; [eexists; split; [done|done]|done]);
    try (by intros [_ ->]);
    try done.
  - by intros [(e & [= <-] & ?) _].
  - by intros [(e & [=] & ?) _].
Qed.

Lemma lacks_not_has_extra f : lacks_extra f -> ~ has_extra f.
Proof. intros [H|H] (e & He & Hne); congruence. Qed.

Lemma renderable_not_unrenderable f : renderable f -> ~ unrenderable f.
Proof.
  intros [Hextra Hall] [Hlack|Hex]; [by eapply lacks_not_has_extra|].
  apply Exists_exists in Hex as (o & Ho & Hthrow).
  rewrite Forall_forall in Hall. destruct (Hall o Ho) as [s Hs]. congruence.
Qed.

(** A row is built exactly for the renderable findings, and it is the row
    of the finding. *)
Lemma createRow_Normal (f : SemgrepResult) (c : Bucket) (r : row) :
  createRow (JObj f) c = Normal r <-> renderable f /\ r = row_of c f.
Proof.
  unfold createRow, renderable, row_of, shown_values. rewrite createRow_buttons. split.
  - intros Hrow.
    repeat match type of Hrow with
           | bind ?i _ = Normal _ =>
               let o := fresh "o" in let H := fresh "H" in
               destruct i as [o|] eqn:H; [cbn [bind] in Hrow|done]
           end.
    injection Hrow as <-.
    repeat match goal with
           | H : interpolate _ = Normal _ |- _ => apply interpolate_Normal in H as [? [? ?]]
           end.
    repeat match goal with
           | H : extra_field _ _ = Normal _ |- _ => apply extra_field_obj in H as [? ?]
           | H : get (JObj _) _ = Normal _ |- _ => cbn [get] in H; injection H as H
           end.
    subst. split; [|done]. split; [done|].
    repeat (apply Forall_cons_2; [by eauto|]). apply Forall_nil_2.
  - intros [[Hextra Hall] ->].
    rewrite !Forall_cons in Hall. destruct Hall as (H1 & H2 & H3 & H4 & H5 & _).
    assert (Hint : forall i o, i = Normal o -> (exists s, ToString_of o = Normal s) ->
                               interpolate i = Normal o).
    { intros i o Hi Hs. by apply interpolate_Normal. }
    rewrite !(Hint (get (JObj f) "check_id") _ eq_refl H1).
    rewrite !(Hint _ _ (proj2 (extra_field_obj f "message" _) (conj Hextra eq_refl)) H2).
    rewrite !(Hint _ _ (proj2 (extra_field_obj f "severity" _) (conj Hextra eq_refl)) H3).
    rewrite !(Hint (get (JObj f) "path") _ eq_refl H4).
    rewrite !(Hint _ _ (proj2 (extra_field_obj f "lines" _) (conj Hextra eq_refl)) H5).
    reflexivity.
Qed.

Lemma createRow_renderable (f : SemgrepResult) (c : Bucket) :
  renderable f -> createRow (JObj f) c = Normal (row_of c f).
Proof. intros Hf. by apply createRow_Normal. Qed.

Lemma createRow_throws item c e : createRow item c = Throw e -> e = TypeError.
Proof.
  unfold createRow. intros Hrow.
  repeat match type of Hrow with
         | bind ?i _ = Throw _ =>
             let o := fresh "o" in let H := fresh "H" in
             destruct i as [o|] eqn:H;
               [cbn [bind] in Hrow
               |cbn [bind] in Hrow; injection Hrow as <-;
                eapply interpolate_throws; [|exact H];
                first [apply get_throws|apply extra_field_throws]]
         end.
  done.
Qed.

Lemma createRow_unrenderable (f : SemgrepResult) (c : Bucket) :
  unrenderable f -> createRow (JObj f) c = Throw TypeError.
Proof.
  intros Hf. destruct (createRow (JObj f) c) as [r|e] eqn:Hrow.
  - apply createRow_Normal in Hrow as [Hr _]. by destruct (renderable_not_unrenderable f).
  - by apply createRow_throws in Hrow as ->.
Qed.

Lemma create_rows_renderable (l : list SemgrepResult) (c : Bucket) :
  Forall renderable l -> create_rows (JObj <$> l) c = Normal (row_of c <$> l).
Proof.
  induction 1 as [|f l Hf Hl IH]; [done|].
  cbn [fmap list_fmap create_rows]. fold (@fmap list _ _ _ JObj l).
  rewrite createRow_renderable by done. cbn [bind]. by rewrite IH.
Qed.

Lemma create_rows_unrenderable (l : list SemgrepResult) (c : Bucket) :
  Exists unrenderable l -> create_rows (JObj <$> l) c = Throw TypeError.
Proof.
  induction 1 as [f l Hf|f l Hl IH]; cbn [fmap list_fmap create_rows].
  - by rewrite createRow_unrenderable.
  - fold (@fmap list _ _ _ JObj l). rewrite IH.
    destruct (createRow (JObj f) c) as [r|e] eqn:Hr; [done|].
    by apply createRow_throws in Hr as ->.
Qed.

Lemma renderTable_encode s c p :
  renderTable (encode s) c p
  = match create_rows (JObj <$> bucket c s) c with
    | Normal rows =>
        (set_table c {| count := Some (JNum (Int (Z.of_nat (length (bucket c s)))));
                        header := true; body := rows |} p, None)
    | Throw e =>
        (set_table c {| count := Some (JNum (Int (Z.of_nat (length (bucket c s)))));
                        header := true; body := [] |} p, Some e)
    end.
Proof.
  unfold renderTable. rewrite get_encode. cbn [bind length_of as_array DOMString ToString].
  rewrite length_fmap. by destruct (create_rows _ c).
Qed.

Lemma create_rows_throws l c e : create_rows l c = Throw e -> e = TypeError.
Proof.
  revert e. induction l as [|x l IH]; intros e; [done|]. cbn [create_rows].
  destruct (createRow x c) as [r|e'] eqn:Hr; cbn [bind].
  - destruct (create_rows l c) as [rs|e'']; [done|]. intros [= <-]. by apply IH.
  - intros [= <-]. by eapply createRow_throws.
Qed.

Lemma create_rows_length l c rows : create_rows l c = Normal rows -> length rows = length l.
Proof.
  revert rows. induction l as [|x l IH]; intros rows; cbn [create_rows].
  - by intros [= <-].
  - destruct (createRow x c); [|done]. cbn [bind].
    destruct (create_rows l c) as [rs|]; [|done]. intros [= <-]. cbn. f_equal. by apply IH.
Qed.

(** X8. The page of a triage state is built when every finding is
    renderable: it has an [extra] that is neither [undefined] nor [null],
    and each of the five values its row shows has a string conversion (an
    object with an own [toString] has none).  Then each table shows the
    length of its bucket and one row per finding, in the bucket's order.
    One finding that is not (entries are not checked at ingestion) makes
    [renderAllTables] throw a [TypeError]; when it sits in [untriaged], that
    table is left with its count and header and no rows, and the two others
    are not redrawn. *)
Theorem render_needs_extra (s : TriageState) (w : Webview) :
  ((forall f, f ∈ all_findings s -> renderable f) ->
   updateView w (encode s) = ({| results := encode s; shown := page_of s |}, None)) /\
  ((exists f, f ∈ all_findings s /\ unrenderable f) ->
   snd (updateView w (encode s)) = Some TypeError) /\
  ((exists f, f ∈ bucket untriaged s /\ unrenderable f) ->
   updateView w (encode s)
   = ({| results := encode s;
         shown := set_table untriaged
                    {| count := Some (JNum (Int (Z.of_nat (length (bucket untriaged s)))));
                       header := true; body := [] |} (shown w) |},
      Some TypeError)).
Proof.
  unfold updateView, renderAllTables. rewrite !renderTable_encode. split_and!.
  - intros Hall.
    assert (Hb : forall b, Forall renderable (bucket b s)).
    { intros b. apply Forall_forall. intros f Hf. apply Hall. unfold all_findings.
      destruct b; cbn in Hf; rewrite !elem_of_app; auto. }
    rewrite create_rows_renderable by done.
    rewrite renderTable_encode, create_rows_renderable by done.
    rewrite renderTable_encode, create_rows_renderable by done. reflexivity.
  - intros (f & Hf & Hlack).
    assert (Hb : exists b, Exists unrenderable (bucket b s)).
    { unfold all_findings in Hf. rewrite !elem_of_app in Hf.
      destruct Hf as [Hf|[Hf|Hf]];
        [exists untriaged|exists issues|exists falsePositives];
        apply Exists_exists; eauto. }
    destruct Hb as [b Hb].
    pose proof (create_rows_unrenderable _ b Hb) as Hthrow.
    destruct (create_rows (JObj <$> bucket untriaged s) untriaged) as [r1|e1] eqn:H1;
      [|by apply create_rows_throws in H1 as ->].
    rewrite renderTable_encode.
    destruct (create_rows (JObj <$> bucket issues s) issues) as [r2|e2] eqn:H2;
      [|by apply create_rows_throws in H2 as ->].
    rewrite renderTable_encode.
    destruct (create_rows (JObj <$> bucket falsePositives s) falsePositives)
      as [r3|e3] eqn:H3; [|by apply create_rows_throws in H3 as ->].
    destruct b; congruence.
  - intros (f & Hf & Hlack).
    rewrite create_rows_unrenderable; [done|]. apply Exists_exists. eauto.
Qed.

Lemma NoDup_fmap_eq {A B} (g : A -> B) (l : list A) x y :
  NoDup (g <$> l) -> x ∈ l -> y ∈ l -> g x = g y -> x = y.
Proof.
  induction l as [|z l IH]; [by intros _ ?%elem_of_nil|].
  cbn [fmap list_fmap]. intros [Hz Hl]%NoDup_cons.
  intros [->|Hx]%elem_of_cons [->|Hy]%elem_of_cons Heq; try done.
  - destruct Hz. rewrite Heq. by apply list_elem_of_fmap_2.
  - destruct Hz. rewrite <- Heq. by apply list_elem_of_fmap_2.
  - by apply IH.
Qed.

(** X9. A row offers a move to each of the two other buckets and none to
    its own.  Under the partition invariant, for a finding of the state
    with a string id, the click of such a button posts a triage message
    that the handler answers by moving that very finding: it leaves its
    bucket, the others of the bucket keep their order, and it becomes the
    last of the bucket the button names. *)
Theorem rendered_button_moves
    (s : TriageState) (c t : Bucket) (f : SemgrepResult) (id : string) (r : row) :
  partition_invariant s -> f ∈ bucket c s -> has_id id f ->
  createRow (JObj f) c = Normal r ->
  (to_bucket t ∈ buttons r <-> t <> c) /\
  (t <> c ->
   click r (to_bucket t) = Normal (Some (triage id c t)) /\
   exists pre post s',
     bucket c s = pre ++ f :: post /\
     _handleTriage (encode s) id c t
       = Returned (encode s') [postMessage "updateView" (encode s')] /\
     bucket c s' = pre ++ post /\
     bucket t s' = bucket t s ++ [f]).
Proof.
  intros Hinv Hf Hid Hrow.
  assert (Hr : row_item r = JObj f /\ row_category r = c /\
               buttons r = go_to :: ((fun to => to_bucket to)
                 <$> filter (fun to => c <> to) [issues; falsePositives; untriaged])).
  { apply createRow_Normal in Hrow as [_ ->]. done. }
  destruct Hr as (Hitem & Hcat & Hbuttons). split.
  - rewrite Hbuttons, elem_of_cons, list_elem_of_fmap. split.
    + intros [[=]|(t' & [= <-] & Hin)]. apply list_elem_of_filter in Hin as [? _].
      congruence.
    + intros Hne. right. exists t. split; [done|]. apply list_elem_of_filter.
      split; [congruence|]. destruct t; rewrite !elem_of_cons; auto.
  - intros Hne. split.
    { unfold click. rewrite Hitem, Hcat. cbn [get bind].
      unfold has_id, id_of in Hid. by rewrite Hid. }
    destruct (move_present s id c) as
      (pre & item & post & Hsplit & Hiid & Hpre & Hfind & Hdel); [by eauto|].
    assert (item = f) as ->.
    { apply (NoDup_fmap_eq id_of (all_findings s)); [done|..].
      - unfold all_findings. destruct c; cbn in Hsplit; rewrite Hsplit;
          rewrite !elem_of_app, ?elem_of_cons; auto.
      - unfold all_findings. destruct c; cbn in Hf; rewrite !elem_of_app; auto.
      - unfold has_id in *. congruence. }
    exists pre, post, (move s id c t). split_and!; [done|..].
    + by rewrite _handleTriage_encode, Hfind.
    + unfold move. rewrite Hfind, Hdel. cbn zeta.
      rewrite (bucket_set_bucket_ne t c) by done. apply bucket_set_bucket_eq.
    + unfold move. rewrite Hfind, Hdel. cbn zeta. rewrite bucket_set_bucket_eq.
      by rewrite (bucket_set_bucket_ne c t) by done.
Qed.

(** X10. Whenever the page of a state reached by moves from an ingested
    array is drawn in full, the three counts it shows add up to the number
    of findings ingested. *)
Theorem counts_add_up
    (input : list value) (ops : list (string * Bucket * Bucket)) (w : Webview) :
  snd (updateView w (triage_all (constructor input) ops)) = None ->
  let p := shown (fst (updateView w (triage_all (constructor input) ops))) in
  (shown_count (untriaged_table p) + shown_count (issues_table p)
   + shown_count (falsePositives_table p))%Z
  = Z.of_nat (length input).
Proof.
  rewrite constructor_encode, triage_all_encode.
  set (s := move_all (ingested input) ops).
  assert (Hlen : length (bucket untriaged s) + length (bucket issues s)
                 + length (bucket falsePositives s) = length input).
  { pose proof (Permutation_length (move_all_Permutation (ingested input) ops)) as Hp.
    fold s in Hp. unfold all_findings in Hp. rewrite !length_app in Hp. cbn in Hp |- *.
    rewrite length_imap in Hp. lia. }
  unfold updateView, renderAllTables. rewrite renderTable_encode.
  destruct (create_rows (JObj <$> bucket untriaged s) untriaged); [|done].
  rewrite renderTable_encode.
  destruct (create_rows (JObj <$> bucket issues s) issues); [|done].
  rewrite renderTable_encode.
  destruct (create_rows (JObj <$> bucket falsePositives s) falsePositives); [|done].
  intros _. cbn. unfold shown_count. cbn. cbn in Hlen. lia.
Qed.

(** ** The nonce *)

Lemma list_ascii_of_string_app s1 s2 :
  list_ascii_of_string (s1 +:+ s2) = list_ascii_of_string s1 ++ list_ascii_of_string s2.
Proof. induction s1 as [|c s1 IH]; [done|]. simpl. by f_equal. Qed.

Lemma String_get_lookup s i :
  String.get i s = list_ascii_of_string s !! i.
Proof. revert i. induction s as [|c s IH]; intros [|i]; cbn; auto. Qed.

Lemma possible_NoDup : NoDup (list_ascii_of_string possible).
Proof. by apply (bool_decide_unpack _). Qed.

Lemma possible_alphanumeric : Forall alphanumeric (list_ascii_of_string possible).
Proof.
  unfold possible. cbn [list_ascii_of_string].
  repeat (apply Forall_cons_2; [unfold alphanumeric; vm_compute; lia|]). apply Forall_nil_2.
Qed.

Lemma charAt_possible k :
  k < 62 ->
  exists c, list_ascii_of_string possible !! k = Some c
            /\ charAt possible k = String c EmptyString.
Proof.
  intros Hk. unfold charAt. rewrite String_get_lookup.
  destruct (lookup_lt_is_Some_2 (list_ascii_of_string possible) k) as [c Hc]; [done|].
  exists c. by rewrite Hc.
Qed.

Lemma getNonce_loop_chars draw i n text :
  (forall j, i <= j < i + n -> draw j < 62) ->
  exists cs,
    list_ascii_of_string (getNonce_loop draw i n text) = list_ascii_of_string text ++ cs /\
    length cs = n /\
    forall j, j < n -> list_ascii_of_string possible !! draw (i + j) = cs !! j.
Proof.
  revert i text. induction n as [|n IH]; intros i text Hdraw.
  - exists []. cbn. rewrite app_nil_r. split_and!; [done..|]. intros j Hj. lia.
  - cbn [getNonce_loop].
    destruct (charAt_possible (draw i)) as (c & Hc & ->); [apply Hdraw; lia|].
    destruct (IH (S i) (text +:+ String c EmptyString)) as (cs & Hcs & Hlen & Hnth).
    { intros j Hj. apply Hdraw. lia. }
    exists (c :: cs). rewrite Hcs, list_ascii_of_string_app. cbn.
    rewrite <- app_assoc. split_and!; [done|by rewrite Hlen|].
    intros [|j] Hj.
    + by rewrite Nat.add_0_r.
    + cbn. rewrite <- Hnth by lia. do 2 f_equal. lia.
Qed.

(** X11. With every draw below the length of the alphabet (as
    [Math.floor(Math.random() * possible.length)] is), the nonce has 32
    characters, each a letter or a digit, and it tells the 32 draws apart:
    two runs return the same nonce only when they drew the same. *)
Theorem getNonce_alphanumeric (draw : nat -> nat) :
  (forall i, i < 32 -> draw i < String.length possible) ->
  String.length (getNonce draw) = 32 /\
  Forall alphanumeric (list_ascii_of_string (getNonce draw)) /\
  forall draw' : nat -> nat,
    (forall i, i < 32 -> draw' i < String.length possible) ->
    getNonce draw = getNonce draw' -> forall i, i < 32 -> draw i = draw' i.
Proof.
  intros Hdraw.
  assert (Hspec : forall d : nat -> nat,
            (forall i, i < 32 -> d i < String.length possible) ->
            exists cs, list_ascii_of_string (getNonce d) = cs /\ length cs = 32 /\
                       forall j, j < 32 -> list_ascii_of_string possible !! d j = cs !! j).
  { intros d Hd. destruct (getNonce_loop_chars d 0 32 "") as (cs & Hcs & Hlen & Hnth).
    { intros j Hj. apply Hd. lia. }
    exists cs. by split_and!. }
  destruct (Hspec draw Hdraw) as (cs & Hcs & Hlen & Hnth). split_and!.
  - rewrite <- (string_of_list_ascii_of_string (getNonce draw)).
    by rewrite length_string_of_list_ascii, Hcs.
  - rewrite Hcs. apply Forall_lookup. intros j c Hj.
    assert (j < 32) by (apply lookup_lt_Some in Hj; lia).
    rewrite <- Hnth in Hj by done.
    pose proof possible_alphanumeric as Ha. rewrite Forall_lookup in Ha. by eapply Ha.
  - intros draw' Hdraw' Heq i Hi.
    destruct (Hspec draw' Hdraw') as (cs' & Hcs' & Hlen' & Hnth').
    assert (Hcc : cs' = cs) by congruence. rewrite Hcc in Hnth'.
    assert (Hsame : list_ascii_of_string possible !! draw i
                    = list_ascii_of_string possible !! draw' i).
    { rewrite Hnth by done. rewrite Hnth' by done. reflexivity. }
    destruct (lookup_lt_is_Some_2 (list_ascii_of_string possible) (draw i)) as [c Hc].
    { apply Hdraw. done. }
    eapply NoDup_lookup; [apply possible_NoDup|exact Hc|by rewrite <- Hsame].
Qed.

(** ** Closing the panel *)

Lemma dispose_loop_spec fuel (l : list (option nat)) :
  length l <= fuel ->
  dispose_loop fuel l = (disposable_dispose <$> omap id (List.rev l), []).
Proof.
  revert l. induction fuel as [|fuel IH]; intros l Hl.
  - destruct l; [done|]. cbn in Hl. lia.
  - cbn [dispose_loop]. destruct (List.rev l) as [|x popped] eqn:Hrev.
    + rewrite <- (rev_involutive l), Hrev. done.
    + assert (Hlen : length l = S (length popped)).
      { by rewrite <- (List.length_rev l), Hrev. }
      rewrite IH by (rewrite List.length_rev; lia).
      rewrite rev_involutive. by destruct x.
Qed.

(** X12. [dispose] clears [currentPanel], disposes the panel and then
    empties [_disposables] from its end: every entry that is an object is
    disposed once, the latest registered first, entries that are not are
    dropped.  The next [createOrShow] therefore creates a panel instead
    of revealing one. *)
Theorem dispose_releases_all (ext : Extension) (_disposables : list (option nat)) :
  dispose ext _disposables
  = ({| currentPanel := None |},
     panel_dispose :: (disposable_dispose <$> omap id (List.rev _disposables)),
     []) /\
  forall results,
    snd (createOrShow (dispose ext _disposables).1.1 results) = [createWebviewPanel].
Proof.
  assert (Hd : dispose ext _disposables
               = ({| currentPanel := None |},
                  panel_dispose :: (disposable_dispose <$> omap id (List.rev _disposables)),
                  [])).
  { unfold dispose. by rewrite dispose_loop_spec. }
  split; [done|]. intros results. by rewrite Hd.
Qed.

(** ** Panels that share a webview *)

Lemma receive_all_app env files l1 l2 m :
  receive_all env files (l1 ++ l2) m
  = ((receive_all env files l1 m).1 ++ (receive_all env files l2 m).1,
     (receive_all env files l1 m).2 ++ (receive_all env files l2 m).2).
Proof.
  induction l1 as [|r l1 IH]; cbn [receive_all app].
  - by destruct (receive_all env files l2 m).
  - rewrite IH.
    destruct (onDidReceiveMessage env _ m) as [[s effects] e].
    destruct (receive_all env files l1 m) as [rs1 effects1].
    destruct (receive_all env files l2 m) as [rs2 effects2]. cbn.
    by rewrite app_assoc.
Qed.

Lemma receive_all_initialized env files l :
  receive_all env files l initialized = (l, postMessage "updateView" <$> l).
Proof.
  induction l as [|r l IH]; [done|]. cbn [receive_all onDidReceiveMessage].
  rewrite IH. done.
Qed.

Lemma createOrShow_listeners_fst listening results :
  (createOrShow_listeners listening results).1 = listening ++ [constructor results].
Proof. by destruct listening. Qed.

(** X13. A [createOrShow] on an open panel puts one more instance on the
    same webview and drops none.  When the rewritten page posts
    [initialized], every instance answers with its own [_results], the
    oldest first, so the page ends on the findings just ingested.  A
    [triage] of a finding the newest instance holds is handled by every
    instance on its own copy, and the page ends on the newest instance's
    state after the move. *)
Theorem shared_webview_ends_on_newest
    (env : Environment) (files : gmap string string)
    (listening : list value) (results : list value) (w : value) :
  let now := (createOrShow_listeners listening results).1 in
  (forall ext, currentPanel ext = last listening ->
     createOrShow ext results
     = ({| currentPanel := last now |}, (createOrShow_listeners listening results).2)) /\
  (receive_all env files now initialized).2
    = postMessage "updateView" <$> (listening ++ [constructor results]) /\
  fold_left webview_onmessage (receive_all env files now initialized).2 w
    = constructor results /\
  forall (s : TriageState) (id : string) (from to : Bucket),
    (exists f, f ∈ bucket from s /\ has_id id f) ->
    let after := receive_all env files (listening ++ [encode s]) (triage id from to) in
    last after.1 = Some (encode (move s id from to)) /\
    length after.1 = S (length listening) /\
    fold_left webview_onmessage after.2 w = encode (move s id from to).
Proof.
  cbn zeta. rewrite createOrShow_listeners_fst. split_and!.
  - intros ext Hext. rewrite last_snoc. unfold createOrShow. rewrite Hext.
    destruct listening as [|r listening]; [done|].
    destruct (proj2 (last_is_Some (r :: listening))) as [x Hx]; [done|]. by rewrite Hx.
  - by rewrite receive_all_initialized.
  - rewrite receive_all_initialized. cbn [snd]. rewrite fmap_app, fold_left_app. done.
  - intros s id from to Hpresent. rewrite receive_all_app.
    cbn [receive_all onDidReceiveMessage this_results fst snd].
    rewrite _handleTriage_encode.
    destruct (move_present s id from Hpresent) as (pre & item & post & _ & _ & _ & Hfind & _).
    rewrite Hfind. cbn [fst snd this_results]. rewrite app_nil_r. split_and!.
    + by rewrite last_snoc.
    + rewrite length_app. cbn.
      assert (Hlen : forall l, length (receive_all env files l (triage id from to)).1 = length l).
      { clear. induction l as [|r l IH]; [done|]. cbn [receive_all].
        destruct (onDidReceiveMessage env _ _) as [[s effects] e].
        destruct (receive_all env files l _). cbn in *. by rewrite IH. }
      rewrite Hlen. lia.
    + by rewrite fold_left_app.
Qed.

(** ** The way to a finding's place *)




(** From 2^53 on it rounds, to the even neighbour at a tie. *)
Example position_rounds :
  Math_max_0 (minus_one (Int 9007199254740994)) = Int 9007199254740992.
Proof. by vm_compute. Qed.


(** ** The theorems at sample inputs *)

Lemma load_without_bucket_breaks_triage_witness :
  let env := answering progress_uri None in
  let fs : gmap string string := {[ progress_uri := "[1]" ]} in
  showOpenDialog env = Normal (Some [progress_uri]) /\
  readFile fs (fault env) progress_uri = Normal "[1]" /\
  JSON.parse "[1]" = Some odd_document /\
  (forall l, get odd_document (name untriaged) <> Normal (Some (JArr l))) /\
  let s1 := fst (fst (onDidReceiveMessage env
                        {| this_results := constructor sample_results; files := fs |}
                        load)) in
  this_results s1 = odd_document /\
  _handleTriage odd_document "item-0" untriaged issues = Threw odd_document TypeError /\
  onDidReceiveMessage env s1 (triage "item-0" untriaged issues)
  = (s1, [], Some TypeError).
Proof.
  intros env fs.
  assert (Hread : readFile fs (fault env) progress_uri = Normal "[1]").
  { unfold readFile, fs. cbn [fault answering env]. by rewrite lookup_singleton_eq. }
  split_and!; [reflexivity|exact Hread|reflexivity|discriminate|].
  apply (load_without_bucket_breaks_triage env env fs (constructor sample_results)
           progress_uri [] "[1]" odd_document "item-0" untriaged issues);
    [reflexivity|exact Hread|reflexivity|discriminate].
Defined.

Lemma triage_without_destination_loses_finding_witness :
  get_own one_bucket (name untriaged)
    = Some (JArr ((JObj <$> []) ++ JObj [("id", JStr "a")] :: [])) /\
  (forall g : SemgrepResult, g ∈ [] -> ~ has_id "a" g) /\
  has_id "a" [("id", JStr "a")] /\
  (forall l2, get_own one_bucket (name issues) <> Some (JArr l2)) /\
  exists m',
    _handleTriage (JObj one_bucket) "a" untriaged issues = Threw (JObj m') TypeError /\
    get_own m' (name untriaged) = Some (JArr ((JObj <$> []) ++ [])) /\
    (forall k, k <> name untriaged -> get_own m' k = get_own one_bucket k).
Proof.
  assert (Hpre : forall g : SemgrepResult, g ∈ [] -> ~ has_id "a" g).
  { intros g Hg. by apply elem_of_nil in Hg. }
  split_and!; [reflexivity|exact Hpre|reflexivity|discriminate|].
  apply (triage_without_destination_loses_finding one_bucket [] [("id", JStr "a")] []
           "a" untriaged issues); [reflexivity|exact Hpre|reflexivity|discriminate].
Defined.

Lemma triage_scans_to_first_match_witness :
  (forall g : SemgrepResult, g ∈ [] -> ~ has_id "a" g) /\
  get_own null_first (name untriaged) = Some (JArr ((JObj <$> []) ++ JNull :: [])) /\
  _handleTriage (JObj null_first) "a" untriaged issues = Threw (JObj null_first) TypeError.
Proof.
  assert (Hpre : forall g : SemgrepResult, g ∈ [] -> ~ has_id "a" g).
  { intros g Hg. by apply elem_of_nil in Hg. }
  split_and!; [exact Hpre|reflexivity|].
  apply (proj1 (triage_scans_to_first_match null_first [] [] "a" untriaged issues Hpre)).
  reflexivity.
Defined.

Lemma save_then_load_restores_view_witness :
  let env := answering progress_uri None in
  Forall well_formed measured_results /\
  showSaveDialog env = Normal (Some progress_uri) /\ fault env = None /\
  showOpenDialog env = Normal (Some [progress_uri]) /\
  let sys := run (opened measured_results ∅)
                 (triage_steps env [("item-0", untriaged, issues)]) in
  let sys2 := fst (step env sys click_save) in
  every_number exact (webview_results sys) /\
  this_results (session sys2) = this_results (session sys) /\
  files (session sys2) !! progress_uri = Some (JSON.stringify (webview_results sys)) /\
  (forall sys' : System,
     files (session sys') !! progress_uri = files (session sys2) !! progress_uri ->
     this_results (session (fst (step env sys' click_load)))
     = reread (webview_results sys)) /\
  (every_number double (webview_results sys) ->
   reread (webview_results sys) = written (webview_results sys)) /\
  reread (webview_results sys) = webview_results sys.
Proof.
  intros env.
  split_and!; [apply measured_results_well_formed|reflexivity..|].
  intros sys sys2.
  assert (Hexact : every_number exact (webview_results sys)).
  { vm_compute. tauto. }
  destruct (save_then_load_restores_view measured_results
              (triage_steps env [("item-0", untriaged, issues)]) ∅ env env progress_uri
              measured_results_well_formed eq_refl eq_refl eq_refl eq_refl)
    as (Hkeep & Hfile & Hload & Hwritten & Hsame).
  split_and!; [exact Hexact|exact Hkeep|exact Hfile|exact Hload|exact Hwritten
              |exact (Hsame Hexact)].
Defined.

Lemma quiet_run_in_sync_witness :
  let env := answering progress_uri None in
  let steps := [(env, click_triage "item-0" untriaged issues);
                (env, click_goTo "src/a.ts" (Int 3) (Int 1))] in
  quiet (opened sample_results ∅) ((env, script_loaded) :: steps) /\
  let sys := run (opened sample_results ∅) ((env, script_loaded) :: steps) in
  webview_results sys = this_results (session sys).
Proof.
  intros env steps.
  assert (Hq : quiet (opened sample_results ∅) ((env, script_loaded) :: steps)).
  { repeat split. }
  split; [exact Hq|]. exact (quiet_run_in_sync sample_results ∅ env steps Hq).
Defined.

Lemma move_there_and_back_witness :
  partition_invariant (ingested sample_results) /\ untriaged <> issues /\
  (exists f, f ∈ bucket untriaged (ingested sample_results) /\ has_id "item-0" f) /\
  exists pre item post s2,
    bucket untriaged (ingested sample_results) = pre ++ item :: post /\
    has_id "item-0" item /\
    triage_all (encode (ingested sample_results))
               [("item-0", untriaged, issues); ("item-0", issues, untriaged)]
      = encode s2 /\
    bucket untriaged s2 = pre ++ post ++ [item] /\
    (forall c, c <> untriaged -> bucket c s2 = bucket c (ingested sample_results)) /\
    (s2 = ingested sample_results <-> post = []).
Proof.
  split_and!; [apply ingested_partition_invariant|discriminate|apply sample_has_item_0|].
  apply move_there_and_back;
    [apply ingested_partition_invariant|discriminate|apply sample_has_item_0].
Defined.

Lemma progress_file_is_no_results_file_witness :
  let s := ingested sample_results in
  let fs : gmap string string := {[ progress_uri := JSON.stringify (encode s) ]} in
  let ext := {| currentPanel := None |} in
  well_formed (encode s) /\
  readFile fs None progress_uri = Normal (JSON.stringify (encode s)) /\
  openResults (Some [progress_uri]) None fs ext
  = (ext, [showErrorMessage invalid_results_format None]).
Proof.
  intros s fs ext.
  assert (Hwf : well_formed (encode s)).
  { unfold s. rewrite <- constructor_encode.
    apply well_formed_constructor, sample_results_well_formed. }
  assert (Hread : readFile fs None progress_uri = Normal (JSON.stringify (encode s))).
  { unfold readFile, fs. by rewrite lookup_singleton_eq. }
  split_and!; [exact Hwf|exact Hread|].
  exact (progress_file_is_no_results_file ext fs progress_uri [] s Hwf Hread).
Defined.

Lemma sample_ingested_all f :
  f ∈ all_findings (ingested [JObj sample_finding]) -> f = sample_ingested.
Proof.
  unfold all_findings. cbn [ingested st_untriaged st_issues st_falsePositives imap app].
  by intros ->%list_elem_of_singleton.
Qed.

Lemma sample_without_extra :
  exists f, f ∈ bucket untriaged (ingested sample_results) /\ unrenderable f.
Proof. eexists. split; [left|left; by left]. Qed.

Lemma sample_unprintable :
  exists f, f ∈ bucket untriaged (ingested [JObj unprintable_finding]) /\
            has_extra f /\ unrenderable f.
Proof.
  eexists. split; [left|]. split.
  - eexists. split; [reflexivity|discriminate].
  - right. by apply Exists_cons_hd.
Qed.

Lemma render_needs_extra_witness :
  (forall f, f ∈ all_findings (ingested [JObj sample_finding]) -> renderable f) /\
  updateView blank_webview (encode (ingested [JObj sample_finding]))
  = ({| results := encode (ingested [JObj sample_finding]);
        shown := page_of (ingested [JObj sample_finding]) |}, None) /\
  (exists f, f ∈ bucket untriaged (ingested sample_results) /\ unrenderable f) /\
  updateView blank_webview (encode (ingested sample_results))
  = ({| results := encode (ingested sample_results);
        shown := set_table untriaged
                   {| count := Some (JNum (Int 2)); header := true; body := [] |}
                   blank_page |},
     Some TypeError) /\
  (exists f, f ∈ bucket untriaged (ingested [JObj unprintable_finding]) /\
             has_extra f /\ unrenderable f) /\
  updateView blank_webview (encode (ingested [JObj unprintable_finding]))
  = ({| results := encode (ingested [JObj unprintable_finding]);
        shown := set_table untriaged
                   {| count := Some (JNum (Int 1)); header := true; body := [] |}
                   blank_page |},
     Some TypeError).
Proof.
  assert (Hall : forall f, f ∈ all_findings (ingested [JObj sample_finding]) -> renderable f).
  { intros f ->%sample_ingested_all. split.
    - eexists. split; [reflexivity|discriminate].
    - repeat (apply Forall_cons_2; [by eexists|]). apply Forall_nil_2. }
  split_and!; [exact Hall| |exact sample_without_extra| |exact sample_unprintable|].
  - exact (proj1 (render_needs_extra (ingested [JObj sample_finding]) blank_webview) Hall).
  - exact (proj2 (proj2 (render_needs_extra (ingested sample_results) blank_webview))
             sample_without_extra).
  - destruct sample_unprintable as (f & Hf & _ & Hun).
    exact (proj2 (proj2 (render_needs_extra (ingested [JObj unprintable_finding])
                           blank_webview))
             (ex_intro _ f (conj Hf Hun))).
Defined.

Lemma sample_ingested_untriaged :
  sample_ingested ∈ bucket untriaged (ingested [JObj sample_finding]).
Proof. left. Qed.

Lemma rendered_button_moves_witness :
  let s := ingested [JObj sample_finding] in
  partition_invariant s /\ sample_ingested ∈ bucket untriaged s /\
  has_id "item-0" sample_ingested /\
  createRow (JObj sample_ingested) untriaged = Normal (row_of untriaged sample_ingested) /\
  (to_bucket issues ∈ buttons (row_of untriaged sample_ingested) <-> issues <> untriaged) /\
  (issues <> untriaged ->
   click (row_of untriaged sample_ingested) (to_bucket issues)
   = Normal (Some (triage "item-0" untriaged issues)) /\
   exists pre post s',
     bucket untriaged s = pre ++ sample_ingested :: post /\
     _handleTriage (encode s) "item-0" untriaged issues
       = Returned (encode s') [postMessage "updateView" (encode s')] /\
     bucket untriaged s' = pre ++ post /\
     bucket issues s' = bucket issues s ++ [sample_ingested]).
Proof.
  intros s.
  split_and!; [apply ingested_partition_invariant|exact sample_ingested_untriaged
              |reflexivity|reflexivity|..];
    apply (rendered_button_moves s untriaged issues sample_ingested "item-0"
             (row_of untriaged sample_ingested));
    [apply ingested_partition_invariant|exact sample_ingested_untriaged
    |reflexivity|reflexivity
    |apply ingested_partition_invariant|exact sample_ingested_untriaged
    |reflexivity|reflexivity].
Defined.

Lemma counts_add_up_witness :
  let after := triage_all (constructor [JObj sample_finding])
                          [("item-0", untriaged, issues)] in
  snd (updateView blank_webview after) = None /\
  let p := shown (fst (updateView blank_webview after)) in
  (shown_count (untriaged_table p) + shown_count (issues_table p)
   + shown_count (falsePositives_table p))%Z
  = Z.of_nat (length [JObj sample_finding]).
Proof.
  intros after.
  assert (Hnone : snd (updateView blank_webview after) = None) by reflexivity.
  split; [exact Hnone|].
  exact (counts_add_up [JObj sample_finding] [("item-0", untriaged, issues)]
           blank_webview Hnone).
Defined.

Lemma draws_in_range : forall i, i < 32 -> (fun i : nat => i) i < String.length possible.
Proof. intros i Hi. change (String.length possible) with 62. lia. Qed.

Lemma getNonce_alphanumeric_witness :
  (forall i, i < 32 -> (fun i : nat => i) i < String.length possible) /\
  String.length (getNonce (fun i => i)) = 32 /\
  Forall alphanumeric (list_ascii_of_string (getNonce (fun i => i))) /\
  forall draw' : nat -> nat,
    (forall i, i < 32 -> draw' i < String.length possible) ->
    getNonce (fun i => i) = getNonce draw' -> forall i, i < 32 -> i = draw' i.
Proof.
  split; [exact draws_in_range|].
  exact (getNonce_alphanumeric (fun i => i) draws_in_range).
Defined.

Lemma shared_webview_ends_on_newest_witness :
  let env := answering progress_uri None in
  let ext := {| currentPanel := Some (constructor []) |} in
  currentPanel ext = last [constructor []] /\
  createOrShow ext sample_results
  = ({| currentPanel := Some (constructor sample_results) |}, [reveal]) /\
  (exists f, f ∈ bucket untriaged (ingested sample_results) /\ has_id "item-0" f) /\
  let after := receive_all env ∅ ([constructor []] ++ [encode (ingested sample_results)])
                           (triage "item-0" untriaged issues) in
  last after.1 = Some (encode (move (ingested sample_results) "item-0" untriaged issues)) /\
  length after.1 = 2 /\
  fold_left webview_onmessage after.2 initial_results
  = encode (move (ingested sample_results) "item-0" untriaged issues).
Proof.
  intros env ext.
  destruct (shared_webview_ends_on_newest env ∅ [constructor []] sample_results
              initial_results) as (Hshow & _ & _ & Htriage).
  split_and!; [reflexivity|exact (Hshow ext eq_refl)|apply sample_has_item_0|].
  exact (Htriage (ingested sample_results) "item-0" untriaged issues sample_has_item_0).
Defined.

